(** * SpessaSynth: volume envelope and sequencer seek

    A shallow embedding of
    [spessasynth_lib/synthetizer/worklet_system/worklet_utilities/volume_envelope.js]
    (the DAHDSR volume envelope of a voice) and of the sequencer's seek
    ([_playTo], [setTimeTicks]).

    Numbers.  A JavaScript number of the envelope is modelled by an exact
    rational ([Q]): rounding, overflow and the non-finite values are outside
    the model.  A quotient whose divisor is zero is 0 in [Q] where JavaScript
    gives an infinity or NaN, so a statement about the value of a quotient
    assumes its divisor is not zero; a statement that only says which
    expression is computed does not.  MIDI bytes, ticks and
    controller values are integers ([Z]) with the bit operations of the code
    (on bytes, the 32-bit shifts and ors of JavaScript do not wrap). *)

From Stdlib Require Import QArith Qround Qpower Lqa ZArith Lia List Bool.
Import ListNotations.

(* ===================================================================== *)
(** * The volume envelope                                                 *)
(* ===================================================================== *)

Module VolumeEnvelope.

Local Open Scope Q_scope.

Definition VOLUME_ENVELOPE_SMOOTHING_FACTOR : Q := 1 # 1000.
Definition DB_SILENCE : Q := 100.
Definition PERCEIVED_DB_SILENCE : Q := 96.

(** The generators read by the envelope ([generatorTypes], whose numeric
    table lives in [soundfont/read_sf2/generators.js]). *)
Inductive generatorTypes : Type :=
  | delayVolEnv
  | attackVolEnv
  | holdVolEnv
  | decayVolEnv
  | sustainVolEnv
  | releaseVolEnv
  | keyNumToVolEnvHold
  | keyNumToVolEnvDecay
  | initialAttenuation.

(** The fields of [class WorkletVolumeEnvelope]. *)
Record WorkletVolumeEnvelope : Type := mkEnv {
  currentSampleTime       : Q;
  sampleRate              : Q;
  currentAttenuationDb    : Q;
  state                   : nat;
  releaseStartDb          : Q;
  releaseStartTimeSamples : Q;
  currentReleaseGain      : Q;
  attackDuration          : Q;
  decayDuration           : Q;
  releaseDuration         : Q;
  attenuation             : Q;
  sustainDb               : Q;
  delayEnd                : Q;
  attackEnd               : Q;
  holdEnd                 : Q;
  decayEnd                : Q
}.

(** The field initialisers of the class, for a given sample rate. *)
Definition newEnvelope (rate : Q) : WorkletVolumeEnvelope :=
  {| currentSampleTime := 0; sampleRate := rate;
     currentAttenuationDb := DB_SILENCE; state := 0%nat;
     releaseStartDb := 100; releaseStartTimeSamples := 0;
     currentReleaseGain := 1; attackDuration := 0; decayDuration := 0;
     releaseDuration := 0; attenuation := 0; sustainDb := 0;
     delayEnd := 0; attackEnd := 0; holdEnd := 0; decayEnd := 0 |}.

(** Assignments to the fields the code mutates after construction. *)
Definition set_currentSampleTime (x : Q) (env : WorkletVolumeEnvelope)
  : WorkletVolumeEnvelope :=
  {| currentSampleTime := x;
     sampleRate := sampleRate env;
     currentAttenuationDb := currentAttenuationDb env;
     state := state env;
     releaseStartDb := releaseStartDb env;
     releaseStartTimeSamples := releaseStartTimeSamples env;
     currentReleaseGain := currentReleaseGain env;
     attackDuration := attackDuration env;
     decayDuration := decayDuration env;
     releaseDuration := releaseDuration env;
     attenuation := attenuation env;
     sustainDb := sustainDb env;
     delayEnd := delayEnd env;
     attackEnd := attackEnd env;
     holdEnd := holdEnd env;
     decayEnd := decayEnd env |}.

Definition set_currentAttenuationDb (x : Q) (env : WorkletVolumeEnvelope)
  : WorkletVolumeEnvelope :=
  {| currentSampleTime := currentSampleTime env;
     sampleRate := sampleRate env;
     currentAttenuationDb := x;
     state := state env;
     releaseStartDb := releaseStartDb env;
     releaseStartTimeSamples := releaseStartTimeSamples env;
     currentReleaseGain := currentReleaseGain env;
     attackDuration := attackDuration env;
     decayDuration := decayDuration env;
     releaseDuration := releaseDuration env;
     attenuation := attenuation env;
     sustainDb := sustainDb env;
     delayEnd := delayEnd env;
     attackEnd := attackEnd env;
     holdEnd := holdEnd env;
     decayEnd := decayEnd env |}.

Definition set_state (x : nat) (env : WorkletVolumeEnvelope)
  : WorkletVolumeEnvelope :=
  {| currentSampleTime := currentSampleTime env;
     sampleRate := sampleRate env;
     currentAttenuationDb := currentAttenuationDb env;
     state := x;
     releaseStartDb := releaseStartDb env;
     releaseStartTimeSamples := releaseStartTimeSamples env;
     currentReleaseGain := currentReleaseGain env;
     attackDuration := attackDuration env;
     decayDuration := decayDuration env;
     releaseDuration := releaseDuration env;
     attenuation := attenuation env;
     sustainDb := sustainDb env;
     delayEnd := delayEnd env;
     attackEnd := attackEnd env;
     holdEnd := holdEnd env;
     decayEnd := decayEnd env |}.

Definition set_releaseStartDb (x : Q) (env : WorkletVolumeEnvelope)
  : WorkletVolumeEnvelope :=
  {| currentSampleTime := currentSampleTime env;
     sampleRate := sampleRate env;
     currentAttenuationDb := currentAttenuationDb env;
     state := state env;
     releaseStartDb := x;
     releaseStartTimeSamples := releaseStartTimeSamples env;
     currentReleaseGain := currentReleaseGain env;
     attackDuration := attackDuration env;
     decayDuration := decayDuration env;
     releaseDuration := releaseDuration env;
     attenuation := attenuation env;
     sustainDb := sustainDb env;
     delayEnd := delayEnd env;
     attackEnd := attackEnd env;
     holdEnd := holdEnd env;
     decayEnd := decayEnd env |}.

Definition set_releaseStartTimeSamples (x : Q) (env : WorkletVolumeEnvelope)
  : WorkletVolumeEnvelope :=
  {| currentSampleTime := currentSampleTime env;
     sampleRate := sampleRate env;
     currentAttenuationDb := currentAttenuationDb env;
     state := state env;
     releaseStartDb := releaseStartDb env;
     releaseStartTimeSamples := x;
     currentReleaseGain := currentReleaseGain env;
     attackDuration := attackDuration env;
     decayDuration := decayDuration env;
     releaseDuration := releaseDuration env;
     attenuation := attenuation env;
     sustainDb := sustainDb env;
     delayEnd := delayEnd env;
     attackEnd := attackEnd env;
     holdEnd := holdEnd env;
     decayEnd := decayEnd env |}.

Definition set_currentReleaseGain (x : Q) (env : WorkletVolumeEnvelope)
  : WorkletVolumeEnvelope :=
  {| currentSampleTime := currentSampleTime env;
     sampleRate := sampleRate env;
     currentAttenuationDb := currentAttenuationDb env;
     state := state env;
     releaseStartDb := releaseStartDb env;
     releaseStartTimeSamples := releaseStartTimeSamples env;
     currentReleaseGain := x;
     attackDuration := attackDuration env;
     decayDuration := decayDuration env;
     releaseDuration := releaseDuration env;
     attenuation := attenuation env;
     sustainDb := sustainDb env;
     delayEnd := delayEnd env;
     attackEnd := attackEnd env;
     holdEnd := holdEnd env;
     decayEnd := decayEnd env |}.

(** The part of a [WorkletVoice] the envelope touches. *)
Record WorkletVoice : Type := mkVoice {
  volumeEnvelope      : WorkletVolumeEnvelope;
  modulatedGenerators : generatorTypes -> Z;
  targetKey           : Z;
  isInRelease         : bool;
  finished            : bool
}.

Definition set_volumeEnvelope (env : WorkletVolumeEnvelope) (v : WorkletVoice)
  : WorkletVoice :=
  {| volumeEnvelope := env; modulatedGenerators := modulatedGenerators v;
     targetKey := targetKey v; isInRelease := isInRelease v;
     finished := finished v |}.

Definition set_finished (b : bool) (v : WorkletVoice) : WorkletVoice :=
  {| volumeEnvelope := volumeEnvelope v;
     modulatedGenerators := modulatedGenerators v;
     targetKey := targetKey v; isInRelease := isInRelease v;
     finished := b |}.

(** [x < y] and [x >= y] of the code, as booleans. *)
Definition Qltb (x y : Q) : bool := negb (Qle_bool y x).
Definition Qgeb (x y : Q) : bool := Qle_bool y x.

(** [Math.floor]. *)
Definition floor (x : Q) : Q := inject_Z (Qfloor x).

(** A modulated generator of the voice, as a number. *)
Definition gen (v : WorkletVoice) (g : generatorTypes) : Q :=
  inject_Z (modulatedGenerators v g).

Section Envelope.

(** [unit_converter.js] is not among the sources: its two conversions, and
    [Math.log10], are taken as they come. *)
Variable timecentsToSeconds : Q -> Q.
Variable decibelAttenuationToGain : Q -> Q.
Variable log10 : Q -> Q.

(** The local [timecentsToSamples] of [recalculate]. *)
Definition timecentsToSamples (env : WorkletVolumeEnvelope) (tc : Q) : Q :=
  floor (timecentsToSeconds tc * sampleRate env).

(** The [fraction] of [recalculate], from the two envelope fields it reads. *)
Definition decayFraction (sustain atten : Q) : Q :=
  (sustain - atten) / (100 - atten).

(** The [switch (env.state)] of [recalculate], run when the voice is in
    release: the value stored in [releaseStartDb]. *)
Definition releaseStartDbOf (env : WorkletVolumeEnvelope) : Q :=
  match state env with
  | 0%nat => DB_SILENCE
  | 1%nat =>
      let elapsed :=
        1 - ((attackEnd env - releaseStartTimeSamples env) / attackDuration env) in
      let attackGain := elapsed * decibelAttenuationToGain (attenuation env) in
      20 * log10 attackGain * -1
  | 2%nat => attenuation env
  | 3%nat =>
      (1 - (decayEnd env - releaseStartTimeSamples env) / decayDuration env)
      * (sustainDb env - attenuation env) + attenuation env
  | 4%nat => sustainDb env
  | _ => currentAttenuationDb env
  end.

Definition recalculate (voice : WorkletVoice) : WorkletVoice :=
  let env := volumeEnvelope voice in
  let attenuation' := gen voice initialAttenuation / 10 in
  let sustainDb' := attenuation' + gen voice sustainVolEnv / 10 in
  let attackDuration' := timecentsToSamples env (gen voice attackVolEnv) in
  let fullChange := gen voice decayVolEnv in
  let keyNumAddition :=
    (60 - inject_Z (targetKey voice)) * gen voice keyNumToVolEnvDecay in
  let fraction := decayFraction sustainDb' attenuation' in
  let decayDuration' :=
    timecentsToSamples env (fullChange + keyNumAddition) * fraction in
  let releaseDuration' := timecentsToSamples env (gen voice releaseVolEnv) in
  let delayEnd' := timecentsToSamples env (gen voice delayVolEnv) in
  let attackEnd' := attackDuration' + delayEnd' in
  let holdExcursion :=
    (60 - inject_Z (targetKey voice)) * gen voice keyNumToVolEnvHold in
  let holdEnd' :=
    timecentsToSamples env (gen voice holdVolEnv + holdExcursion) + attackEnd' in
  let decayEnd' := decayDuration' + holdEnd' in
  let env1 :=
    {| currentSampleTime := currentSampleTime env;
       sampleRate := sampleRate env;
       currentAttenuationDb := currentAttenuationDb env;
       state := state env;
       releaseStartDb := releaseStartDb env;
       releaseStartTimeSamples := releaseStartTimeSamples env;
       currentReleaseGain := currentReleaseGain env;
       attackDuration := attackDuration';
       decayDuration := decayDuration';
       releaseDuration := releaseDuration';
       attenuation := attenuation';
       sustainDb := sustainDb';
       delayEnd := delayEnd';
       attackEnd := attackEnd';
       holdEnd := holdEnd';
       decayEnd := decayEnd' |} in
  if isInRelease voice then
    set_volumeEnvelope (set_releaseStartDb (releaseStartDbOf env1) env1) voice
  else set_volumeEnvelope env1 voice.

(** [startRelease]. *)
Definition startRelease (voice : WorkletVoice) : WorkletVoice :=
  let env := volumeEnvelope voice in
  let env1 := set_releaseStartTimeSamples (currentSampleTime env) env in
  let env2 :=
    set_currentReleaseGain
      (decibelAttenuationToGain (currentAttenuationDb env1)) env1 in
  recalculate (set_volumeEnvelope env2 voice).

(** [getInterpolatedGain]: the envelope after the smoothing step, and the
    gain returned. *)
Definition getInterpolatedGain (env : WorkletVolumeEnvelope)
    (attenuationDb smoothingFactor : Q) : WorkletVolumeEnvelope * Q :=
  let cur :=
    currentAttenuationDb env
    + (attenuationDb - currentAttenuationDb env) * smoothingFactor in
  (set_currentAttenuationDb cur env, decibelAttenuationToGain cur).

(** [env.currentSampleTime++]. *)
Definition tick (env : WorkletVolumeEnvelope) : WorkletVolumeEnvelope :=
  set_currentSampleTime (currentSampleTime env + 1) env.

(** ** The release loop of [apply]

    [for (let i = 0; i < audioBuffer.length; i++)]: the envelope, the local
    [db] after the loop and the samples written. *)
Fixpoint releaseLoop (releaseSmoothingFactor dbDifference decibelOffset : Q)
    (env : WorkletVolumeEnvelope) (elapsedRelease db : Q)
    (audioBuffer : list Q) : WorkletVolumeEnvelope * Q * list Q :=
  match audioBuffer with
  | [] => (env, db, [])
  | x :: rest =>
      let db1 :=
        (elapsedRelease / releaseDuration env) * dbDifference
        + releaseStartDb env in
      let gain := decibelAttenuationToGain (db1 + decibelOffset) in
      let g :=
        currentReleaseGain env
        + (gain - currentReleaseGain env) * releaseSmoothingFactor in
      let env1 := tick (set_currentReleaseGain g env) in
      let '(env2, db2, out) :=
        releaseLoop releaseSmoothingFactor dbDifference decibelOffset
          env1 (elapsedRelease + 1) db1 rest in
      (env2, db2, x * g :: out)
  end.

(** ** The stage loops of [apply]

    Every stage of the [switch] is a loop of the same shape,
    [while (cond) { body; if (++filledBuffer >= audioBuffer.length) return; }
     env.state++;] followed by the next case.  [todo] is the part of the
    buffer from [filledBuffer] on.  [cond] may change the envelope (the decay
    stage increments the clock in its condition); [body] gives the envelope
    after the iteration and what it does to the sample.  On an empty buffer
    the write to [audioBuffer[0]] is dropped (a typed array does not grow)
    and the first [++filledBuffer >= 0] returns. *)
Fixpoint stageLoop
    (cond : WorkletVolumeEnvelope -> bool * WorkletVolumeEnvelope)
    (body : WorkletVolumeEnvelope -> WorkletVolumeEnvelope * (Q -> Q))
    (next : WorkletVolumeEnvelope -> list Q -> WorkletVolumeEnvelope * list Q)
    (env : WorkletVolumeEnvelope) (todo : list Q)
  : WorkletVolumeEnvelope * list Q :=
  let '(c, env1) := cond env in
  if c then
    let '(env2, f) := body env1 in
    match todo with
    | [] => (env2, [])
    | x :: rest =>
        match rest with
        | [] => (env2, [f x])
        | _ :: _ =>
            let '(env3, out) := stageLoop cond body next env2 rest in
            (env3, f x :: out)
        end
    end
  else next (set_state (S (state env1)) env1) todo.

(** [case 4]: [while (true)], left only by the [return]. *)
Fixpoint sustainLoop
    (body : WorkletVolumeEnvelope -> WorkletVolumeEnvelope * (Q -> Q))
    (env : WorkletVolumeEnvelope) (todo : list Q)
  : WorkletVolumeEnvelope * list Q :=
  let '(env2, f) := body env in
  match todo with
  | [] => (env2, [])
  | x :: rest =>
      match rest with
      | [] => (env2, [f x])
      | _ :: _ =>
          let '(env3, out) := sustainLoop body env2 rest in
          (env3, f x :: out)
      end
  end.

Section Stages.

Variable decibelOffset smoothingFactor : Q.

(** case 0, delay: [while (env.currentSampleTime < env.delayEnd)]. *)
Definition delayCond (env : WorkletVolumeEnvelope) :=
  (Qltb (currentSampleTime env) (delayEnd env), env).
Definition delayBody (env : WorkletVolumeEnvelope)
  : WorkletVolumeEnvelope * (Q -> Q) :=
  (tick (set_currentAttenuationDb DB_SILENCE env), fun _ => 0).

(** case 1, attack: [while (env.currentSampleTime < env.attackEnd)]. *)
Definition attackCond (env : WorkletVolumeEnvelope) :=
  (Qltb (currentSampleTime env) (attackEnd env), env).
Definition attackBody (env : WorkletVolumeEnvelope)
  : WorkletVolumeEnvelope * (Q -> Q) :=
  let linearAttenuation :=
    1 - (attackEnd env - currentSampleTime env) / attackDuration env in
  let g :=
    linearAttenuation
    * decibelAttenuationToGain (attenuation env + decibelOffset) in
  (tick (set_currentAttenuationDb (attenuation env) env), fun x => x * g).

(** case 2, hold: [while (env.currentSampleTime < env.holdEnd)]. *)
Definition holdCond (env : WorkletVolumeEnvelope) :=
  (Qltb (currentSampleTime env) (holdEnd env), env).
Definition holdBody (env : WorkletVolumeEnvelope)
  : WorkletVolumeEnvelope * (Q -> Q) :=
  let '(env1, g) :=
    getInterpolatedGain env (attenuation env + decibelOffset) smoothingFactor in
  (tick env1, fun x => x * g).

(** case 3, decay: [while (env.currentSampleTime++ < env.decayEnd)]; the
    comparison reads the clock before the increment, the increment happens
    whatever the outcome. *)
Definition decayCond (env : WorkletVolumeEnvelope) :=
  (Qltb (currentSampleTime env) (decayEnd env), tick env).
Definition decayBody (dbDifference : Q) (env : WorkletVolumeEnvelope)
  : WorkletVolumeEnvelope * (Q -> Q) :=
  let newAttenuation :=
    (1 - (decayEnd env - currentSampleTime env) / decayDuration env)
    * dbDifference + attenuation env in
  let '(env1, g) :=
    getInterpolatedGain env (newAttenuation + decibelOffset) smoothingFactor in
  (tick env1, fun x => x * g).

(** case 4, sustain. *)
Definition sustainBody (env : WorkletVolumeEnvelope)
  : WorkletVolumeEnvelope * (Q -> Q) :=
  let '(env1, g) :=
    getInterpolatedGain env (sustainDb env + decibelOffset) smoothingFactor in
  (tick env1, fun x => x * g).

(** The cases of the [switch], each falling through to the next. *)
Definition sustainStage := sustainLoop sustainBody.
Definition decayStage (env : WorkletVolumeEnvelope) (todo : list Q) :=
  let dbDifference := sustainDb env - attenuation env in
  stageLoop decayCond (decayBody dbDifference) sustainStage env todo.
Definition holdStage := stageLoop holdCond holdBody decayStage.
Definition attackStage := stageLoop attackCond attackBody holdStage.
Definition delayStage := stageLoop delayCond delayBody attackStage.

(** [switch (env.state)]: no case for a state above 4. *)
Definition switchStage (env : WorkletVolumeEnvelope) (audioBuffer : list Q)
  : WorkletVolumeEnvelope * list Q :=
  match state env with
  | 0%nat => delayStage env audioBuffer
  | 1%nat => attackStage env audioBuffer
  | 2%nat => holdStage env audioBuffer
  | 3%nat => decayStage env audioBuffer
  | 4%nat => sustainStage env audioBuffer
  | _ => (env, audioBuffer)
  end.

End Stages.

(** [apply]: the voice after the call and the audio buffer after it. *)
Definition apply (voice : WorkletVoice) (audioBuffer : list Q)
    (centibelOffset smoothingFactor : Q) : WorkletVoice * list Q :=
  let env := volumeEnvelope voice in
  let decibelOffset := centibelOffset / 10 in
  if isInRelease voice then
    let releaseSmoothingFactor := smoothingFactor * 10 in
    let elapsedRelease :=
      currentSampleTime env - releaseStartTimeSamples env in
    let dbDifference := DB_SILENCE - releaseStartDb env in
    let '(env1, db, out) :=
      releaseLoop releaseSmoothingFactor dbDifference decibelOffset
        env elapsedRelease 0 audioBuffer in
    let voice1 := set_volumeEnvelope env1 voice in
    if Qgeb db PERCEIVED_DB_SILENCE
    then (set_finished true voice1, out)
    else (voice1, out)
  else
    let '(env1, out) :=
      switchStage decibelOffset smoothingFactor env audioBuffer in
    (set_volumeEnvelope env1 voice, out).

(** Modelled from the spec: the synth core is not among the sources.  On
    each audio block it renders every voice and then removes the finished
    voices (section 4.6, steps 2 and 3).  Of the rendering of a voice only
    the volume envelope is here, on the samples of the voice. *)
Definition voicesAfterBlock (voices : list WorkletVoice)
    (samples : WorkletVoice -> list Q) (centibelOffset smoothingFactor : Q)
  : list WorkletVoice :=
  filter (fun voice => negb (finished voice))
    (map (fun voice =>
            fst (apply voice (samples voice)
                   centibelOffset smoothingFactor))
         voices).
End Envelope.

(** The clock after [n] increments, in the shape the code computes it. *)
Fixpoint clockAfter (t : Q) (n : nat) : Q :=
  match n with
  | O => t
  | S k => clockAfter (t + 1) k
  end.

(** Two envelopes that differ at most in the clock and in the smoothed
    attenuation: what an iteration of a stage loop leaves alone. *)
Definition sameShape (a b : WorkletVolumeEnvelope) : Prop :=
  sampleRate a = sampleRate b
  /\ state a = state b
  /\ releaseStartDb a = releaseStartDb b
  /\ releaseStartTimeSamples a = releaseStartTimeSamples b
  /\ currentReleaseGain a = currentReleaseGain b
  /\ attackDuration a = attackDuration b
  /\ decayDuration a = decayDuration b
  /\ releaseDuration a = releaseDuration b
  /\ attenuation a = attenuation b
  /\ sustainDb a = sustainDb b
  /\ delayEnd a = delayEnd b
  /\ attackEnd a = attackEnd b
  /\ holdEnd a = holdEnd b
  /\ decayEnd a = decayEnd b.

(** ** A stage that lasts

    [stageStays]: the condition of the loop holds at each of the iterations
    that write [todo].  [stageRun]: those iterations, one per sample. *)
Fixpoint stageStays
    (cond : WorkletVolumeEnvelope -> bool * WorkletVolumeEnvelope)
    (body : WorkletVolumeEnvelope -> WorkletVolumeEnvelope * (Q -> Q))
    (env : WorkletVolumeEnvelope) (todo : list Q) : bool :=
  match todo with
  | [] => true
  | _ :: rest =>
      let '(c, env1) := cond env in
      let '(env2, _) := body env1 in
      c && stageStays cond body env2 rest
  end.

Fixpoint stageRun
    (cond : WorkletVolumeEnvelope -> bool * WorkletVolumeEnvelope)
    (body : WorkletVolumeEnvelope -> WorkletVolumeEnvelope * (Q -> Q))
    (env : WorkletVolumeEnvelope) (todo : list Q)
  : WorkletVolumeEnvelope * list Q :=
  match todo with
  | [] => (env, [])
  | x :: rest =>
      let '(_, env1) := cond env in
      let '(env2, f) := body env1 in
      let '(env3, out) := stageRun cond body env2 rest in
      (env3, f x :: out)
  end.

(** ** What a call keeps *)

(** What a call of [apply] outside release leaves alone: every field of the
    envelope but the clock, the smoothed attenuation and the state. *)
Definition sameParameters (a b : WorkletVolumeEnvelope) : Prop :=
  sameShape (set_state (state b) a) b.

(** The iterations the stage loops make on a block: one per sample, and one
    on an empty block (the [return] is tested after the body). *)
Definition blockIterations (audioBuffer : list Q) : Q :=
  inject_Z (Z.of_nat (Nat.max 1 (length audioBuffer))).

(** What a run of the [switch] from [env] on [todo] keeps: the state only
    grows and stays a stage, the clock advances by at least one per iteration
    and at most two (less [slack]), the parameters and the length of the block
    are kept. *)
Definition stageInvariant (slack : Q) (env : WorkletVolumeEnvelope)
    (todo : list Q) (r : WorkletVolumeEnvelope * list Q) : Prop :=
  (state env <= state (fst r) <= 4)%nat
  /\ currentSampleTime env + blockIterations todo <= currentSampleTime (fst r)
  /\ currentSampleTime (fst r) + slack
     <= currentSampleTime env + 2 * blockIterations todo
  /\ sameParameters env (fst r)
  /\ length (snd r) = length todo.

(** ** Smoothing, as a sequence

    [cur += (target - cur) * alpha], once per sample: the values [cur] takes
    along a list of targets.  [getInterpolatedGain] does this to
    [currentAttenuationDb], the release loop to [currentReleaseGain]. *)
Fixpoint smoothed (cur alpha : Q) (targets : list Q) : list Q :=
  match targets with
  | [] => []
  | target :: rest =>
      let cur1 := cur + (target - cur) * alpha in
      cur1 :: smoothed cur1 alpha rest
  end.

(** [audioBuffer[i] *= gains[i]]. *)
Definition scaled (audioBuffer gains : list Q) : list Q :=
  map (fun p => fst p * snd p) (combine audioBuffer gains).

(** ** The conversions of [unit_converter.js] on the values where they are
    rational

    Modelled from the spec: [unit_converter.js] is not among the sources;
    section 4.1 gives timecents to seconds as [2^(tc/1200)] with the sentinel
    [-32768 -> 0] and decibels to gain as [10^(-dB/20)].  The functions below
    are these formulas at whole octaves (tc a multiple of 1200) and whole
    decades (dB a multiple of 20), rounded down to the octave or decade
    elsewhere; they instantiate the envelope on concrete inputs only. *)
Definition octaveTimecentsToSeconds (tc : Q) : Q :=
  if Qeq_bool tc (-32768) then 0 else 2 ^ Qfloor (tc / 1200).

Definition decadeDecibelAttenuationToGain (db : Q) : Q :=
  10 ^ (- Qfloor (db / 20)).

(** [Math.log10] on the powers of ten, the exponent of the decade below
    elsewhere (0 for an argument that is not positive). *)
Fixpoint decadeOf (fuel : nat) (x : Q) (k : Z) : Z :=
  match fuel with
  | O => k
  | S f =>
      if Qle_bool 10 x then decadeOf f (x / 10) (k + 1)
      else if Qltb x 1 then decadeOf f (x * 10) (k - 1)
      else k
  end.

Definition decadeLog10 (x : Q) : Q :=
  if Qle_bool x 0 then 0 else inject_Z (decadeOf 64 x 0).

(** A voice given by its generators, with a fresh envelope at 44100 Hz. *)
Definition voiceOf (gens : generatorTypes -> Z) (key : Z) : WorkletVoice :=
  {| volumeEnvelope := newEnvelope 44100; modulatedGenerators := gens;
     targetKey := key; isInRelease := false; finished := false |}.

Definition set_isInRelease (b : bool) (v : WorkletVoice) : WorkletVoice :=
  {| volumeEnvelope := volumeEnvelope v;
     modulatedGenerators := modulatedGenerators v;
     targetKey := targetKey v; isInRelease := b;
     finished := finished v |}.

Definition atStage (st : nat) (clock : Q) (v : WorkletVoice) : WorkletVoice :=
  set_volumeEnvelope
    (set_state st (set_currentSampleTime clock (volumeEnvelope v))) v.

(** A voice with short stages: 43 samples each of delay, attack and hold,
    a sustain of 20 dB and a release of 43 samples. *)
Definition shortGenerators (g : generatorTypes) : Z :=
  match g with
  | delayVolEnv | attackVolEnv | holdVolEnv | releaseVolEnv => -12000
  | decayVolEnv => 0
  | sustainVolEnv => 200
  | keyNumToVolEnvHold | keyNumToVolEnvDecay => 0
  | initialAttenuation => 0
  end.

Definition shortVoice : WorkletVoice :=
  recalculate octaveTimecentsToSeconds decadeDecibelAttenuationToGain
    decadeLog10 (voiceOf shortGenerators 60).

(** The same voice released during its delay. *)
Definition releasedVoice : WorkletVoice :=
  startRelease octaveTimecentsToSeconds decadeDecibelAttenuationToGain
    decadeLog10 (set_isInRelease true shortVoice).

(** The voice with short stages and a release of no sample: the release
    generator is the sentinel -32768. *)
Definition zeroReleaseGenerators (g : generatorTypes) : Z :=
  match g with
  | releaseVolEnv => -32768
  | _ => shortGenerators g
  end.

(** A voice released at clock 9000 of its sustain, at clock [clock]. *)
Definition releasedInSustain (gens : generatorTypes -> Z) (clock : Q)
  : WorkletVoice :=
  atStage 4 clock
    (startRelease octaveTimecentsToSeconds decadeDecibelAttenuationToGain
       decadeLog10
       (set_isInRelease true
          (atStage 4 9000
             (recalculate octaveTimecentsToSeconds
                decadeDecibelAttenuationToGain decadeLog10
                (voiceOf gens 60))))).

(** A voice whose sustain generator takes [sustainDb] above 100 dB. *)
Definition overSustainGenerators (g : generatorTypes) : Z :=
  match g with
  | sustainVolEnv => 1010
  | _ => 0
  end.

Definition overSustainVoice : WorkletVoice :=
  recalculate octaveTimecentsToSeconds decadeDecibelAttenuationToGain
    decadeLog10 (voiceOf overSustainGenerators 60).

End VolumeEnvelope.

(* ===================================================================== *)
(** * The sequencer: seeking by silent replay                             *)
(* ===================================================================== *)

Module Sequencer.

Local Open Scope Z_scope.

(** ** MIDI messages

    Modelled from the spec: [midi_parser/midi_message.js] ([messageTypes],
    [midiControllers], [getEvent]) is not among the sources.  Section 6 has
    the input as standard MIDI 1.0: these are its status bytes and controller
    numbers, and the meta-event numbers of a standard MIDI file. *)
Module messageTypes.
Definition noteOff : Z := 0x80.
Definition noteOn : Z := 0x90.
Definition polyPressure : Z := 0xA0.
Definition controllerChange : Z := 0xB0.
Definition programChange : Z := 0xC0.
Definition channelPressure : Z := 0xD0.
Definition pitchBend : Z := 0xE0.
Definition systemExclusive : Z := 0xF0.
Definition midiPort : Z := 0x21.
Definition endOfTrack : Z := 0x2F.
Definition setTempo : Z := 0x51.
Definition reset : Z := 0xFF.
End messageTypes.

Module midiControllers.
Definition bankSelect : Z := 0.
Definition modulationWheel : Z := 1.
Definition dataEntryMsb : Z := 6.
Definition mainVolume : Z := 7.
Definition pan : Z := 10.
Definition expressionController : Z := 11.
Definition lsbForControl0BankSelect : Z := 32.
Definition lsbForControl6DataEntry : Z := 38.
Definition sustainPedal : Z := 64.
Definition releaseTime : Z := 72.
Definition brightness : Z := 74.
Definition effects1Depth : Z := 91.
Definition dataIncrement : Z := 96.
Definition dataDecrement : Z := 97.
Definition NRPNLsb : Z := 98.
Definition NRPNMsb : Z := 99.
Definition RPNLsb : Z := 100.
Definition RPNMsb : Z := 101.
Definition resetAllControllers : Z := 121.
Definition polyModeOn : Z := 127.
End midiControllers.

(** Modelled from the spec: [getEvent] splits the status byte of a channel
    voice message into its kind (high nibble) and its channel (low nibble);
    any other status byte is its own kind, with channel -1.  The pair is
    [(info.status, info.channel)]. *)
Definition getEvent (statusByte : Z) : Z * Z :=
  let status := Z.land statusByte 0xF0 in
  let channel := Z.land statusByte 0x0F in
  if (0x80 <=? status) && (status <=? 0xE0)
  then (status, channel)
  else (statusByte, -1).

(** An event of a track.  [messageData[i]] of an event that has no such
    byte is [undefined] in the code and 0 here; the events that are read,
    controller changes and pitch bends, carry two data bytes. *)
Record MidiMessage : Type := mkMessage {
  ticks             : Z;
  messageStatusByte : Z;
  messageData       : list Z
}.

Definition dataByte (event : MidiMessage) (i : nat) : Z :=
  nth i (messageData event) 0.

(** ** JavaScript arrays

    An [Array] is a list of slots, a hole being [None]: writing past the end
    grows the array and leaves holes, reading a hole or past the end gives
    [undefined].  A typed array has a fixed length: a write past its end is
    dropped. *)
Fixpoint arraySet {A : Type} (l : list (option A)) (i : nat) (v : A)
  : list (option A) :=
  match i, l with
  | O, [] => [Some v]
  | O, _ :: rest => Some v :: rest
  | S k, [] => None :: arraySet [] k v
  | S k, x :: rest => x :: arraySet rest k v
  end.

Definition arrayGet {A : Type} (l : list (option A)) (i : nat) : option A :=
  match nth_error l i with
  | Some slot => slot
  | None => None
  end.

Fixpoint typedArraySet (l : list Z) (i : nat) (v : Z) : list Z :=
  match i, l with
  | _, [] => []
  | O, _ :: rest => v :: rest
  | S k, x :: rest => x :: typedArraySet rest k v
  end.

(** [Array.from] of a typed array. *)
Definition arrayFrom (l : list Z) : list (option Z) := map Some l.

(** ** The default controllers

    [new Int16Array(127)] and the six assignments that follow it. *)
Definition defaultControllerArray : list Z :=
  let a0 := repeat 0 127 in
  let a1 := typedArraySet a0 (Z.to_nat midiControllers.mainVolume) 100 in
  let a2 := typedArraySet a1 (Z.to_nat midiControllers.expressionController) 127 in
  let a3 := typedArraySet a2 (Z.to_nat midiControllers.pan) 64 in
  let a4 := typedArraySet a3 (Z.to_nat midiControllers.releaseTime) 64 in
  let a5 := typedArraySet a4 (Z.to_nat midiControllers.brightness) 64 in
  typedArraySet a5 (Z.to_nat midiControllers.effects1Depth) 40.

(** ** What the sequencer sends

    The calls [_playTo] and [setTimeTicks] make on the synthesizer and on
    the rest of the sequencer, in the order they are made. *)
Inductive Output : Type :=
  | SynthResetAllControllers
  | SynthControllerChange (channel controllerNumber value : Z)
  | SynthPitchWheel (channel MSB LSB : Z)
  | SendMIDIMessage (message : list Z)
  | ProcessEvent (event : MidiMessage) (trackIndex : nat)
  | Stop
  | RecalculateStartTime (time : Q)
  | Play
  | PostTimeChange
  | PostResetRendererIndexes.

(** The part of the sequencer [_processEvent] may write besides sending:
    the tempo, the port of each track, the channel offset of each port and
    the number of channels of the synthesizer. *)
Record Playback : Type := mkPlayback {
  oneTickToSeconds       : Q;
  midiPorts              : list Z;
  midiPortChannelOffsets : Z -> option nat;
  synthChannels          : nat
}.

Record WorkletSequencer : Type := mkSequencer {
  tracks           : list (list MidiMessage);
  eventIndex       : list nat;
  playedTime       : Q;
  timeDivision     : Z;
  sendMIDIMessages : bool;
  playback         : Playback
}.

Definition set_eventIndex (x : list nat) (s : WorkletSequencer) :=
  {| tracks := tracks s; eventIndex := x; playedTime := playedTime s;
     timeDivision := timeDivision s; sendMIDIMessages := sendMIDIMessages s;
     playback := playback s |}.

Definition set_playedTime (x : Q) (s : WorkletSequencer) :=
  {| tracks := tracks s; eventIndex := eventIndex s; playedTime := x;
     timeDivision := timeDivision s; sendMIDIMessages := sendMIDIMessages s;
     playback := playback s |}.

Definition set_playback (x : Playback) (s : WorkletSequencer) :=
  {| tracks := tracks s; eventIndex := eventIndex s;
     playedTime := playedTime s;
     timeDivision := timeDivision s; sendMIDIMessages := sendMIDIMessages s;
     playback := x |}.

Definition set_oneTickToSeconds (x : Q) (p : Playback) :=
  {| oneTickToSeconds := x; midiPorts := midiPorts p;
     midiPortChannelOffsets := midiPortChannelOffsets p;
     synthChannels := synthChannels p |}.

(** Modelled from the spec: [_resetTimers] is not among the sources; a seek
    "rewinds all track cursors to start" (section 4.7). *)
Definition _resetTimers (s : WorkletSequencer) : WorkletSequencer :=
  set_eventIndex (repeat 0%nat (length (tracks s))) (set_playedTime 0%Q s).

(** Modelled from the spec: [_findFirstEventIndex] is not among the sources;
    the sequencer "walks events" by absolute tick (section 4.7).  The track
    whose next event has the smallest tick, the first such track on a tie,
    track 0 when no track has an event left. *)
Fixpoint findFirstFrom (trs : list (list MidiMessage)) (cursors : list nat)
    (i index : nat) (best : option Z) : nat :=
  match trs, cursors with
  | track :: trs', cursor :: cursors' =>
      match nth_error track cursor with
      | Some event =>
          if match best with
             | None => true
             | Some b => ticks event <? b
             end
          then findFirstFrom trs' cursors' (S i) i (Some (ticks event))
          else findFirstFrom trs' cursors' (S i) index best
      | None => findFirstFrom trs' cursors' (S i) index best
      end
  | _, _ => index
  end.

Definition _findFirstEventIndex (s : WorkletSequencer) : nat :=
  findFirstFrom (tracks s) (eventIndex s) 0 0 None.

(** [this.tracks[trackIndex][this.eventIndex[trackIndex]]], [None] for
    [undefined]. *)
Definition eventAt (s : WorkletSequencer) (trackIndex : nat)
  : option MidiMessage :=
  match nth_error (tracks s) trackIndex, nth_error (eventIndex s) trackIndex with
  | Some track, Some cursor => nth_error track cursor
  | _, _ => None
  end.

(** [this.eventIndex[trackIndex]++]. *)
Fixpoint increment (cursors : list nat) (trackIndex : nat) : list nat :=
  match cursors, trackIndex with
  | [], _ => []
  | cursor :: rest, O => S cursor :: rest
  | cursor :: rest, S k => cursor :: increment rest k
  end.

(** ** The controllers that are not deferred

    The condition of the [if] in the [controllerChange] case, as written:
    [dataDecrement] stands twice in it. *)
Definition isNotDeferred (controllerNumber : Z) : bool :=
  (controllerNumber =? midiControllers.dataDecrement)
  || (controllerNumber =? midiControllers.dataEntryMsb)
  || (controllerNumber =? midiControllers.dataDecrement)
  || (controllerNumber =? midiControllers.lsbForControl6DataEntry)
  || (controllerNumber =? midiControllers.RPNLsb)
  || (controllerNumber =? midiControllers.RPNMsb)
  || (controllerNumber =? midiControllers.NRPNLsb)
  || (controllerNumber =? midiControllers.NRPNMsb)
  || (controllerNumber =? midiControllers.bankSelect)
  || (controllerNumber =? midiControllers.lsbForControl0BankSelect)
  || (controllerNumber =? midiControllers.resetAllControllers).

(** [this.midiPortChannelOffsets[this.midiPorts[trackIndex]] || 0]. *)
Definition channelOffset (p : Playback) (trackIndex : nat) : Z :=
  match nth_error (midiPorts p) trackIndex with
  | Some port =>
      match midiPortChannelOffsets p port with
      | Some offset => Z.of_nat offset
      | None => 0
      end
  | None => 0
  end.

(** [event.messageData[1] << 7 | event.messageData[0]]. *)
Definition pitchBendValue (event : MidiMessage) : Z :=
  Z.lor (Z.shiftl (dataByte event 1) 7) (dataByte event 0).

(** The replay: the sequencer, the two tables that are filled during the
    replay and issued after it. *)
Record Replay : Type := mkReplay {
  sequencer        : WorkletSequencer;
  pitchBends       : list (option Z);
  savedControllers : list (option (list (option Z)))
}.

(** [while (synth.workletProcessorChannels.length > savedControllers.length)
     savedControllers.push(Array.from(defaultControllerArray))]. *)
Definition growSavedControllers (channels : nat)
    (saved : list (option (list (option Z))))
  : list (option (list (option Z))) :=
  saved ++ repeat (Some (arrayFrom defaultControllerArray))
                  (channels - length saved).

Section Replay.

(** [_processEvent] is not among the sources: what it writes in the
    sequencer is taken as it comes, and the call itself is an [Output]. *)
Variable _processEvent : Playback -> MidiMessage -> nat -> Playback.

(** The [switch (info.status)] of the loop: the replay after the event and
    what was sent. *)
Definition replayEvent (r : Replay) (event : MidiMessage) (trackIndex : nat)
  : Replay * list Output :=
  let s := sequencer r in
  let '(status, channel) := getEvent (messageStatusByte event) in
  if (status =? messageTypes.noteOn) || (status =? messageTypes.noteOff) then
    (r, [])
  else if status =? messageTypes.pitchBend then
    ({| sequencer := s;
        pitchBends :=
          arraySet (pitchBends r) (Z.to_nat channel) (pitchBendValue event);
        savedControllers := savedControllers r |}, [])
  else if status =? messageTypes.controllerChange then
    let controllerNumber := dataByte event 0 in
    if isNotDeferred controllerNumber then
      if sendMIDIMessages s then
        (r, [SendMIDIMessage
               [Z.lor messageTypes.controllerChange channel;
                controllerNumber; dataByte event 1]])
      else
        (r, [SynthControllerChange channel controllerNumber (dataByte event 1)])
    else
      let channel' := Z.to_nat (channel + channelOffset (playback s) trackIndex) in
      let table :=
        match arrayGet (savedControllers r) channel' with
        | Some table => table
        | None => arrayFrom defaultControllerArray
        end in
      ({| sequencer := s;
          pitchBends := pitchBends r;
          savedControllers :=
            arraySet (savedControllers r) channel'
              (arraySet table (Z.to_nat controllerNumber) (dataByte event 1)) |},
       [])
  else if status =? messageTypes.midiPort then
    let p := _processEvent (playback s) event trackIndex in
    ({| sequencer := set_playback p s;
        pitchBends := pitchBends r;
        savedControllers :=
          growSavedControllers (synthChannels p) (savedControllers r) |},
     [ProcessEvent event trackIndex])
  else
    ({| sequencer := set_playback (_processEvent (playback s) event trackIndex) s;
        pitchBends := pitchBends r;
        savedControllers := savedControllers r |},
     [ProcessEvent event trackIndex]).

(** How the loop of [_playTo] is left. *)
Inductive LoopEnd : Type :=
  | Broke       (* [break]: the target is reached *)
  | EndOfFile   (* [nextEvent === undefined]: [this.stop(); return false] *)
  | Threw       (* a read of [undefined] throws *)
  | FuelOut.

(** [while (true)]: one iteration per unit of fuel.  With a target in
    ticks the test reads [event.ticks], which throws when [event] is
    [undefined]; with a target in seconds the test reads the time played,
    and an [undefined] event is first read by [event.messageStatusByte]
    after it.  [this.tracks[trackIndex]] of a file with no track is
    [undefined], and indexing it throws before either test. *)
Fixpoint replayLoop (fuel : nat) (time : Q) (target : option Z) (r : Replay)
  : LoopEnd * Replay * list Output :=
  match fuel with
  | O => (FuelOut, r, [])
  | S fuel' =>
      let s := sequencer r in
      let trackIndex := _findFirstEventIndex s in
      match eventAt s trackIndex with
      | None =>
          match target, nth_error (tracks s) trackIndex with
          | None, Some _ =>
              if Qle_bool time (playedTime s) then (Broke, r, [])
              else (Threw, r, [])
          | _, _ => (Threw, r, [])
          end
      | Some event =>
          if match target with
             | Some t => ticks event >=? t
             | None => Qle_bool time (playedTime s)
             end
          then (Broke, r, [])
          else
            let '(r1, out1) := replayEvent r event trackIndex in
            let s1 :=
              set_eventIndex
                (increment (eventIndex (sequencer r1)) trackIndex)
                (sequencer r1) in
            let trackIndex' := _findFirstEventIndex s1 in
            match eventAt s1 trackIndex' with
            | None =>
                (EndOfFile,
                 {| sequencer := s1; pitchBends := pitchBends r1;
                    savedControllers := savedControllers r1 |},
                 out1 ++ [Stop])
            | Some nextEvent =>
                let s2 :=
                  set_playedTime
                    (playedTime s1
                     + oneTickToSeconds (playback s1)
                       * inject_Z (ticks nextEvent - ticks event))%Q s1 in
                let '(e, r2, out2) :=
                  replayLoop fuel' time target
                    {| sequencer := s2; pitchBends := pitchBends r1;
                       savedControllers := savedControllers r1 |} in
                (e, r2, out1 ++ out2)
            end
      end
  end.

(** ** Restoring the saved controllers *)

(** [table.forEach((value, index) => { if (test) emit })]; a hole is
    skipped. *)
Fixpoint forEachController (test : nat -> Z -> bool)
    (emit : nat -> Z -> Output) (table : list (option Z)) (index : nat)
  : list Output :=
  match table with
  | [] => []
  | None :: rest => forEachController test emit rest (S index)
  | Some value :: rest =>
      (if test index value then [emit index value] else [])
      ++ forEachController test emit rest (S index)
  end.

(** [value !== defaultControllerArray[i]]; past the end of the typed array
    the right-hand side is [undefined] and the test holds. *)
Definition differsFromDefault (i : nat) (value : Z) : bool :=
  match nth_error defaultControllerArray i with
  | Some d => negb (value =? d)
  | None => true
  end.

(** One channel of the [sendMIDIMessages] branch; the test of its [forEach]
    reads [defaultControllerArray[channelNumber]].  [None] when
    [savedControllers[channelNumber]] is [undefined] (a [TypeError]). *)
Definition restoreToMIDI (r : Replay) (channelNumber : nat)
  : option (list Output) :=
  let pb :=
    match arrayGet (pitchBends r) channelNumber with
    | Some v => v
    | None => 0
    end in
  match arrayGet (savedControllers r) channelNumber with
  | Some table =>
      Some (SendMIDIMessage
              [Z.lor messageTypes.pitchBend (Z.of_nat channelNumber);
               Z.land pb 0x7F; Z.shiftr pb 7]
            :: forEachController
                 (fun _ value => differsFromDefault channelNumber value)
                 (fun index value =>
                    SendMIDIMessage
                      [Z.lor messageTypes.controllerChange
                             (Z.of_nat channelNumber);
                       Z.of_nat index; value])
                 table 0)
  | None => None
  end.

(** The sixteen channels in turn: what was sent, and whether the loop
    completed. *)
Fixpoint restoreAllToMIDI (r : Replay) (channels : list nat)
  : list Output * bool :=
  match channels with
  | [] => ([], true)
  | channelNumber :: rest =>
      match restoreToMIDI r channelNumber with
      | Some out =>
          let '(out', completed) := restoreAllToMIDI r rest in
          (out ++ out', completed)
      | None => ([], false)
      end
  end.

(** One channel of the branch that drives the synthesizer. *)
Definition restoreToSynth (r : Replay) (channelNumber : nat) : list Output :=
  match arrayGet (pitchBends r) channelNumber with
  | Some pb =>
      [SynthPitchWheel (Z.of_nat channelNumber)
         (Z.shiftr pb 7) (Z.land pb 0x7F)]
  | None => []
  end
  ++ match arrayGet (savedControllers r) channelNumber with
     | Some table =>
         forEachController differsFromDefault
           (fun index value =>
              SynthControllerChange (Z.of_nat channelNumber)
                (Z.of_nat index) value)
           table 0
     | None => []
     end.

(** ** [_playTo] and [setTimeTicks] *)

Inductive Outcome : Type :=
  | Returned (isNotFinished : bool)
  | TypeError
  | OutOfFuel.

(** The events that are left to play. *)
Fixpoint eventsLeft (trs : list (list MidiMessage)) (cursors : list nat) : nat :=
  match trs, cursors with
  | track :: trs', cursor :: cursors' =>
      (length track - cursor) + eventsLeft trs' cursors'
  | _, _ => O
  end.

Definition _playTo (s : WorkletSequencer) (time : Q) (target : option Z)
  : Outcome * WorkletSequencer * list Output :=
  let s0 :=
    set_playback
      (set_oneTickToSeconds (60 / (120 * inject_Z (timeDivision s)))%Q
         (playback s)) s in
  let out0 :=
    SynthResetAllControllers
    :: (if sendMIDIMessages s0
        then [SendMIDIMessage [messageTypes.reset]] else []) in
  let s1 := _resetTimers s0 in
  let r0 :=
    {| sequencer := s1;
       pitchBends := repeat (Some 8192) 16;
       savedControllers := repeat (Some (arrayFrom defaultControllerArray)) 16 |} in
  match replayLoop (S (eventsLeft (tracks s1) (eventIndex s1))) time target r0 with
  | (Broke, r, out) =>
      if sendMIDIMessages (sequencer r) then
        let '(batch, completed) := restoreAllToMIDI r (seq 0 16) in
        (if completed then Returned true else TypeError,
         sequencer r, out0 ++ out ++ batch)
      else
        (Returned true, sequencer r,
         out0 ++ out
         ++ flat_map (restoreToSynth r)
              (seq 0 (synthChannels (playback (sequencer r)))))
  | (EndOfFile, r, out) => (Returned false, sequencer r, out0 ++ out)
  | (Threw, r, out) => (TypeError, sequencer r, out0 ++ out)
  | (FuelOut, r, out) => (OutOfFuel, sequencer r, out0 ++ out)
  end.

(** [setTimeTicks].  [play] and the two [post]s are calls on the rest of
    the sequencer; [playingNotes] is emptied first, so [play] sends no
    note. *)
Definition setTimeTicks (s : WorkletSequencer) (target : Z)
  : Outcome * WorkletSequencer * list Output :=
  let '(outcome, s1, out) := _playTo s 0%Q (Some target) in
  match outcome with
  | Returned true =>
      (outcome, s1,
       Stop :: out
       ++ [RecalculateStartTime (playedTime s1); Play; PostTimeChange;
           PostResetRendererIndexes])
  | Returned false =>
      (outcome, s1, Stop :: out ++ [RecalculateStartTime (playedTime s1)])
  | _ => (outcome, s1, Stop :: out)
  end.

(** ** The reference: playing with the notes muted

    Following the spec's words (section 8): "the state produced by playing
    from 0 to [T] with notes muted".  The events are walked in the order of
    the sequencer, from rewound cursors, up to the first event at or after
    [T], at the tempo a file starts with; note-on and note-off are skipped and every other message goes to
    the synthesizer as it comes, a channel message on its channel plus the
    channel offset of the port of its track. *)
Definition playMutedEvent (p : Playback) (event : MidiMessage)
    (trackIndex : nat) : Playback * list Output :=
  let '(status, channel) := getEvent (messageStatusByte event) in
  if (status =? messageTypes.noteOn) || (status =? messageTypes.noteOff) then
    (p, [])
  else if status =? messageTypes.pitchBend then
    (p, [SynthPitchWheel (channel + channelOffset p trackIndex)
           (dataByte event 1) (dataByte event 0)])
  else if status =? messageTypes.controllerChange then
    (p, [SynthControllerChange (channel + channelOffset p trackIndex)
           (dataByte event 0) (dataByte event 1)])
  else
    (_processEvent p event trackIndex, [ProcessEvent event trackIndex]).

Fixpoint mutedPlayLoop (fuel : nat) (target : Z) (s : WorkletSequencer)
  : list Output :=
  match fuel with
  | O => []
  | S fuel' =>
      let trackIndex := _findFirstEventIndex s in
      match eventAt s trackIndex with
      | None => []
      | Some event =>
          if ticks event >=? target then []
          else
            let '(p, out) := playMutedEvent (playback s) event trackIndex in
            out
            ++ mutedPlayLoop fuel' target
                 (set_eventIndex (increment (eventIndex s) trackIndex)
                    (set_playback p s))
      end
  end.

Definition mutedPlay (s : WorkletSequencer) (target : Z) : list Output :=
  let s0 :=
    set_playback
      (set_oneTickToSeconds (60 / (120 * inject_Z (timeDivision s)))%Q
         (playback s)) s in
  let s1 := _resetTimers s0 in
  SynthResetAllControllers
  :: mutedPlayLoop (S (eventsLeft (tracks s1) (eventIndex s1))) target s1.

End Replay.

(** ** The receiving synthesizer

    Modelled from the spec: the synthesizer is not among the sources.
    Section 3 gives a channel [controllers[128]] and a 14-bit [pitchWheel],
    with the default controllers "main volume 100, expression 127, pan 64,
    release time 64, brightness 64, effects1Depth 40; all others 0"; section
    4.5 has a controller change write the controller and
    [resetAllControllers] restore the defaults, a pitch wheel message
    update the channel, and a system reset restore the power-on defaults;
    section 6 has the GM, GS and XG resets among the system exclusive
    messages.  No controller is locked; the centre 8192 is the pitch wheel
    after a reset.  Of what [_processEvent] hands to the synthesizer the
    resets are in this state; the rest (program changes and the like) is
    outside it. *)
Record Channel : Type := mkChannel {
  controllers : nat -> Z;
  pitchWheel  : Z
}.

Definition defaultControllers (k : nat) : Z :=
  if Nat.eqb k (Z.to_nat midiControllers.mainVolume) then 100
  else if Nat.eqb k (Z.to_nat midiControllers.expressionController) then 127
  else if Nat.eqb k (Z.to_nat midiControllers.pan) then 64
  else if Nat.eqb k (Z.to_nat midiControllers.releaseTime) then 64
  else if Nat.eqb k (Z.to_nat midiControllers.brightness) then 64
  else if Nat.eqb k (Z.to_nat midiControllers.effects1Depth) then 40
  else 0.

Definition Synth : Type := nat -> Channel.

Definition resetChannel : Channel :=
  {| controllers := defaultControllers; pitchWheel := 8192 |}.

Definition onChannel (st : Synth) (channel : nat) (f : Channel -> Channel)
  : Synth :=
  fun c => if Nat.eqb c channel then f (st c) else st c.

(** Modelled from the spec: the system messages that reset the
    synthesizer.  The system reset status byte; and, by the bytes that
    follow the status byte F0, the system exclusive messages GM system on
    (7E id 09 01), GS reset (41 id 42 12 40 00 7F 00) and XG system on
    (43 id 4C 00 00 7E 00), whatever the device id. *)
Definition isSystemReset (event : MidiMessage) : bool :=
  (messageStatusByte event =? messageTypes.reset)
  || ((messageStatusByte event =? messageTypes.systemExclusive)
      && (((dataByte event 0 =? 0x7E) && (dataByte event 2 =? 0x09)
           && (dataByte event 3 =? 0x01))
          || ((dataByte event 0 =? 0x41) && (dataByte event 2 =? 0x42)
              && (dataByte event 3 =? 0x12) && (dataByte event 4 =? 0x40)
              && (dataByte event 5 =? 0x00) && (dataByte event 6 =? 0x7F)
              && (dataByte event 7 =? 0x00))
          || ((dataByte event 0 =? 0x43) && (dataByte event 2 =? 0x4C)
              && (dataByte event 3 =? 0x00) && (dataByte event 4 =? 0x00)
              && (dataByte event 5 =? 0x7E) && (dataByte event 6 =? 0x00)))).

Definition receive (st : Synth) (o : Output) : Synth :=
  match o with
  | SynthResetAllControllers => fun _ => resetChannel
  | ProcessEvent event _ =>
      if isSystemReset event then fun _ => resetChannel else st
  | SynthControllerChange channel controllerNumber value =>
      onChannel st (Z.to_nat channel)
        (fun c =>
           if controllerNumber =? midiControllers.resetAllControllers
           then {| controllers := defaultControllers;
                   pitchWheel := pitchWheel c |}
           else {| controllers :=
                     fun k => if Nat.eqb k (Z.to_nat controllerNumber)
                              then value else controllers c k;
                   pitchWheel := pitchWheel c |})
  | SynthPitchWheel channel MSB LSB =>
      onChannel st (Z.to_nat channel)
        (fun c => {| controllers := controllers c;
                     pitchWheel := Z.lor (Z.shiftl MSB 7) LSB |})
  | _ => st
  end.

Definition receiveAll (st : Synth) (outs : list Output) : Synth :=
  fold_left receive outs st.

(** The messages that reach the synthesizer in the order of the file in
    both ways of playing: what [_processEvent] handles and the controller
    changes that are not deferred. *)
Definition inFileOrder (o : Output) : bool :=
  match o with
  | ProcessEvent _ _ => true
  | SynthControllerChange _ controllerNumber _ => isNotDeferred controllerNumber
  | _ => false
  end.

(** ** The seek against muted playing: what is compared

    One port: no track has a channel offset, and the synthesizer has its
    sixteen channels. *)
Definition singlePort (p : Playback) : Prop :=
  (forall trackIndex, channelOffset p trackIndex = 0)
  /\ (16 <= synthChannels p)%nat.

Definition isControllerChange (event : MidiMessage) : Prop :=
  fst (getEvent (messageStatusByte event)) = messageTypes.controllerChange.

(** A property of every event of the file before the target tick. *)
Definition eventsBefore (target : Z) (s : WorkletSequencer)
    (P : MidiMessage -> Prop) : Prop :=
  forall track event,
    In track (tracks s) -> In event track -> ticks event < target -> P event.

Definition validControllerNumber (event : MidiMessage) : Prop :=
  isControllerChange event -> 0 <= dataByte event 0 < 128.

Definition notAReset (event : MidiMessage) : Prop :=
  isControllerChange event ->
  dataByte event 0 <> midiControllers.resetAllControllers.

Definition notASystemReset (event : MidiMessage) : Prop :=
  isSystemReset event = false.

(** Two sequencers at the same place of the same file. *)
Definition sameCursors (a b : WorkletSequencer) : Prop :=
  tracks a = tracks b /\ eventIndex a = eventIndex b
  /\ playback a = playback b.

(** The value a saved table holds for a controller: its entry, or the
    default where the table has none. *)
Definition tableValue (table : list (option Z)) (k : nat) : Z :=
  match arrayGet table k with
  | Some v => v
  | None => defaultControllers k
  end.

Definition keepsNotDeferred (table : list (option Z)) : Prop :=
  forall k, isNotDeferred (Z.of_nat k) = true ->
            arrayGet table k = Some (defaultControllers k).

(** What holds between the replay [r], the synthesizer [S] it has driven
    so far and the synthesizer [M] of muted playing: the saved pitch bends
    are the pitch wheels of [M]; a controller that is not deferred has the
    same value in [S] and [M]; a deferred one has in [M] the value saved for
    it and in [S] still its default. *)
Definition replayInvariant (r : Replay) (S M : Synth) : Prop :=
  (forall ch, (ch < 16)%nat ->
     arrayGet (pitchBends r) ch = Some (pitchWheel (M ch)))
  /\ (forall ch, (ch < 16)%nat ->
        exists table,
          arrayGet (savedControllers r) ch = Some table
          /\ forall k, (k < 128)%nat ->
               if isNotDeferred (Z.of_nat k)
               then controllers (M ch) k = controllers (S ch) k
               else controllers (M ch) k = tableValue table k
                    /\ controllers (S ch) k = defaultControllers k)
  /\ (forall ch table,
        arrayGet (savedControllers r) ch = Some table ->
        keepsNotDeferred table).

(** ** The loop of the replay, one iteration at a time *)

(** The replay after an event: the cursor of its track moved on, and the
    time played so far. *)
Definition advance (r1 : Replay) (trackIndex : nat) (time : Q) : Replay :=
  {| sequencer :=
       set_playedTime time
         (set_eventIndex (increment (eventIndex (sequencer r1)) trackIndex)
            (sequencer r1));
     pitchBends := pitchBends r1;
     savedControllers := savedControllers r1 |}.

(** The test that ends the loop of [_playTo]. *)
Definition reached (time : Q) (target : option Z) (s : WorkletSequencer)
    (event : MidiMessage) : bool :=
  match target with
  | Some t => ticks event >=? t
  | None => Qle_bool time (playedTime s)
  end.

(** Every saved table of the sixteen channels is there. *)
Definition tablesDefined (r : Replay) : Prop :=
  forall ch, (ch < 16)%nat ->
  exists table, arrayGet (savedControllers r) ch = Some table.

(** ** The events a seek replays

    The events the loop of [_playTo] meets with a target in ticks: from the
    cursors, the event [_findFirstEventIndex] finds, then the next, up to
    the first event at or after the target. *)
Fixpoint replayedEvents (fuel : nat) (target : Z) (s : WorkletSequencer)
  : list MidiMessage :=
  match fuel with
  | O => []
  | S fuel' =>
      let trackIndex := _findFirstEventIndex s in
      match eventAt s trackIndex with
      | None => []
      | Some event =>
          if ticks event >=? target then []
          else
            event
            :: replayedEvents fuel' target
                 (set_eventIndex (increment (eventIndex s) trackIndex) s)
      end
  end.

(** From rewound cursors, with the fuel [_playTo] gives its loop. *)
Definition replayed (s : WorkletSequencer) (target : Z) : list MidiMessage :=
  let s1 := _resetTimers s in
  replayedEvents (S (eventsLeft (tracks s1) (eventIndex s1))) target s1.

Definition isPitchBendOn (channel : nat) (event : MidiMessage) : bool :=
  let '(status, ch) := getEvent (messageStatusByte event) in
  (status =? messageTypes.pitchBend) && (ch =? Z.of_nat channel).

(** The two data bytes, low then high, of the last pitch bend on a channel
    in a list of events; [bytes] when the list has none. *)
Fixpoint lastPitchBendFrom (channel : nat) (events : list MidiMessage)
    (bytes : Z * Z) : Z * Z :=
  match events with
  | [] => bytes
  | event :: rest =>
      lastPitchBendFrom channel rest
        (if isPitchBendOn channel event
         then (dataByte event 0, dataByte event 1)
         else bytes)
  end.

(** The centre, 8192, is the bytes 0 and 64. *)
Definition lastPitchBend (channel : nat) (events : list MidiMessage) : Z * Z :=
  lastPitchBendFrom channel events (0, 64).

(** The saved pitch bend of a channel is the two bytes joined. *)
Definition savedBytes (channel : nat) (r : Replay) (bytes : Z * Z) : Prop :=
  arrayGet (pitchBends r) channel
  = Some (Z.lor (Z.shiftl (snd bytes) 7) (fst bytes)).

(** ** Files for the examples *)

Definition controllerEvent (t channel controllerNumber value : Z) : MidiMessage :=
  mkMessage t (Z.lor messageTypes.controllerChange channel)
    [controllerNumber; value].

Definition pitchBendEvent (t channel LSB MSB : Z) : MidiMessage :=
  mkMessage t (Z.lor messageTypes.pitchBend channel) [LSB; MSB].

Definition endOfTrackEvent (t : Z) : MidiMessage :=
  mkMessage t messageTypes.endOfTrack [].

(** A loaded file with one port and sixteen channels. *)
Definition loaded (trs : list (list MidiMessage)) (passthrough : bool)
  : WorkletSequencer :=
  {| tracks := trs; eventIndex := repeat 0%nat (length trs);
     playedTime := 0%Q; timeDivision := 480;
     sendMIDIMessages := passthrough;
     playback :=
       {| oneTickToSeconds := 0%Q; midiPorts := [];
          midiPortChannelOffsets := fun _ => None;
          synthChannels := 16 |} |}.

(** The tables as they are when the replay starts. *)
Definition startOfReplay (s : WorkletSequencer) : Replay :=
  {| sequencer := s;
     pitchBends := repeat (Some 8192) 16;
     savedControllers := repeat (Some (arrayFrom defaultControllerArray)) 16 |}.

(** A synthesizer after a reset. *)
Definition resetSynth : Synth := fun _ => resetChannel.

(** Three files: main volume 50 and then a reset of all controllers; main
    volume 50 alone; main volume 0 alone. *)
Definition volumeThenReset : list (list MidiMessage) :=
  [[controllerEvent 0 0 7 50; controllerEvent 10 0 121 0; endOfTrackEvent 100]].

(** Main volume 50 and then the GS reset, a system exclusive message. *)
Definition volumeThenSystemReset : list (list MidiMessage) :=
  [[controllerEvent 0 0 7 50;
    mkMessage 10 messageTypes.systemExclusive
      [0x41; 0x10; 0x42; 0x12; 0x40; 0x00; 0x7F; 0x00; 0x41; 0xF7];
    endOfTrackEvent 100]].

Definition volumeOnly : list (list MidiMessage) :=
  [[controllerEvent 0 0 7 50; endOfTrackEvent 100]].

Definition volumeZero : list (list MidiMessage) :=
  [[controllerEvent 0 0 7 0; endOfTrackEvent 100]].

(** A file with a controller, a pitch bend, a data entry and a note. *)
Definition smallFile : list (list MidiMessage) :=
  [[controllerEvent 0 0 7 50; pitchBendEvent 5 3 5 70;
    controllerEvent 7 0 6 12;
    mkMessage 8 (Z.lor messageTypes.noteOn 0) [60; 100];
    endOfTrackEvent 100]].

(** Two pitch bends on channel 3. *)
Definition twoPitchBends : list (list MidiMessage) :=
  [[pitchBendEvent 0 3 5 70; pitchBendEvent 10 3 1 2; endOfTrackEvent 100]].

(** A [_processEvent] that leaves the ports and the tempo alone. *)
Definition noPortChange (p : Playback) (event : MidiMessage) (trackIndex : nat)
  : Playback := p.

(** The outputs of the replay of a seek, and of the whole seek. *)
Definition replayOutputs (s : WorkletSequencer) (target : Z) : list Output :=
  snd (_playTo noPortChange s 0%Q (Some target)).

Definition seekOutputs (s : WorkletSequencer) (target : Z) : list Output :=
  snd (setTimeTicks noPortChange s target).

End Sequencer.


(* ===================================================================== *)
(** * Facts about the volume envelope                                     *)
(* ===================================================================== *)

Import VolumeEnvelope.
Local Open Scope Q_scope.

(** ** Comparisons and the clock *)

Lemma Qltb_true (x y : Q) : Qltb x y = true <-> x < y.
Proof.
  unfold Qltb. rewrite negb_true_iff. split; intros H.
  - apply Qnot_le_lt. intros L. apply Qle_bool_iff in L. congruence.
  - destruct (Qle_bool y x) eqn:E; [|reflexivity].
    apply Qle_bool_iff in E. exfalso. apply (Qlt_not_le _ _ H E).
Qed.

Lemma Qltb_false (x y : Q) : Qltb x y = false <-> y <= x.
Proof.
  unfold Qltb. rewrite negb_false_iff. apply Qle_bool_iff.
Qed.

Lemma Qgeb_true (x y : Q) : Qgeb x y = true <-> y <= x.
Proof. unfold Qgeb. apply Qle_bool_iff. Qed.

Lemma Qgeb_false (x y : Q) : Qgeb x y = false <-> x < y.
Proof.
  unfold Qgeb. split; intros H.
  - apply Qnot_le_lt. intros L. apply Qle_bool_iff in L. congruence.
  - destruct (Qle_bool y x) eqn:E; [|reflexivity].
    apply Qle_bool_iff in E. exfalso. apply (Qlt_not_le _ _ H E).
Qed.

Lemma clockAfter_closed (n : nat) : forall t, clockAfter t n == t + inject_Z (Z.of_nat n).
Proof.
  induction n as [|n IH]; intros t.
  - cbn. ring.
  - cbn [clockAfter]. rewrite IH, Nat2Z.inj_succ. unfold Z.succ.
    rewrite inject_Z_plus. ring.
Qed.

Lemma clockAfter_S (t : Q) (n : nat) : clockAfter t (S n) = clockAfter (t + 1) n.
Proof. reflexivity. Qed.

Lemma clockAfter_snoc (n : nat) : forall t, clockAfter t (S n) = clockAfter t n + 1.
Proof.
  induction n as [|n IH]; intros t; [reflexivity|].
  change (clockAfter t (S (S n))) with (clockAfter (t + 1) (S n)).
  rewrite IH. reflexivity.
Qed.


Section EnvelopeFacts.

Variable timecentsToSeconds : Q -> Q.
Variable decibelAttenuationToGain : Q -> Q.
Variable log10 : Q -> Q.

Abbreviation recalculate := (recalculate timecentsToSeconds decibelAttenuationToGain log10).
Abbreviation startRelease := (startRelease timecentsToSeconds decibelAttenuationToGain log10).
Abbreviation apply_env := (VolumeEnvelope.apply decibelAttenuationToGain).
Abbreviation timecentsToSamples := (timecentsToSamples timecentsToSeconds).

(** ** [recalculate] *)

Lemma recalculate_fields (voice : WorkletVoice) :
  let env := volumeEnvelope voice in
  let env' := volumeEnvelope (recalculate voice) in
  attenuation env' = gen voice initialAttenuation / 10
  /\ sustainDb env' = attenuation env' + gen voice sustainVolEnv / 10
  /\ attackDuration env' = timecentsToSamples env (gen voice attackVolEnv)
  /\ delayEnd env' = timecentsToSamples env (gen voice delayVolEnv)
  /\ attackEnd env' = attackDuration env' + delayEnd env'
  /\ decayEnd env' = decayDuration env' + holdEnd env'
  /\ state env' = state env
  /\ releaseStartTimeSamples env' = releaseStartTimeSamples env.
Proof.
  unfold VolumeEnvelope.recalculate.
  destruct (isInRelease voice); cbn; repeat split; reflexivity.
Qed.

Lemma recalculate_releaseStartDb (voice : WorkletVoice) :
  isInRelease voice = true ->
  releaseStartDb (volumeEnvelope (recalculate voice))
  = releaseStartDbOf decibelAttenuationToGain log10
      (set_releaseStartDb (releaseStartDb (volumeEnvelope voice))
         (volumeEnvelope (recalculate voice))).
Proof.
  intros R. unfold VolumeEnvelope.recalculate. rewrite R. cbn.
  unfold releaseStartDbOf. cbn. reflexivity.
Qed.

(** C3. In release, [recalculate] derives [releaseStartDb] from the stage the
    envelope was in when the release started: 100 dB in the delay stage;
    [-20 * log10 (attackProgress * peakGain)] in the attack stage, where
    [attackProgress] is the fraction of the attack elapsed at the release
    start and [peakGain] the gain of the attenuation; the attenuation in the
    hold stage; the value interpolated linearly between the attenuation and
    [sustainDb] by the decay progress in the decay stage; [sustainDb] in the
    sustain stage.  [startRelease] records the release start as the current
    clock and runs the same computation. *)
Theorem recalculate_in_release_start_db (voice : WorkletVoice) :
  isInRelease voice = true ->
  let env := volumeEnvelope voice in
  let env' := volumeEnvelope (recalculate voice) in
  let t := releaseStartTimeSamples env in
  let attackProgress := 1 - (attackEnd env' - t) / attackDuration env' in
  let peakGain := decibelAttenuationToGain (attenuation env') in
  let decayProgress := 1 - (decayEnd env' - t) / decayDuration env' in
  (state env = 0%nat -> releaseStartDb env' = 100)
  /\ (state env = 1%nat ->
      releaseStartDb env' == - (20) * log10 (attackProgress * peakGain))
  /\ (state env = 2%nat -> releaseStartDb env' = attenuation env')
  /\ (state env = 3%nat ->
      releaseStartDb env'
      = decayProgress * (sustainDb env' - attenuation env') + attenuation env')
  /\ (state env = 4%nat -> releaseStartDb env' = sustainDb env')
  /\ (~ attackDuration env' == 0 ->
      attackProgress == (t - delayEnd env') / attackDuration env')
  /\ (~ decayDuration env' == 0 ->
      decayProgress == (t - holdEnd env') / decayDuration env')
  /\ releaseStartTimeSamples (volumeEnvelope (startRelease voice))
     = currentSampleTime env
  /\ releaseStartDb (volumeEnvelope (startRelease voice))
     = releaseStartDb (volumeEnvelope (recalculate
         (set_volumeEnvelope
            (set_releaseStartTimeSamples (currentSampleTime env) env) voice))).
Proof.
  intros R env env' t attackProgress peakGain decayProgress.
  assert (E : releaseStartDb env'
              = releaseStartDbOf decibelAttenuationToGain log10
                  (set_releaseStartDb (releaseStartDb env) env')).
  { apply recalculate_releaseStartDb, R. }
  destruct (recalculate_fields voice)
    as (Ha & Hs & Had & Hde & Hae & Hdce & Hst & Hrt).
  fold env env' in Ha, Hs, Had, Hde, Hae, Hdce, Hst, Hrt.
  unfold releaseStartDbOf in E. cbn in E. rewrite Hst, Hrt in E. fold t in E.
  repeat split.
  - intros S0. rewrite S0 in E. exact E.
  - intros S1. rewrite S1 in E. rewrite E.
    subst attackProgress peakGain. ring.
  - intros S2. rewrite S2 in E. exact E.
  - intros S3. rewrite S3 in E. exact E.
  - intros S4. rewrite S4 in E. exact E.
  - intros NZ. subst attackProgress. rewrite Hae. field. exact NZ.
  - intros NZ. subst decayProgress. rewrite Hdce. field. exact NZ.
  - unfold VolumeEnvelope.startRelease, VolumeEnvelope.recalculate.
    cbn. rewrite R. reflexivity.
  - unfold VolumeEnvelope.startRelease, VolumeEnvelope.recalculate.
    cbn. rewrite R. cbn. unfold releaseStartDbOf. cbn. reflexivity.
Qed.

(** The sign of a quotient is the sign of the product. *)
Lemma Qdiv_neg_iff (x y : Q) : ~ y == 0 -> (x / y < 0 <-> x * y < 0).
Proof.
  intros NZ.
  assert (E : x * y == (x / y) * (y * y)) by (field; exact NZ).
  assert (P : 0 < y * y).
  { destruct (Qlt_le_dec 0 y) as [H|H]; [nra|].
    assert (y < 0) by (apply Qle_lt_or_eq in H; destruct H; [assumption|contradiction]).
    nra. }
  rewrite E. split; intros H; nra.
Qed.

Lemma Qdiv_gt_1 (x y : Q) : 0 < y -> y < x -> 1 < x / y.
Proof.
  intros Py L. apply Qlt_shift_div_l; [exact Py|]. lra.
Qed.

(** C5 (amended). [recalculate] computes [decayDuration] as
    [timecentsToSamples (decayVolEnv + (60 - targetKey) * keyNumToVolEnvDecay)]
    times the fraction [(sustainDb - attenuation) / (100 - attenuation)], and
    the end of the hold stage with the excursion
    [(60 - targetKey) * keyNumToVolEnvHold]; [sustainDb] is the sum of the two
    generators over ten, with no clamp.  The fraction is negative exactly
    when [sustainDb - attenuation] and [100 - attenuation] have opposite
    signs: with [sustainDb > 100] that is when the attenuation is above 100
    and below [sustainDb]; with the attenuation below 100, [sustainDb > 100]
    makes the fraction greater than 1.  A negative fraction makes
    [decayDuration] negative when the unscaled time is positive. *)
Theorem recalculate_decay_duration (voice : WorkletVoice) :
  let env := volumeEnvelope voice in
  let env' := volumeEnvelope (recalculate voice) in
  let key := inject_Z (targetKey voice) in
  let fraction := (sustainDb env' - attenuation env') / (100 - attenuation env') in
  let fullTime :=
    timecentsToSamples env
      (gen voice decayVolEnv + (60 - key) * gen voice keyNumToVolEnvDecay) in
  decayDuration env' = fullTime * fraction
  /\ holdEnd env'
     = timecentsToSamples env
         (gen voice holdVolEnv + (60 - key) * gen voice keyNumToVolEnvHold)
       + attackEnd env'
  /\ sustainDb env'
     = gen voice initialAttenuation / 10 + gen voice sustainVolEnv / 10
  /\ (~ attenuation env' == 100 ->
      (fraction < 0 <->
       (sustainDb env' - attenuation env') * (100 - attenuation env') < 0))
  /\ (100 < sustainDb env' -> attenuation env' < 100 -> 1 < fraction)
  /\ (100 < sustainDb env' -> 100 < attenuation env' ->
      (fraction < 0 <-> attenuation env' < sustainDb env'))
  /\ (fraction < 0 -> 0 < fullTime -> decayDuration env' < 0).
Proof.
  intros env env' key fraction fullTime.
  assert (D : decayDuration env' = fullTime * fraction).
  { subst env' fullTime fraction env key. unfold VolumeEnvelope.recalculate.
    destruct (isInRelease voice); reflexivity. }
  split; [exact D|].
  split.
  { subst env' env key. unfold VolumeEnvelope.recalculate.
    destruct (isInRelease voice); reflexivity. }
  split.
  { subst env' env key. unfold VolumeEnvelope.recalculate.
    destruct (isInRelease voice); reflexivity. }
  split.
  { intros NZ. apply Qdiv_neg_iff. lra. }
  split.
  { intros S A. subst fraction. apply Qdiv_gt_1; lra. }
  split.
  { intros S A. subst fraction. rewrite Qdiv_neg_iff by lra.
    split; intros H; nra. }
  intros F P. rewrite D. nra.
Qed.

(** C10. [apply] sets [finished] on the release path only: on a voice that
    is not in release the flag is left as it was, whatever the envelope and
    the buffer; and on the release path with an empty buffer the tested [db]
    is still its initial 0, so the flag is left as it was. *)
Theorem apply_finished_only_in_release
    (voice : WorkletVoice) (audioBuffer : list Q)
    (centibelOffset smoothingFactor : Q) :
  (isInRelease voice = false ->
   finished (fst (apply_env voice audioBuffer centibelOffset smoothingFactor))
   = finished voice)
  /\ (isInRelease voice = true ->
      finished (fst (apply_env voice [] centibelOffset smoothingFactor))
      = finished voice).
Proof.
  split; intros R; unfold VolumeEnvelope.apply; rewrite R.
  - match goal with
    | |- context [let '(_, _) := ?m in _] => destruct m as [env1 out]
    end.
    reflexivity.
  - reflexivity.
Qed.

(** ** The release path of [apply] *)

Lemma map_clockAfter_shift (F : Q -> Q) (e : Q) (n : nat) :
  map (fun i => F (clockAfter e i)) (seq 1 n)
  = map (fun i => F (clockAfter (e + 1) i)) (seq 0 n).
Proof.
  rewrite <- seq_shift, map_map. reflexivity.
Qed.

Lemma releaseLoop_spec (rsf dd off : Q) (audioBuffer : list Q) :
  forall (env : WorkletVolumeEnvelope) (e db : Q),
  let ramp x := (x / releaseDuration env) * dd + releaseStartDb env in
  let r := releaseLoop decibelAttenuationToGain rsf dd off env e db audioBuffer in
  snd r
  = scaled audioBuffer
      (smoothed (currentReleaseGain env) rsf
         (map (fun i => decibelAttenuationToGain (ramp (clockAfter e i) + off))
              (seq 0 (length audioBuffer))))
  /\ snd (fst r)
     = match length audioBuffer with
       | O => db
       | S k => ramp (clockAfter e k)
       end
  /\ currentSampleTime (fst (fst r))
     = clockAfter (currentSampleTime env) (length audioBuffer)
  /\ releaseDuration (fst (fst r)) = releaseDuration env
  /\ releaseStartDb (fst (fst r)) = releaseStartDb env
  /\ releaseStartTimeSamples (fst (fst r)) = releaseStartTimeSamples env
  /\ state (fst (fst r)) = state env.
Proof.
  induction audioBuffer as [|x rest IH]; intros env e db ramp r.
  - subst r. cbn. repeat split; reflexivity.
  - subst r. cbn [releaseLoop].
    set (db1 := e / releaseDuration env * dd + releaseStartDb env).
    set (g := currentReleaseGain env
              + (decibelAttenuationToGain (db1 + off) - currentReleaseGain env)
                * rsf).
    set (env1 := tick (set_currentReleaseGain g env)).
    specialize (IH env1 (e + 1) db1).
    destruct (releaseLoop decibelAttenuationToGain rsf dd off env1 (e + 1) db1 rest)
      as [[env2 db2] out] eqn:E.
    cbn [fst snd] in IH |- *.
    destruct IH as (Hout & Hdb & Ht & Hrd & Hrs & Hrt & Hst).
    change (releaseDuration env1) with (releaseDuration env) in *.
    change (releaseStartDb env1) with (releaseStartDb env) in *.
    change (currentReleaseGain env1) with g in Hout.
    split; [|split; [|repeat split]].
    + cbn [length seq map smoothed]. fold db1. fold g.
      unfold scaled. cbn [combine map fst snd]. f_equal.
      rewrite Hout.
      rewrite (map_clockAfter_shift
                 (fun t => decibelAttenuationToGain (ramp t + off)) e).
      reflexivity.
    + rewrite Hdb. cbn [length]. destruct (length rest); reflexivity.
    + rewrite Ht. reflexivity.
    + exact Hrd.
    + exact Hrs.
    + exact Hrt.
    + exact Hst.
Qed.

(** C2 (amended).  A voice in release with a release duration that is not
    zero, on a block that is not empty.  The dB value of sample [i] of the
    block is the linear ramp [(elapsed / releaseDuration) * (100 -
    releaseStartDb) + releaseStartDb] at [elapsed = currentSampleTime -
    releaseStartTimeSamples + i] ([releaseStartDb] at 0, 100 at
    [releaseDuration], the same step per sample); the samples are scaled by
    the gain smoothed towards the gain of that value; and when the value
    computed for the last sample of the block is at least 96 dB the voice
    is finished after the call (otherwise the flag is left as it was).
    After the call the voice is still in release, with the same duration,
    start value and start time, and its clock has moved on by the length of
    the block: the next block goes on along the same ramp, and a finished
    voice stays finished.  The synth core removes the finished voices after
    the block: the voice is not in the voice list for the next block once
    the last value has reached 96 dB, and it is when it has not. *)
Theorem apply_release_ramp
    (voice : WorkletVoice) (x : Q) (rest next : list Q)
    (centibelOffset smoothingFactor : Q) :
  isInRelease voice = true ->
  ~ releaseDuration (volumeEnvelope voice) == 0 ->
  let env := volumeEnvelope voice in
  let audioBuffer := x :: rest in
  let elapsed := currentSampleTime env - releaseStartTimeSamples env in
  let ramp e :=
    (e / releaseDuration env) * (100 - releaseStartDb env)
    + releaseStartDb env in
  let r := apply_env voice audioBuffer centibelOffset smoothingFactor in
  let dbLast := ramp (clockAfter elapsed (length rest)) in
  let env' := volumeEnvelope (fst r) in
  let elapsed' := currentSampleTime env' - releaseStartTimeSamples env' in
  let r' := apply_env (fst r) next centibelOffset smoothingFactor in
  (ramp 0 == releaseStartDb env
   /\ ramp (releaseDuration env) == 100
   /\ (forall e, ramp (e + 1) - ramp e
                 == (100 - releaseStartDb env) / releaseDuration env)
   /\ dbLast == ramp (elapsed + inject_Z (Z.of_nat (length rest))))
  /\ snd r
     = scaled audioBuffer
         (smoothed (currentReleaseGain env) (smoothingFactor * 10)
            (map (fun i => decibelAttenuationToGain
                             (ramp (clockAfter elapsed i) + centibelOffset / 10))
                 (seq 0 (length audioBuffer))))
  /\ ((96 <= dbLast -> finished (fst r) = true)
      /\ (dbLast < 96 -> finished (fst r) = finished voice))
  /\ (isInRelease (fst r) = true
      /\ releaseDuration env' = releaseDuration env
      /\ releaseStartDb env' = releaseStartDb env
      /\ releaseStartTimeSamples env' = releaseStartTimeSamples env
      /\ elapsed' == elapsed + inject_Z (Z.of_nat (length audioBuffer)))
  /\ (snd r'
      = scaled next
          (smoothed (currentReleaseGain env') (smoothingFactor * 10)
             (map (fun i => decibelAttenuationToGain
                              (ramp (clockAfter elapsed' i)
                               + centibelOffset / 10))
                  (seq 0 (length next))))
      /\ (finished (fst r) = true -> finished (fst r') = true))
  /\ ((96 <= dbLast ->
       voicesAfterBlock decibelAttenuationToGain [voice]
         (fun _ => audioBuffer) centibelOffset smoothingFactor = [])
      /\ (dbLast < 96 -> finished voice = false ->
          voicesAfterBlock decibelAttenuationToGain [voice]
            (fun _ => audioBuffer) centibelOffset smoothingFactor = [fst r])).
Proof.
  intros R NZ env audioBuffer elapsed ramp r dbLast env' elapsed' r'.
  split.
  { split; [unfold ramp; field; exact NZ|].
    split; [unfold ramp; field; exact NZ|].
    split; [intros e; unfold ramp; field; exact NZ|].
    unfold dbLast, ramp. rewrite (clockAfter_closed (length rest) elapsed).
    reflexivity. }
  destruct (releaseLoop_spec (smoothingFactor * 10)
              (DB_SILENCE - releaseStartDb env)
              (centibelOffset / 10) audioBuffer env elapsed 0)
    as (Hout & Hdb & Ht & Hrd & Hrs & Hrt & _).
  assert (Er : r = apply_env voice audioBuffer centibelOffset smoothingFactor)
    by reflexivity.
  unfold VolumeEnvelope.apply in Er. rewrite R in Er.
  fold env in Er. fold elapsed in Er.
  destruct (releaseLoop decibelAttenuationToGain (smoothingFactor * 10)
              (DB_SILENCE - releaseStartDb env) (centibelOffset / 10)
              env elapsed 0 audioBuffer) as [[env1 db] out] eqn:E.
  cbn [fst snd] in Hout, Hdb, Ht, Hrd, Hrs, Hrt.
  assert (Edb : db = dbLast) by (rewrite Hdb; reflexivity).
  assert (Fv : fst r
               = if Qgeb db PERCEIVED_DB_SILENCE
                 then set_finished true (set_volumeEnvelope env1 voice)
                 else set_volumeEnvelope env1 voice).
  { rewrite Er. destruct (Qgeb db PERCEIVED_DB_SILENCE); reflexivity. }
  assert (Ev : env' = env1).
  { unfold env'. rewrite Fv.
    destruct (Qgeb db PERCEIVED_DB_SILENCE); reflexivity. }
  assert (Rv : isInRelease (fst r) = true).
  { rewrite Fv. destruct (Qgeb db PERCEIVED_DB_SILENCE); exact R. }
  assert (Fin : (96 <= dbLast -> finished (fst r) = true)
                /\ (dbLast < 96 -> finished (fst r) = finished voice)).
  { rewrite Fv, <- Edb. split; intros L.
    - apply (proj2 (Qgeb_true db PERCEIVED_DB_SILENCE)) in L.
      rewrite L. reflexivity.
    - apply (proj2 (Qgeb_false db PERCEIVED_DB_SILENCE)) in L.
      rewrite L. reflexivity. }
  split.
  { rewrite Er. destruct (Qgeb db PERCEIVED_DB_SILENCE); cbn [snd]; exact Hout. }
  split; [exact Fin|].
  split.
  { split; [exact Rv|]. rewrite Ev.
    split; [exact Hrd|]. split; [exact Hrs|]. split; [exact Hrt|].
    unfold elapsed'. rewrite Ev, Ht, Hrt.
    rewrite (clockAfter_closed (length audioBuffer) (currentSampleTime env)).
    unfold elapsed. ring. }
  split.
  { destruct (releaseLoop_spec (smoothingFactor * 10)
                (DB_SILENCE - releaseStartDb env')
                (centibelOffset / 10) next env' elapsed' 0)
      as (Hout' & _).
    unfold r'. unfold VolumeEnvelope.apply. rewrite Rv.
    fold env'. fold elapsed'.
    destruct (releaseLoop decibelAttenuationToGain (smoothingFactor * 10)
                (DB_SILENCE - releaseStartDb env') (centibelOffset / 10)
                env' elapsed' 0 next) as [[env2 db2] out2].
    cbn [fst snd] in Hout'.
    assert (Hrd' : releaseDuration env' = releaseDuration env)
      by (rewrite Ev; exact Hrd).
    assert (Hrs' : releaseStartDb env' = releaseStartDb env)
      by (rewrite Ev; exact Hrs).
    rewrite Hrd', Hrs' in Hout'.
    split.
    - destruct (Qgeb db2 PERCEIVED_DB_SILENCE); cbn [snd]; exact Hout'.
    - intros F. destruct (Qgeb db2 PERCEIVED_DB_SILENCE); cbn [fst];
        [reflexivity|exact F]. }
  unfold voicesAfterBlock. cbn [map filter]. fold r.
  destruct Fin as [F1 F2].
  split.
  - intros L. rewrite (F1 L). reflexivity.
  - intros L F. rewrite (F2 L), F. reflexivity.
Qed.

(** ** The stage loops of [apply] *)

Section StageLoop.

Variable cond : WorkletVolumeEnvelope -> bool * WorkletVolumeEnvelope.
Variable body : WorkletVolumeEnvelope -> WorkletVolumeEnvelope * (Q -> Q).
Variable next : WorkletVolumeEnvelope -> list Q -> WorkletVolumeEnvelope * list Q.

(** The condition fails: the stage is left, the state incremented. *)
Lemma stageLoop_exit (env : WorkletVolumeEnvelope) (todo : list Q) :
  fst (cond env) = false ->
  stageLoop cond body next env todo
  = next (set_state (S (state (snd (cond env)))) (snd (cond env))) todo.
Proof.
  intros C. destruct todo; cbn [stageLoop];
    destruct (cond env) as [c env1]; cbn [fst snd] in *; subst c; reflexivity.
Qed.

(** The condition holds for the whole block: the loop returns from inside. *)
Lemma stageLoop_stays (todo : list Q) :
  forall env, todo <> [] ->
  stageStays cond body env todo = true ->
  stageLoop cond body next env todo = stageRun cond body env todo.
Proof.
  induction todo as [|x rest IH]; intros env NE St; [congruence|].
  cbn [stageStays] in St. cbn [stageLoop stageRun].
  destruct (cond env) as [c env1]. destruct (body env1) as [env2 f].
  apply andb_true_iff in St. destruct St as [-> St].
  destruct rest as [|y rest']; [reflexivity|].
  rewrite IH by (congruence || exact St). reflexivity.
Qed.

(** The condition holds while [pre] is written: the loop goes on with what
    is left of the block. *)
Lemma stageLoop_split (pre : list Q) :
  forall env post, post <> [] ->
  stageStays cond body env pre = true ->
  stageLoop cond body next env (pre ++ post)
  = (fst (stageLoop cond body next (fst (stageRun cond body env pre)) post),
     snd (stageRun cond body env pre)
     ++ snd (stageLoop cond body next (fst (stageRun cond body env pre)) post)).
Proof.
  induction pre as [|x rest IH]; intros env post NE St.
  - cbn [stageRun app fst snd].
    destruct (stageLoop cond body next env post); reflexivity.
  - cbn [stageStays] in St.
    change ((x :: rest) ++ post) with (x :: (rest ++ post)).
    cbn [stageLoop stageRun].
    destruct (cond env) as [c env1]. destruct (body env1) as [env2 f].
    apply andb_true_iff in St. destruct St as [-> St].
    specialize (IH env2 post NE St).
    destruct (rest ++ post) as [|y l] eqn:E.
    { destruct rest; [cbn in E; congruence|discriminate]. }
    rewrite IH.
    destruct (stageRun cond body env2 rest) as [env3 out]. reflexivity.
Qed.

End StageLoop.

Lemma sustainLoop_run
    (body : WorkletVolumeEnvelope -> WorkletVolumeEnvelope * (Q -> Q))
    (todo : list Q) :
  forall env, todo <> [] ->
  sustainLoop body env todo = stageRun (fun e => (true, e)) body env todo.
Proof.
  induction todo as [|x rest IH]; intros env NE; [congruence|].
  cbn [sustainLoop stageRun]. destruct (body env) as [env2 f].
  destruct rest as [|y rest']; [reflexivity|].
  rewrite IH by congruence. reflexivity.
Qed.

(** ** Stages driven by the clock *)

Lemma sameShape_refl (a : WorkletVolumeEnvelope) : sameShape a a.
Proof. unfold sameShape. repeat split. Qed.

Lemma sameShape_trans (a b c : WorkletVolumeEnvelope) :
  sameShape a b -> sameShape b c -> sameShape a c.
Proof.
  unfold sameShape. intros H1 H2.
  repeat match goal with H : _ /\ _ |- _ => destruct H end.
  repeat split; congruence.
Qed.

Lemma sameShape_tick (a : WorkletVolumeEnvelope) : sameShape a (tick a).
Proof. unfold sameShape. repeat split. Qed.

Lemma clockAfter_add (n m : nat) : forall t, clockAfter t (n + m) = clockAfter (clockAfter t n) m.
Proof.
  induction n as [|n IH]; intros t; [reflexivity|].
  cbn [Nat.add clockAfter]. apply IH.
Qed.

Lemma clockAfter_le (t : Q) (i j : nat) : (i <= j)%nat -> clockAfter t i <= clockAfter t j.
Proof.
  intros L. rewrite !clockAfter_closed.
  assert (inject_Z (Z.of_nat i) <= inject_Z (Z.of_nat j)).
  { rewrite <- Zle_Qle. lia. }
  lra.
Qed.

Section ClockedStage.

(** A stage whose condition compares the clock with an end time and clockAfter
    the clock [c] times, and whose body clockAfter it once more. *)
Variable endOf : WorkletVolumeEnvelope -> Q.
Variable c : nat.
Variable cond : WorkletVolumeEnvelope -> bool * WorkletVolumeEnvelope.
Variable body : WorkletVolumeEnvelope -> WorkletVolumeEnvelope * (Q -> Q).

Hypothesis endOf_shape : forall a b, sameShape a b -> endOf a = endOf b.
Hypothesis cond_test :
  forall env, fst (cond env) = Qltb (currentSampleTime env) (endOf env).
Hypothesis cond_clock :
  forall env, currentSampleTime (snd (cond env)) = clockAfter (currentSampleTime env) c.
Hypothesis cond_shape : forall env, sameShape env (snd (cond env)).
Hypothesis body_clock :
  forall env, currentSampleTime (fst (body env)) = currentSampleTime env + 1.
Hypothesis body_shape : forall env, sameShape env (fst (body env)).

Lemma iteration_clock (env : WorkletVolumeEnvelope) :
  currentSampleTime (fst (body (snd (cond env))))
  = clockAfter (currentSampleTime env) (S c).
Proof using cond_clock body_clock.
  rewrite body_clock, cond_clock, clockAfter_snoc. reflexivity.
Qed.

Lemma iteration_shape (env : WorkletVolumeEnvelope) :
  sameShape env (fst (body (snd (cond env)))).
Proof using cond_shape body_shape.
  eapply sameShape_trans; [apply cond_shape|apply body_shape].
Qed.

Lemma clocked_run (todo : list Q) :
  forall env,
  currentSampleTime (fst (stageRun cond body env todo))
  = clockAfter (currentSampleTime env) (length todo * S c)
  /\ sameShape env (fst (stageRun cond body env todo)).
Proof using cond_clock cond_shape body_clock body_shape.
  induction todo as [|x rest IH]; intros env.
  - cbn. split; [reflexivity|apply sameShape_refl].
  - cbn [stageRun length].
    pose proof (iteration_clock env) as Hc.
    pose proof (iteration_shape env) as Hs.
    destruct (cond env) as [b env1]. cbn [snd] in Hc, Hs.
    destruct (body env1) as [env2 f]. cbn [fst] in Hc, Hs.
    destruct (IH env2) as [IHc IHs].
    destruct (stageRun cond body env2 rest) as [env3 out]. cbn [fst] in *.
    split.
    + rewrite IHc, Hc.
      change (S (length rest) * S c)%nat with (S c + length rest * S c)%nat.
      rewrite clockAfter_add. reflexivity.
    + eapply sameShape_trans; eassumption.
Qed.

Lemma clocked_stays (todo : list Q) :
  forall env,
  (forall i, (i < length todo)%nat ->
             clockAfter (currentSampleTime env) (i * S c) < endOf env) ->
  stageStays cond body env todo = true.
Proof using endOf_shape cond_test cond_clock cond_shape body_clock body_shape.
  induction todo as [|x rest IH]; intros env H; [reflexivity|].
  cbn [stageStays].
  pose proof (iteration_clock env) as Hc.
  pose proof (iteration_shape env) as Hs.
  pose proof (cond_test env) as Ht.
  destruct (cond env) as [b env1]. cbn [fst snd] in Hc, Hs, Ht.
  destruct (body env1) as [env2 f]. cbn [fst] in Hc, Hs.
  apply andb_true_iff. split.
  - rewrite Ht. apply Qltb_true. apply (H 0%nat). cbn. lia.
  - apply IH. intros i Hi. rewrite Hc, <- (endOf_shape _ _ Hs).
    rewrite <- clockAfter_add.
    change (S c + i * S c)%nat with (S i * S c)%nat.
    apply H. cbn. lia.
Qed.

(** The stage is left at the first test that fails. *)
Lemma clocked_leaves (env : WorkletVolumeEnvelope) :
  endOf env <= currentSampleTime env -> fst (cond env) = false.
Proof using cond_test.
  intros L. rewrite cond_test. apply Qltb_false. exact L.
Qed.

End ClockedStage.

(** ** The five stages *)

Ltac shape_facts :=
  intros;
  first
    [ reflexivity
    | apply sameShape_refl
    | solve [unfold sameShape; cbn; repeat split]
    | match goal with
      | H : sameShape _ _ |- _ =>
          unfold sameShape in H; decompose [and] H; assumption
      end ].

Section Stages.

Variable decibelOffset smoothingFactor : Q.

Abbreviation attackBody := (attackBody decibelAttenuationToGain decibelOffset).
Abbreviation holdBody :=
  (holdBody decibelAttenuationToGain decibelOffset smoothingFactor).
Abbreviation decayBody :=
  (decayBody decibelAttenuationToGain decibelOffset smoothingFactor).
Abbreviation sustainBody :=
  (sustainBody decibelAttenuationToGain decibelOffset smoothingFactor).

Lemma delay_run (todo : list Q) (env : WorkletVolumeEnvelope) :
  currentSampleTime (fst (stageRun delayCond delayBody env todo))
  = clockAfter (currentSampleTime env) (length todo)
  /\ sameShape env (fst (stageRun delayCond delayBody env todo)).
Proof.
  rewrite <- (Nat.mul_1_r (length todo)).
  apply (clocked_run 0 delayCond delayBody); shape_facts.
Qed.

Lemma attack_run (todo : list Q) (env : WorkletVolumeEnvelope) :
  currentSampleTime (fst (stageRun attackCond attackBody env todo))
  = clockAfter (currentSampleTime env) (length todo)
  /\ sameShape env (fst (stageRun attackCond attackBody env todo)).
Proof.
  rewrite <- (Nat.mul_1_r (length todo)).
  apply (clocked_run 0 attackCond attackBody); shape_facts.
Qed.

Lemma hold_run (todo : list Q) (env : WorkletVolumeEnvelope) :
  currentSampleTime (fst (stageRun holdCond holdBody env todo))
  = clockAfter (currentSampleTime env) (length todo)
  /\ sameShape env (fst (stageRun holdCond holdBody env todo)).
Proof.
  rewrite <- (Nat.mul_1_r (length todo)).
  apply (clocked_run 0 holdCond holdBody); shape_facts.
Qed.

Lemma decay_run (dd : Q) (todo : list Q) (env : WorkletVolumeEnvelope) :
  currentSampleTime (fst (stageRun decayCond (decayBody dd) env todo))
  = clockAfter (currentSampleTime env) (length todo * 2)
  /\ sameShape env (fst (stageRun decayCond (decayBody dd) env todo)).
Proof.
  apply (clocked_run 1 decayCond (decayBody dd)); shape_facts.
Qed.

Lemma sustain_run (todo : list Q) (env : WorkletVolumeEnvelope) :
  currentSampleTime (fst (stageRun (fun e => (true, e)) sustainBody env todo))
  = clockAfter (currentSampleTime env) (length todo)
  /\ sameShape env (fst (stageRun (fun e => (true, e)) sustainBody env todo)).
Proof.
  rewrite <- (Nat.mul_1_r (length todo)).
  apply (clocked_run 0 (fun e => (true, e)) sustainBody); shape_facts.
Qed.

Lemma delay_stays (todo : list Q) (env : WorkletVolumeEnvelope) :
  (forall i, (i < length todo)%nat ->
             clockAfter (currentSampleTime env) i < delayEnd env) ->
  stageStays delayCond delayBody env todo = true.
Proof.
  intros H. apply (clocked_stays delayEnd 0); try shape_facts.
  intros i Hi. rewrite Nat.mul_1_r. apply H, Hi.
Qed.

Lemma attack_stays (todo : list Q) (env : WorkletVolumeEnvelope) :
  (forall i, (i < length todo)%nat ->
             clockAfter (currentSampleTime env) i < attackEnd env) ->
  stageStays attackCond attackBody env todo = true.
Proof.
  intros H. apply (clocked_stays attackEnd 0); try shape_facts.
  intros i Hi. rewrite Nat.mul_1_r. apply H, Hi.
Qed.

Lemma hold_stays (todo : list Q) (env : WorkletVolumeEnvelope) :
  (forall i, (i < length todo)%nat ->
             clockAfter (currentSampleTime env) i < holdEnd env) ->
  stageStays holdCond holdBody env todo = true.
Proof.
  intros H. apply (clocked_stays holdEnd 0); try shape_facts.
  intros i Hi. rewrite Nat.mul_1_r. apply H, Hi.
Qed.

Lemma decay_stays (dd : Q) (todo : list Q) (env : WorkletVolumeEnvelope) :
  (forall i, (i < length todo)%nat ->
             clockAfter (currentSampleTime env) (i * 2) < decayEnd env) ->
  stageStays decayCond (decayBody dd) env todo = true.
Proof.
  intros H. apply (clocked_stays decayEnd 1); try shape_facts.
  exact H.
Qed.

(** *** What each stage writes *)

Lemma map_seq_shift {A : Type} (F : nat -> A) (n : nat) :
  map F (seq 1 n) = map (fun i => F (S i)) (seq 0 n).
Proof. rewrite <- seq_shift, map_map. reflexivity. Qed.

Lemma delay_out (todo : list Q) :
  forall env,
  snd (stageRun delayCond delayBody env todo) = map (fun _ => 0) todo
  /\ (todo <> [] ->
      currentAttenuationDb (fst (stageRun delayCond delayBody env todo))
      = DB_SILENCE).
Proof.
  induction todo as [|x rest IH]; intros env; [split; [reflexivity|congruence]|].
  cbn [stageRun delayCond delayBody].
  set (env2 := tick (set_currentAttenuationDb DB_SILENCE env)).
  destruct (IH env2) as [IHo IHa].
  destruct (stageRun delayCond delayBody env2 rest) as [env3 out] eqn:E.
  cbn [fst snd] in *. split.
  - rewrite IHo. reflexivity.
  - intros _. destruct rest as [|y rest'].
    + cbn in E. injection E as <- _. reflexivity.
    + apply IHa. congruence.
Qed.

(** The factor of sample [i] of an attack that starts at clock [t]. *)
Lemma attack_out (todo : list Q) :
  forall env,
  snd (stageRun attackCond attackBody env todo)
  = scaled todo
      (map (fun i =>
              (1 - (attackEnd env - clockAfter (currentSampleTime env) i)
                   / attackDuration env)
              * decibelAttenuationToGain (attenuation env + decibelOffset))
           (seq 0 (length todo))).
Proof.
  induction todo as [|x rest IH]; intros env; [reflexivity|].
  cbn [stageRun attackCond VolumeEnvelope.attackBody].
  set (env2 := tick (set_currentAttenuationDb (attenuation env) env)).
  specialize (IH env2).
  destruct (stageRun attackCond attackBody env2 rest) as [env3 out].
  cbn [fst snd] in *. rewrite IH.
  cbn [length seq map]. rewrite map_seq_shift.
  unfold scaled. cbn [combine map fst snd]. reflexivity.
Qed.

Lemma hold_out (todo : list Q) :
  forall env,
  snd (stageRun holdCond holdBody env todo)
  = scaled todo
      (map decibelAttenuationToGain
         (smoothed (currentAttenuationDb env) smoothingFactor
            (repeat (attenuation env + decibelOffset) (length todo)))).
Proof.
  induction todo as [|x rest IH]; intros env; [reflexivity|].
  cbn [stageRun holdCond VolumeEnvelope.holdBody getInterpolatedGain].
  match goal with
  | |- context [stageRun _ _ ?e rest] => set (env2 := e)
  end.
  specialize (IH env2).
  destruct (stageRun holdCond holdBody env2 rest) as [env3 out].
  cbn [fst snd] in *. rewrite IH.
  cbn [length repeat smoothed map].
  unfold scaled. cbn [combine map fst snd]. reflexivity.
Qed.

Lemma sustain_out (todo : list Q) :
  forall env,
  snd (stageRun (fun e => (true, e)) sustainBody env todo)
  = scaled todo
      (map decibelAttenuationToGain
         (smoothed (currentAttenuationDb env) smoothingFactor
            (repeat (sustainDb env + decibelOffset) (length todo)))).
Proof.
  induction todo as [|x rest IH]; intros env; [reflexivity|].
  cbn [stageRun VolumeEnvelope.sustainBody getInterpolatedGain].
  match goal with
  | |- context [stageRun _ _ ?e rest] => set (env2 := e)
  end.
  specialize (IH env2).
  destruct (stageRun (fun e => (true, e)) sustainBody env2 rest) as [env3 out].
  cbn [fst snd] in *. rewrite IH.
  cbn [length repeat smoothed map].
  unfold scaled. cbn [combine map fst snd]. reflexivity.
Qed.

(** The attenuation the decay stage aims at when the clock reads [clock]. *)
Lemma decay_out (dd : Q) (todo : list Q) :
  forall env,
  snd (stageRun decayCond (decayBody dd) env todo)
  = scaled todo
      (map decibelAttenuationToGain
         (smoothed (currentAttenuationDb env) smoothingFactor
            (map (fun i =>
                    (1 - (decayEnd env
                          - clockAfter (currentSampleTime env) (S (i * 2)))
                         / decayDuration env) * dd
                    + attenuation env + decibelOffset)
                 (seq 0 (length todo))))).
Proof.
  induction todo as [|x rest IH]; intros env; [reflexivity|].
  cbn [stageRun decayCond VolumeEnvelope.decayBody getInterpolatedGain].
  match goal with
  | |- context [stageRun _ _ ?e rest] => set (env2 := e)
  end.
  specialize (IH env2).
  destruct (stageRun decayCond (decayBody dd) env2 rest) as [env3 out].
  cbn [fst snd] in *. rewrite IH.
  cbn [length seq map]. rewrite map_seq_shift.
  cbn [smoothed map]. unfold scaled. cbn [combine map fst snd]. reflexivity.
Qed.

(** *** A block, one sample at a time

    After the first sample of a block the loops are where a call on the
    rest of the block would start: the state is the stage being written, and
    nothing else is carried from one iteration to the next. *)

Abbreviation switchStage :=
  (switchStage decibelAttenuationToGain decibelOffset smoothingFactor).
Abbreviation sustainStage :=
  (sustainStage decibelAttenuationToGain decibelOffset smoothingFactor).
Abbreviation decayStage :=
  (decayStage decibelAttenuationToGain decibelOffset smoothingFactor).
Abbreviation holdStage :=
  (holdStage decibelAttenuationToGain decibelOffset smoothingFactor).
Abbreviation attackStage :=
  (attackStage decibelAttenuationToGain decibelOffset smoothingFactor).

Section HeadAndRest.

Variable cond : WorkletVolumeEnvelope -> bool * WorkletVolumeEnvelope.
Variable body : WorkletVolumeEnvelope -> WorkletVolumeEnvelope * (Q -> Q).
Variable next : WorkletVolumeEnvelope -> list Q -> WorkletVolumeEnvelope * list Q.
Variable k : nat.
Variable same : WorkletVolumeEnvelope -> Prop.

Hypothesis cond_state : forall env, state (snd (cond env)) = state env.
Hypothesis iteration_state :
  forall env, state (fst (body (snd (cond env)))) = state env.
Hypothesis iteration_same :
  forall env, same env -> same (fst (body (snd (cond env)))).
Hypothesis switch_here :
  forall env buf, state env = k -> same env ->
    switchStage env buf = stageLoop cond body next env buf.
Hypothesis next_splits :
  forall env x y rest, state env = S k ->
    next env (x :: y :: rest)
    = (fst (switchStage (fst (next env [x])) (y :: rest)),
       snd (next env [x]) ++ snd (switchStage (fst (next env [x])) (y :: rest))).

Lemma stageLoop_two (env : WorkletVolumeEnvelope) (x y : Q) (rest : list Q) :
  stageLoop cond body next env (x :: y :: rest)
  = let '(c, env1) := cond env in
    if c then
      let '(env2, f) := body env1 in
      let '(env3, out) := stageLoop cond body next env2 (y :: rest) in
      (env3, f x :: out)
    else next (set_state (S (state env1)) env1) (x :: y :: rest).
Proof using Type. reflexivity. Qed.

Lemma stageLoop_one (env : WorkletVolumeEnvelope) (x : Q) :
  stageLoop cond body next env [x]
  = let '(c, env1) := cond env in
    if c then let '(env2, f) := body env1 in (env2, [f x])
    else next (set_state (S (state env1)) env1) [x].
Proof using Type. reflexivity. Qed.

Lemma stageLoop_head (env : WorkletVolumeEnvelope) (x y : Q) (rest : list Q) :
  state env = k -> same env ->
  stageLoop cond body next env (x :: y :: rest)
  = (fst (switchStage (fst (stageLoop cond body next env [x])) (y :: rest)),
     snd (stageLoop cond body next env [x])
     ++ snd (switchStage (fst (stageLoop cond body next env [x])) (y :: rest))).
Proof using cond_state iteration_state iteration_same switch_here next_splits.
  intros Hk Hs. rewrite stageLoop_two, stageLoop_one.
  pose proof (cond_state env) as Cs.
  pose proof (iteration_state env) as Is.
  pose proof (iteration_same env Hs) as Im.
  destruct (cond env) as [c env1]. cbn [snd] in Cs, Is, Im.
  destruct c.
  - destruct (body env1) as [env2 f]. cbn [fst snd] in Is, Im |- *.
    rewrite switch_here by (congruence || assumption).
    destruct (stageLoop cond body next env2 (y :: rest)). reflexivity.
  - apply next_splits. cbn. congruence.
Qed.

End HeadAndRest.

Lemma sustainStage_head (env : WorkletVolumeEnvelope) (x y : Q) (rest : list Q) :
  state env = 4%nat ->
  sustainStage env (x :: y :: rest)
  = (fst (switchStage (fst (sustainStage env [x])) (y :: rest)),
     snd (sustainStage env [x])
     ++ snd (switchStage (fst (sustainStage env [x])) (y :: rest))).
Proof using Type.
  intros H4. unfold VolumeEnvelope.sustainStage.
  change (sustainLoop sustainBody env (x :: y :: rest))
    with (let '(env2, f) := sustainBody env in
          let '(env3, out) := sustainLoop sustainBody env2 (y :: rest) in
          (env3, f x :: out)).
  change (sustainLoop sustainBody env [x])
    with (let '(env2, f) := sustainBody env in (env2, [f x])).
  assert (Hs : state (fst (sustainBody env)) = 4%nat) by exact H4.
  destruct (sustainBody env) as [env2 f]. cbn [fst snd] in Hs |- *.
  unfold VolumeEnvelope.switchStage. rewrite Hs.
  unfold VolumeEnvelope.sustainStage.
  destruct (sustainLoop sustainBody env2 (y :: rest)). reflexivity.
Qed.

Lemma decayStage_head (env : WorkletVolumeEnvelope) (x y : Q) (rest : list Q) :
  state env = 3%nat ->
  decayStage env (x :: y :: rest)
  = (fst (switchStage (fst (decayStage env [x])) (y :: rest)),
     snd (decayStage env [x])
     ++ snd (switchStage (fst (decayStage env [x])) (y :: rest))).
Proof using Type.
  intros H3. unfold VolumeEnvelope.decayStage.
  apply (stageLoop_head decayCond _ _ 3
           (fun e => sustainDb e - attenuation e
                     = sustainDb env - attenuation env)).
  - reflexivity.
  - reflexivity.
  - intros e He. exact He.
  - intros e buf He Hd. unfold VolumeEnvelope.switchStage. rewrite He.
    unfold VolumeEnvelope.decayStage. rewrite Hd. reflexivity.
  - intros e x0 y0 rest0 He. apply sustainStage_head, He.
  - exact H3.
  - reflexivity.
Qed.

Lemma holdStage_head (env : WorkletVolumeEnvelope) (x y : Q) (rest : list Q) :
  state env = 2%nat ->
  holdStage env (x :: y :: rest)
  = (fst (switchStage (fst (holdStage env [x])) (y :: rest)),
     snd (holdStage env [x])
     ++ snd (switchStage (fst (holdStage env [x])) (y :: rest))).
Proof using Type.
  intros H2. unfold VolumeEnvelope.holdStage.
  apply (stageLoop_head holdCond _ _ 2 (fun _ => True)); try reflexivity;
    try (intros; exact I); try exact H2.
  - intros e buf He _. unfold VolumeEnvelope.switchStage. rewrite He.
    reflexivity.
  - intros e x0 y0 rest0 He. apply decayStage_head, He.
Qed.

Lemma attackStage_head (env : WorkletVolumeEnvelope) (x y : Q) (rest : list Q) :
  state env = 1%nat ->
  attackStage env (x :: y :: rest)
  = (fst (switchStage (fst (attackStage env [x])) (y :: rest)),
     snd (attackStage env [x])
     ++ snd (switchStage (fst (attackStage env [x])) (y :: rest))).
Proof using Type.
  intros H1. unfold VolumeEnvelope.attackStage.
  apply (stageLoop_head attackCond _ _ 1 (fun _ => True)); try reflexivity;
    try (intros; exact I); try exact H1.
  - intros e buf He _. unfold VolumeEnvelope.switchStage. rewrite He.
    reflexivity.
  - intros e x0 y0 rest0 He. apply holdStage_head, He.
Qed.

Lemma switchStage_head (env : WorkletVolumeEnvelope) (x y : Q) (rest : list Q) :
  switchStage env (x :: y :: rest)
  = (fst (switchStage (fst (switchStage env [x])) (y :: rest)),
     snd (switchStage env [x])
     ++ snd (switchStage (fst (switchStage env [x])) (y :: rest))).
Proof using Type.
  assert (E : forall buf,
            switchStage env buf
            = match state env with
              | 0%nat => delayStage decibelAttenuationToGain decibelOffset
                           smoothingFactor env buf
              | 1%nat => attackStage env buf
              | 2%nat => holdStage env buf
              | 3%nat => decayStage env buf
              | 4%nat => sustainStage env buf
              | _ => (env, buf)
              end) by reflexivity.
  rewrite !E.
  destruct (state env) as [|[|[|[|[|n]]]]] eqn:Hs.
  - unfold delayStage.
    apply (stageLoop_head delayCond _ _ 0 (fun _ => True)); try reflexivity;
      try (intros; exact I); try exact Hs.
    + intros e buf He _. unfold VolumeEnvelope.switchStage. rewrite He.
      reflexivity.
    + intros e x0 y0 rest0 He. apply attackStage_head, He.
  - apply attackStage_head, Hs.
  - apply holdStage_head, Hs.
  - apply decayStage_head, Hs.
  - apply sustainStage_head, Hs.
  - cbn [fst snd]. unfold VolumeEnvelope.switchStage. rewrite Hs. reflexivity.
Qed.

(** The test of a stage fails at once: the call starts in the next stage. *)
Lemma switchStage_falls_through
    (env : WorkletVolumeEnvelope) (audioBuffer : list Q) :
  (state env = 0%nat -> delayEnd env <= currentSampleTime env ->
   switchStage env audioBuffer = switchStage (set_state 1 env) audioBuffer)
  /\ (state env = 1%nat -> attackEnd env <= currentSampleTime env ->
      switchStage env audioBuffer = switchStage (set_state 2 env) audioBuffer)
  /\ (state env = 2%nat -> holdEnd env <= currentSampleTime env ->
      switchStage env audioBuffer = switchStage (set_state 3 env) audioBuffer)
  /\ (state env = 3%nat -> decayEnd env <= currentSampleTime env ->
      switchStage env audioBuffer
      = switchStage (set_state 4 (tick env)) audioBuffer).
Proof.
  unfold VolumeEnvelope.switchStage.
  split; [|split; [|split]]; intros Hs L; rewrite Hs; cbn [state set_state].
  - unfold delayStage. rewrite stageLoop_exit.
    + cbn [delayCond snd]. rewrite Hs. reflexivity.
    + apply Qltb_false, L.
  - unfold VolumeEnvelope.attackStage. rewrite stageLoop_exit.
    + cbn [attackCond snd]. rewrite Hs. reflexivity.
    + apply Qltb_false, L.
  - unfold VolumeEnvelope.holdStage. rewrite stageLoop_exit.
    + cbn [holdCond snd]. rewrite Hs. reflexivity.
    + apply Qltb_false, L.
  - unfold VolumeEnvelope.decayStage. rewrite stageLoop_exit.
    + cbn [decayCond snd]. change (state (tick env)) with (state env).
      rewrite Hs. reflexivity.
    + apply Qltb_false, L.
Qed.

End Stages.

(** ** [apply] on a voice that is not in release *)

Lemma within_block (t E : Q) (m : nat) :
  t + inject_Z (Z.of_nat m) < E ->
  forall i, (i < S m)%nat -> clockAfter t i < E.
Proof.
  intros H i Hi. apply Qle_lt_trans with (clockAfter t m).
  - apply clockAfter_le. lia.
  - rewrite clockAfter_closed. exact H.
Qed.

Lemma within_block_twice (t E : Q) (m : nat) :
  t + 2 * inject_Z (Z.of_nat m) < E ->
  forall i, (i < S m)%nat -> clockAfter t (i * 2) < E.
Proof.
  intros H i Hi. apply Qle_lt_trans with (clockAfter t (m * 2)).
  - apply clockAfter_le. lia.
  - rewrite clockAfter_closed, Nat2Z.inj_mul, inject_Z_mult.
    change (inject_Z (Z.of_nat 2)) with 2. lra.
Qed.

Lemma apply_not_in_release
    (voice : WorkletVoice) (audioBuffer : list Q)
    (centibelOffset smoothingFactor : Q) :
  isInRelease voice = false ->
  let env := volumeEnvelope voice in
  let off := centibelOffset / 10 in
  let r :=
    match state env with
    | 0%nat => delayStage decibelAttenuationToGain off smoothingFactor env audioBuffer
    | 1%nat => attackStage decibelAttenuationToGain off smoothingFactor env audioBuffer
    | 2%nat => holdStage decibelAttenuationToGain off smoothingFactor env audioBuffer
    | 3%nat => decayStage decibelAttenuationToGain off smoothingFactor env audioBuffer
    | 4%nat => sustainStage decibelAttenuationToGain off smoothingFactor env audioBuffer
    | _ => (env, audioBuffer)
    end in
  apply_env voice audioBuffer centibelOffset smoothingFactor
  = (set_volumeEnvelope (fst r) voice, snd r).
Proof.
  intros R env off r. unfold VolumeEnvelope.apply, switchStage. rewrite R.
  fold env. fold off. fold r. destruct r. reflexivity.
Qed.

Lemma apply_switchStage
    (voice : WorkletVoice) (audioBuffer : list Q)
    (centibelOffset smoothingFactor : Q) :
  isInRelease voice = false ->
  apply_env voice audioBuffer centibelOffset smoothingFactor
  = (set_volumeEnvelope
       (fst (switchStage decibelAttenuationToGain (centibelOffset / 10)
               smoothingFactor (volumeEnvelope voice) audioBuffer)) voice,
     snd (switchStage decibelAttenuationToGain (centibelOffset / 10)
            smoothingFactor (volumeEnvelope voice) audioBuffer)).
Proof.
  intros R. unfold VolumeEnvelope.apply. rewrite R.
  destruct (switchStage decibelAttenuationToGain (centibelOffset / 10)
              smoothingFactor (volumeEnvelope voice) audioBuffer).
  reflexivity.
Qed.

(** C4 (amended).  A voice that is not in release.  A block is rendered as
    its first sample followed by the rest of the block, and a stage whose
    end the clock has reached is left for the next one; so every sample is
    written inside a stage, as follows for a block inside one stage.
    Attack: sample [i] is scaled by the factor
    [1 - (attackEnd - clock) / attackDuration] at its clock, times the gain
    of the attenuation plus the offset [centibelOffset / 10]; the factor is
    0 at the start of the attack, 1 at its end and grows by the same amount
    at every tick.  Hold: the smoothed attenuation aims at the attenuation
    plus the offset.  Decay: it aims at the value that goes linearly, in dB,
    from the attenuation at the end of the hold to [sustainDb] at the end
    of the decay, plus the offset.  Sustain: it aims at [sustainDb] plus
    the offset. *)
Theorem apply_stage_gains
    (voice : WorkletVoice) (x : Q) (rest : list Q)
    (centibelOffset smoothingFactor : Q) :
  isInRelease voice = false ->
  let env := volumeEnvelope voice in
  let audioBuffer := x :: rest in
  let n := length audioBuffer in
  let t := currentSampleTime env in
  let last := inject_Z (Z.of_nat (length rest)) in
  let off := centibelOffset / 10 in
  let render v buf := apply_env v buf centibelOffset smoothingFactor in
  let out := snd (render voice audioBuffer) in
  let attackFactor clock := 1 - (attackEnd env - clock) / attackDuration env in
  let decayTarget clock :=
    (1 - (decayEnd env - clock) / decayDuration env)
    * (sustainDb env - attenuation env) + attenuation env in
  let smoothedGains targets :=
    map decibelAttenuationToGain
      (smoothed (currentAttenuationDb env) smoothingFactor targets) in
  (state env = 1%nat -> t + last < attackEnd env ->
   out = scaled audioBuffer
           (map (fun i => attackFactor (clockAfter t i)
                          * decibelAttenuationToGain (attenuation env + off))
                (seq 0 n)))
  /\ (~ attackDuration env == 0 ->
      attackEnd env == attackDuration env + delayEnd env ->
      attackFactor (delayEnd env) == 0
      /\ attackFactor (attackEnd env) == 1
      /\ forall clock, attackFactor (clock + 1) - attackFactor clock
                       == 1 / attackDuration env)
  /\ (state env = 2%nat -> t + last < holdEnd env ->
      out = scaled audioBuffer
              (smoothedGains (repeat (attenuation env + off) n)))
  /\ (state env = 3%nat -> t + 2 * last < decayEnd env ->
      out = scaled audioBuffer
              (smoothedGains
                 (map (fun i => decayTarget (clockAfter t (S (i * 2))) + off)
                      (seq 0 n))))
  /\ (~ decayDuration env == 0 ->
      decayEnd env == decayDuration env + holdEnd env ->
      decayTarget (holdEnd env) == attenuation env
      /\ decayTarget (decayEnd env) == sustainDb env
      /\ forall clock, decayTarget (clock + 1) - decayTarget clock
                       == (sustainDb env - attenuation env) / decayDuration env)
  /\ (state env = 4%nat ->
      out = scaled audioBuffer
              (smoothedGains (repeat (sustainDb env + off) n)))
  /\ (rest <> [] ->
      render voice audioBuffer
      = (fst (render (fst (render voice [x])) rest),
         snd (render voice [x]) ++ snd (render (fst (render voice [x])) rest)))
  /\ (state env = 0%nat -> delayEnd env <= t ->
      render voice audioBuffer
      = render (set_volumeEnvelope (set_state 1 env) voice) audioBuffer)
  /\ (state env = 1%nat -> attackEnd env <= t ->
      render voice audioBuffer
      = render (set_volumeEnvelope (set_state 2 env) voice) audioBuffer)
  /\ (state env = 2%nat -> holdEnd env <= t ->
      render voice audioBuffer
      = render (set_volumeEnvelope (set_state 3 env) voice) audioBuffer)
  /\ (state env = 3%nat -> decayEnd env <= t ->
      render voice audioBuffer
      = render (set_volumeEnvelope (set_state 4 (tick env)) voice) audioBuffer).
Proof.
  intros R env audioBuffer n t last off render out attackFactor decayTarget
    smoothedGains.
  assert (NE : audioBuffer <> []) by discriminate.
  pose proof (apply_not_in_release voice audioBuffer centibelOffset
                smoothingFactor R) as A.
  cbv zeta in A. fold env off in A.
  destruct (switchStage_falls_through off smoothingFactor env audioBuffer)
    as (F0 & F1 & F2 & F3).
  assert (FT : forall env',
            switchStage decibelAttenuationToGain off smoothingFactor env
              audioBuffer
            = switchStage decibelAttenuationToGain off smoothingFactor env'
                audioBuffer ->
            render voice audioBuffer
            = render (set_volumeEnvelope env' voice) audioBuffer).
  { intros env' E. unfold render.
    rewrite !apply_switchStage by exact R.
    cbn [volumeEnvelope set_volumeEnvelope]. fold env off. rewrite E.
    reflexivity. }
  split; [|split; [|split; [|split; [|split; [|split; [|split;
    [|split; [|split; [|split]]]]]]]]].
  - intros S1 L. subst out. unfold render. rewrite A, S1. cbn [snd].
    unfold attackStage. rewrite stageLoop_stays; [|exact NE|].
    + apply attack_out.
    + apply attack_stays. apply within_block. exact L.
  - intros NZ E. unfold attackFactor. repeat split.
    + rewrite E. field. exact NZ.
    + field. exact NZ.
    + intros clock. field. exact NZ.
  - intros S2 L. subst out. unfold render. rewrite A, S2. cbn [snd].
    unfold holdStage. rewrite stageLoop_stays; [|exact NE|].
    + apply hold_out.
    + apply hold_stays. apply within_block. exact L.
  - intros S3 L. subst out. unfold render. rewrite A, S3. cbn [snd].
    unfold decayStage. rewrite stageLoop_stays; [|exact NE|].
    + apply decay_out.
    + apply decay_stays. apply within_block_twice. exact L.
  - intros NZ E. unfold decayTarget. repeat split.
    + rewrite E. field. exact NZ.
    + field. exact NZ.
    + intros clock. field. exact NZ.
  - intros S4. subst out. unfold render. rewrite A, S4. cbn [snd].
    unfold sustainStage. rewrite sustainLoop_run by exact NE.
    apply sustain_out.
  - intros NR. destruct rest as [|y rest']; [congruence|].
    unfold render, audioBuffer.
    rewrite (apply_switchStage voice (x :: y :: rest')) by exact R.
    rewrite (apply_switchStage voice [x]) by exact R.
    cbn [fst snd]. rewrite apply_switchStage by exact R.
    cbn [volumeEnvelope set_volumeEnvelope fst snd].
    rewrite switchStage_head. reflexivity.
  - intros S0 L. apply FT, F0; assumption.
  - intros S1 L. apply FT, F1; assumption.
  - intros S2 L. apply FT, F2; assumption.
  - intros S3 L. apply FT, F3; assumption.
Qed.

(** The decay loop writes [pre], fails its next test and falls into the
    sustain loop, which writes [post]. *)
Lemma decayStage_completes
    (off sf : Q) (env : WorkletVolumeEnvelope) (pre post : list Q) :
  post <> [] ->
  (forall i, (i < length pre)%nat ->
             clockAfter (currentSampleTime env) (i * 2) < decayEnd env) ->
  decayEnd env <= clockAfter (currentSampleTime env) (length pre * 2) ->
  let r := decayStage decibelAttenuationToGain off sf env (pre ++ post) in
  state (fst r) = S (state env)
  /\ currentSampleTime (fst r)
     = clockAfter (clockAfter (currentSampleTime env) (length pre * 2) + 1) (length post).
Proof.
  intros NE St Ex r. subst r. unfold decayStage.
  set (dd := sustainDb env - attenuation env).
  rewrite stageLoop_split; [|exact NE|apply decay_stays, St].
  destruct (decay_run off sf dd pre env) as [Hc Hs].
  set (env1 := fst (stageRun decayCond
                      (decayBody decibelAttenuationToGain off sf dd) env pre)) in *.
  cbn [fst].
  rewrite stageLoop_exit.
  2:{ apply (clocked_leaves decayEnd); [reflexivity|].
      rewrite Hc. unfold sameShape in Hs. decompose [and] Hs.
      match goal with H : decayEnd env = _ |- _ => rewrite <- H end.
      exact Ex. }
  cbn [decayCond snd]. unfold sustainStage.
  rewrite sustainLoop_run by exact NE.
  match goal with
  | |- context [stageRun _ _ ?e post] =>
      destruct (sustain_run off sf post e) as [Hc2 Hs2]
  end.
  split.
  - unfold sameShape in Hs, Hs2. decompose [and] Hs. decompose [and] Hs2.
    match goal with H : state (set_state _ _) = _ |- _ => rewrite <- H end.
    cbn. f_equal. symmetry. assumption.
  - rewrite Hc2. cbn. rewrite Hc. reflexivity.
Qed.

(** C9. A block of [n] samples of a voice that is not in release.  Rendered
    inside the delay, attack, hold or sustain stage, it advances the clock by
    [n]; rendered inside the decay stage, by [2 n]: the loop condition and
    the loop body each increment the clock.  A decay entered at clock [t] is
    over after the [k] samples with [t + 2 (k - 1) < decayEnd <= t + 2 k],
    about half of what is left of the decay on the clock; the test that ends
    it increments the clock once more, and the rest of the block is
    sustain. *)
Theorem apply_clock_advance
    (voice : WorkletVoice) (x : Q) (rest : list Q)
    (centibelOffset smoothingFactor : Q) :
  isInRelease voice = false ->
  let env := volumeEnvelope voice in
  let audioBuffer := x :: rest in
  let n := inject_Z (Z.of_nat (length audioBuffer)) in
  let t := currentSampleTime env in
  let last := inject_Z (Z.of_nat (length rest)) in
  let env' :=
    volumeEnvelope
      (fst (apply_env voice audioBuffer centibelOffset smoothingFactor)) in
  (state env = 0%nat -> t + last < delayEnd env ->
   currentSampleTime env' == t + n /\ state env' = 0%nat)
  /\ (state env = 1%nat -> t + last < attackEnd env ->
      currentSampleTime env' == t + n /\ state env' = 1%nat)
  /\ (state env = 2%nat -> t + last < holdEnd env ->
      currentSampleTime env' == t + n /\ state env' = 2%nat)
  /\ (state env = 3%nat -> t + 2 * last < decayEnd env ->
      currentSampleTime env' == t + 2 * n /\ state env' = 3%nat)
  /\ (state env = 4%nat ->
      currentSampleTime env' == t + n /\ state env' = 4%nat)
  /\ (forall k : nat,
        state env = 3%nat -> (k <= length rest)%nat ->
        (forall i, (i < k)%nat -> t + 2 * inject_Z (Z.of_nat i) < decayEnd env) ->
        decayEnd env <= t + 2 * inject_Z (Z.of_nat k) ->
        state env' = 4%nat
        /\ currentSampleTime env'
           == t + 2 * inject_Z (Z.of_nat k) + 1 + (n - inject_Z (Z.of_nat k))).
Proof.
  intros R env audioBuffer n t last env'.
  assert (NE : audioBuffer <> []) by discriminate.
  pose proof (apply_not_in_release voice audioBuffer centibelOffset
                smoothingFactor R) as A.
  cbv zeta in A. fold env in A.
  assert (En : n == last + 1).
  { unfold n, last, audioBuffer. cbn [length].
    rewrite Nat2Z.inj_succ. unfold Z.succ. rewrite inject_Z_plus. reflexivity. }
  set (off := centibelOffset / 10) in *.
  split; [|split; [|split; [|split; [|split]]]].
  - intros S0 L. subst env'. rewrite A, S0. cbn [fst volumeEnvelope set_volumeEnvelope].
    unfold delayStage. rewrite stageLoop_stays;
      [|exact NE|apply delay_stays, within_block, L].
    destruct (delay_run audioBuffer env) as [Hc Hs]. split.
    + rewrite Hc, clockAfter_closed. reflexivity.
    + unfold sameShape in Hs. decompose [and] Hs. congruence.
  - intros S1 L. subst env'. rewrite A, S1. cbn [fst volumeEnvelope set_volumeEnvelope].
    unfold attackStage. rewrite stageLoop_stays;
      [|exact NE|apply attack_stays, within_block, L].
    destruct (attack_run off audioBuffer env) as [Hc Hs]. split.
    + rewrite Hc, clockAfter_closed. reflexivity.
    + unfold sameShape in Hs. decompose [and] Hs. congruence.
  - intros S2 L. subst env'. rewrite A, S2. cbn [fst volumeEnvelope set_volumeEnvelope].
    unfold holdStage. rewrite stageLoop_stays;
      [|exact NE|apply hold_stays, within_block, L].
    destruct (hold_run off smoothingFactor audioBuffer env) as [Hc Hs]. split.
    + rewrite Hc, clockAfter_closed. reflexivity.
    + unfold sameShape in Hs. decompose [and] Hs. congruence.
  - intros S3 L. subst env'. rewrite A, S3. cbn [fst volumeEnvelope set_volumeEnvelope].
    unfold decayStage. rewrite stageLoop_stays;
      [|exact NE|apply decay_stays, within_block_twice, L].
    destruct (decay_run off smoothingFactor
                (sustainDb env - attenuation env) audioBuffer env) as [Hc Hs].
    split.
    + rewrite Hc, clockAfter_closed, Nat2Z.inj_mul, inject_Z_mult.
      change (inject_Z (Z.of_nat 2)) with 2. unfold n, t. ring.
    + unfold sameShape in Hs. decompose [and] Hs. congruence.
  - intros S4. subst env'. rewrite A, S4. cbn [fst volumeEnvelope set_volumeEnvelope].
    unfold sustainStage. rewrite sustainLoop_run by exact NE.
    destruct (sustain_run off smoothingFactor audioBuffer env) as [Hc Hs]. split.
    + rewrite Hc, clockAfter_closed. reflexivity.
    + unfold sameShape in Hs. decompose [and] Hs. congruence.
  - intros k S3 Hk St Ex. subst env'. rewrite A, S3.
    cbn [fst volumeEnvelope set_volumeEnvelope].
    assert (Len : length (firstn k audioBuffer) = k).
    { apply firstn_length_le. unfold audioBuffer. cbn [length]. lia. }
    assert (NE2 : skipn k audioBuffer <> []).
    { intros E. apply (f_equal (@length Q)) in E.
      rewrite length_skipn in E. unfold audioBuffer in E. cbn [length] in E. lia. }
    assert (Lpost : (length (skipn k audioBuffer) + k = length audioBuffer)%nat).
    { rewrite length_skipn. unfold audioBuffer. cbn [length]. lia. }
    rewrite <- (firstn_skipn k audioBuffer).
    destruct (decayStage_completes off smoothingFactor env
                (firstn k audioBuffer) (skipn k audioBuffer) NE2) as [Hs Hc].
    + rewrite Len. intros i Hi. rewrite clockAfter_closed, Nat2Z.inj_mul, inject_Z_mult.
      change (inject_Z (Z.of_nat 2)) with 2.
      specialize (St i Hi). fold t. lra.
    + rewrite Len, clockAfter_closed, Nat2Z.inj_mul, inject_Z_mult.
      change (inject_Z (Z.of_nat 2)) with 2. fold t. lra.
    + split; [rewrite Hs, S3; reflexivity|].
      rewrite Hc, Len, !clockAfter_closed, Nat2Z.inj_mul, inject_Z_mult.
      change (inject_Z (Z.of_nat 2)) with 2. fold t.
      assert (E : inject_Z (Z.of_nat (length (skipn k audioBuffer)))
                  == n - inject_Z (Z.of_nat k)).
      { unfold n. rewrite <- Lpost, Nat2Z.inj_add, inject_Z_plus. ring. }
      rewrite E. unfold t. ring.
Qed.

End EnvelopeFacts.

(** ** What [apply] and [recalculate] keep *)

Lemma sameParameters_refl (a : WorkletVolumeEnvelope) : sameParameters a a.
Proof. unfold sameParameters, sameShape. cbn. repeat split. Qed.

Lemma sameParameters_trans (a b c : WorkletVolumeEnvelope) :
  sameParameters a b -> sameParameters b c -> sameParameters a c.
Proof.
  unfold sameParameters, sameShape. cbn. intros H1 H2.
  repeat match goal with H : _ /\ _ |- _ => destruct H end.
  repeat split; congruence.
Qed.

Lemma sameShape_sameParameters (a b : WorkletVolumeEnvelope) :
  sameShape a b -> sameParameters a b.
Proof.
  unfold sameParameters, sameShape. cbn. intros H.
  repeat match goal with H : _ /\ _ |- _ => destruct H end.
  repeat split; congruence.
Qed.

Lemma sameParameters_set_state (k : nat) (a : WorkletVolumeEnvelope) :
  sameParameters a (set_state k a).
Proof. unfold sameParameters, sameShape. cbn. repeat split. Qed.

Lemma blockIterations_short (todo : list Q) :
  (length todo <= 1)%nat -> blockIterations todo = 1.
Proof.
  intros L. unfold blockIterations.
  replace (Nat.max 1 (length todo)) with 1%nat by lia. reflexivity.
Qed.

Lemma blockIterations_cons (x y : Q) (rest : list Q) :
  blockIterations (x :: y :: rest) == blockIterations (y :: rest) + 1.
Proof.
  unfold blockIterations. cbn [length].
  replace (Nat.max 1 (S (S (length rest)))) with (S (Nat.max 1 (S (length rest))))
    by lia.
  rewrite Nat2Z.inj_succ. unfold Z.succ. rewrite inject_Z_plus. reflexivity.
Qed.

Section StageInvariant.

Variable cond : WorkletVolumeEnvelope -> bool * WorkletVolumeEnvelope.
Variable body : WorkletVolumeEnvelope -> WorkletVolumeEnvelope * (Q -> Q).
Variable next : WorkletVolumeEnvelope -> list Q -> WorkletVolumeEnvelope * list Q.
Variable c : Q.
Variable k : nat.

Hypothesis c_range : 0 <= c <= 1.
Hypothesis k_stage : (k < 4)%nat.
Hypothesis cond_clock :
  forall env, currentSampleTime (snd (cond env)) == currentSampleTime env + c.
Hypothesis cond_shape : forall env, sameShape env (snd (cond env)).
Hypothesis body_clock :
  forall env, currentSampleTime (fst (body env)) = currentSampleTime env + 1.
Hypothesis body_shape : forall env, sameShape env (fst (body env)).
Hypothesis next_invariant :
  forall env todo, state env = S k -> stageInvariant c env todo (next env todo).

Lemma stageLoop_invariant (todo : list Q) :
  forall env, state env = k ->
  stageInvariant 0 env todo (stageLoop cond body next env todo).
Proof using c_range k_stage cond_clock cond_shape body_clock body_shape
  next_invariant.
  assert (Step : forall env,
            state env = k ->
            let env2 := fst (body (snd (cond env))) in
            state env2 = k
            /\ currentSampleTime env2 == currentSampleTime env + c + 1
            /\ sameParameters env env2).
  { intros env Hk env2. subst env2.
    pose proof (cond_shape env) as S1.
    pose proof (body_shape (snd (cond env))) as S2.
    pose proof (sameShape_trans _ _ _ S1 S2) as S3.
    split; [|split].
    - unfold sameShape in S3. decompose [and] S3. congruence.
    - rewrite body_clock, cond_clock. reflexivity.
    - apply sameShape_sameParameters, S3. }
  assert (Exit : forall env todo',
            state env = k ->
            stageInvariant 0 env todo'
              (next (set_state (S (state (snd (cond env)))) (snd (cond env)))
                 todo')).
  { intros env todo' Hk.
    pose proof (cond_shape env) as S1.
    pose proof (cond_clock env) as C1.
    set (env1 := snd (cond env)) in *.
    assert (Hk1 : state env1 = k).
    { unfold sameShape in S1. decompose [and] S1. congruence. }
    destruct (next_invariant (set_state (S (state env1)) env1) todo')
      as (Hst & Hlo & Hhi & Hp & Hlen).
    { cbn. rewrite Hk1. reflexivity. }
    cbn [state set_state currentSampleTime] in Hst, Hlo, Hhi.
    change (currentSampleTime (set_state (S (state env1)) env1))
      with (currentSampleTime env1) in Hlo, Hhi.
    unfold stageInvariant. split; [|split; [|split; [|split]]].
    - lia.
    - lra.
    - lra.
    - eapply sameParameters_trans; [|exact Hp].
      eapply sameParameters_trans;
        [apply sameShape_sameParameters, S1|apply sameParameters_set_state].
    - exact Hlen. }
  induction todo as [|x rest IH]; intros env Hk.
  - cbn [stageLoop].
    pose proof (Step env Hk) as St. pose proof (Exit env [] Hk) as Ex.
    destruct (cond env) as [b env1]. cbn [snd] in St, Ex.
    destruct b; [|exact Ex].
    destruct (body env1) as [env2 f]. cbn [fst] in St.
    destruct St as (Hs & Hc & Hp).
    unfold stageInvariant. cbn [fst snd].
    rewrite blockIterations_short by (cbn; lia).
    split; [lia|]. split; [lra|]. split; [lra|]. split; [exact Hp|reflexivity].
  - pose proof (Step env Hk) as St.
    pose proof (Exit env (x :: rest) Hk) as Ex.
    cbn [stageLoop].
    destruct (cond env) as [b env1]. cbn [snd] in St, Ex.
    destruct b; [|exact Ex].
    destruct (body env1) as [env2 f]. cbn [fst] in St.
    destruct St as (Hs & Hc & Hp).
    destruct rest as [|y rest'].
    + unfold stageInvariant. cbn [fst snd].
      rewrite blockIterations_short by (cbn; lia).
      split; [lia|]. split; [lra|]. split; [lra|]. split; [exact Hp|reflexivity].
    + specialize (IH env2 Hs).
      destruct (stageLoop cond body next env2 (y :: rest')) as [env3 out].
      destruct IH as (Hst & Hlo & Hhi & Hp' & Hlen). cbn [fst snd] in *.
      unfold stageInvariant. cbn [fst snd].
      rewrite blockIterations_cons.
      split; [lia|]. split; [lra|]. split; [lra|].
      split; [eapply sameParameters_trans; eassumption|].
      cbn [length]. rewrite Hlen. reflexivity.
Qed.

End StageInvariant.

Ltac stage_facts :=
  intros;
  first
    [ reflexivity
    | apply sameShape_refl
    | solve [unfold sameShape; cbn; repeat split]
    | solve [split; lra]
    | lia
    | solve [cbn; ring] ].

Section EnvelopeInvariants.

Variable decibelAttenuationToGain : Q -> Q.
Variable decibelOffset smoothingFactor : Q.

Abbreviation apply_env := (VolumeEnvelope.apply decibelAttenuationToGain).
Abbreviation switchStage :=
  (switchStage decibelAttenuationToGain decibelOffset smoothingFactor).
Abbreviation sustainStage :=
  (sustainStage decibelAttenuationToGain decibelOffset smoothingFactor).
Abbreviation decayStage :=
  (decayStage decibelAttenuationToGain decibelOffset smoothingFactor).
Abbreviation holdStage :=
  (holdStage decibelAttenuationToGain decibelOffset smoothingFactor).
Abbreviation attackStage :=
  (attackStage decibelAttenuationToGain decibelOffset smoothingFactor).
Abbreviation delayStage :=
  (delayStage decibelAttenuationToGain decibelOffset smoothingFactor).
Abbreviation sustainBody :=
  (sustainBody decibelAttenuationToGain decibelOffset smoothingFactor).

Lemma sustainStage_invariant (todo : list Q) :
  forall env, state env = 4%nat ->
  stageInvariant 1 env todo (sustainStage env todo).
Proof.
  unfold VolumeEnvelope.sustainStage.
  induction todo as [|x rest IH]; intros env H4.
  - change (sustainLoop sustainBody env [])
      with (let '(env2, f) := sustainBody env in (env2, @nil Q)).
    assert (St : state (fst (sustainBody env)) = 4%nat
                 /\ currentSampleTime (fst (sustainBody env))
                    == currentSampleTime env + 1
                 /\ sameParameters env (fst (sustainBody env))).
    { split; [exact H4|]. split; [reflexivity|].
      unfold sameParameters, sameShape. cbn. repeat split. }
    destruct (sustainBody env) as [env2 f]. cbn [fst] in St.
    destruct St as (Hs & Hc & Hp).
    unfold stageInvariant. cbn [fst snd].
    rewrite blockIterations_short by (cbn; lia).
    split; [lia|]. split; [lra|]. split; [lra|]. split; [exact Hp|reflexivity].
  - change (sustainLoop sustainBody env (x :: rest))
      with (let '(env2, f) := sustainBody env in
            match rest with
            | [] => (env2, [f x])
            | _ :: _ =>
                let '(env3, out) := sustainLoop sustainBody env2 rest in
                (env3, f x :: out)
            end).
    assert (St : state (fst (sustainBody env)) = 4%nat
                 /\ currentSampleTime (fst (sustainBody env))
                    == currentSampleTime env + 1
                 /\ sameParameters env (fst (sustainBody env))).
    { split; [exact H4|]. split; [reflexivity|].
      unfold sameParameters, sameShape. cbn. repeat split. }
    destruct (sustainBody env) as [env2 f]. cbn [fst] in St.
    destruct St as (Hs & Hc & Hp).
    destruct rest as [|y rest'].
    + unfold stageInvariant. cbn [fst snd].
      rewrite blockIterations_short by (cbn; lia).
      split; [lia|]. split; [lra|]. split; [lra|]. split; [exact Hp|reflexivity].
    + specialize (IH env2 Hs).
      destruct (sustainLoop sustainBody env2 (y :: rest')) as [env3 out].
      destruct IH as (Hst & Hlo & Hhi & Hp' & Hlen). cbn [fst snd] in *.
      unfold stageInvariant. cbn [fst snd].
      rewrite blockIterations_cons.
      split; [lia|]. split; [lra|]. split; [lra|].
      split; [eapply sameParameters_trans; eassumption|].
      cbn [length]. rewrite Hlen. reflexivity.
Qed.

Lemma stageInvariant_slack (env : WorkletVolumeEnvelope) (todo : list Q)
    (r : WorkletVolumeEnvelope * list Q) :
  stageInvariant 1 env todo r -> stageInvariant 0 env todo r.
Proof.
  unfold stageInvariant. intros (H1 & H2 & H3 & H4 & H5).
  split; [exact H1|]. split; [exact H2|]. split; [lra|].
  split; [exact H4|exact H5].
Qed.

Lemma decayStage_invariant (todo : list Q) (env : WorkletVolumeEnvelope) :
  state env = 3%nat -> stageInvariant 0 env todo (decayStage env todo).
Proof.
  intros H3. unfold VolumeEnvelope.decayStage.
  apply (stageLoop_invariant decayCond _ _ 1 3); try stage_facts.
  - intros e t He. apply sustainStage_invariant, He.
Qed.

Lemma holdStage_invariant (todo : list Q) (env : WorkletVolumeEnvelope) :
  state env = 2%nat -> stageInvariant 0 env todo (holdStage env todo).
Proof.
  intros H2. unfold VolumeEnvelope.holdStage.
  apply (stageLoop_invariant holdCond _ _ 0 2); try stage_facts.
  - intros e t He. apply decayStage_invariant, He.
Qed.

Lemma attackStage_invariant (todo : list Q) (env : WorkletVolumeEnvelope) :
  state env = 1%nat -> stageInvariant 0 env todo (attackStage env todo).
Proof.
  intros H1. unfold VolumeEnvelope.attackStage.
  apply (stageLoop_invariant attackCond _ _ 0 1); try stage_facts.
  - intros e t He. apply holdStage_invariant, He.
Qed.

Lemma delayStage_invariant (todo : list Q) (env : WorkletVolumeEnvelope) :
  state env = 0%nat -> stageInvariant 0 env todo (delayStage env todo).
Proof.
  intros H0. unfold VolumeEnvelope.delayStage.
  apply (stageLoop_invariant delayCond _ _ 0 0); try stage_facts.
  - intros e t He. apply attackStage_invariant, He.
Qed.

Lemma switchStage_invariant (todo : list Q) (env : WorkletVolumeEnvelope) :
  (state env <= 4)%nat -> stageInvariant 0 env todo (switchStage env todo).
Proof.
  intros L. unfold VolumeEnvelope.switchStage.
  destruct (state env) as [|[|[|[|[|n]]]]] eqn:Hs; [| | | | |lia].
  - apply delayStage_invariant, Hs.
  - apply attackStage_invariant, Hs.
  - apply holdStage_invariant, Hs.
  - apply decayStage_invariant, Hs.
  - apply stageInvariant_slack, sustainStage_invariant, Hs.
Qed.

End EnvelopeInvariants.

Section ApplyFacts.

Variable timecentsToSeconds : Q -> Q.
Variable decibelAttenuationToGain : Q -> Q.
Variable log10 : Q -> Q.

Abbreviation recalculate := (recalculate timecentsToSeconds decibelAttenuationToGain log10).
Abbreviation startRelease := (startRelease timecentsToSeconds decibelAttenuationToGain log10).
Abbreviation apply_env := (VolumeEnvelope.apply decibelAttenuationToGain).
Abbreviation timecentsToSamples := (timecentsToSamples timecentsToSeconds).

(** The release loop writes the clock and the release gain, nothing else. *)
Lemma releaseLoop_frame (rsf dd off : Q) (audioBuffer : list Q) :
  forall (env : WorkletVolumeEnvelope) (e db : Q),
  let env' :=
    fst (fst (releaseLoop decibelAttenuationToGain rsf dd off env e db
                audioBuffer)) in
  env' = set_currentReleaseGain (currentReleaseGain env')
           (set_currentSampleTime (currentSampleTime env') env).
Proof using Type.
  induction audioBuffer as [|x rest IH]; intros env e db.
  - cbn. destruct env; reflexivity.
  - cbn [releaseLoop].
    match goal with
    | |- context [releaseLoop _ _ _ _ ?e1 ?e' ?d rest] =>
        specialize (IH e1 e' d);
        destruct (releaseLoop decibelAttenuationToGain rsf dd off e1 e' d rest)
          as [[env2 db2] out]
    end.
    cbn [fst snd] in *. rewrite IH at 1. reflexivity.
Qed.

Lemma apply_in_release
    (voice : WorkletVoice) (audioBuffer : list Q)
    (centibelOffset smoothingFactor : Q) :
  isInRelease voice = true ->
  let env := volumeEnvelope voice in
  let r :=
    releaseLoop decibelAttenuationToGain (smoothingFactor * 10)
      (DB_SILENCE - releaseStartDb env) (centibelOffset / 10) env
      (currentSampleTime env - releaseStartTimeSamples env) 0 audioBuffer in
  volumeEnvelope (fst (apply_env voice audioBuffer centibelOffset smoothingFactor))
  = fst (fst r)
  /\ snd (apply_env voice audioBuffer centibelOffset smoothingFactor) = snd r
  /\ finished (fst (apply_env voice audioBuffer centibelOffset smoothingFactor))
     = (if Qgeb (snd (fst r)) PERCEIVED_DB_SILENCE then true else finished voice).
Proof using Type.
  intros R env r. unfold VolumeEnvelope.apply. rewrite R. fold env. fold r.
  destruct r as [[env1 db] out]. cbn [fst snd].
  destruct (Qgeb db PERCEIVED_DB_SILENCE); repeat split.
Qed.

(** X1. [apply] moves the envelope through its stages forwards only: the
    state after a call is at least the state before; it is at most 4
    (sustain) when the state before was; and a voice in release keeps its
    state. *)
Theorem apply_stage_only_advances
    (voice : WorkletVoice) (audioBuffer : list Q)
    (centibelOffset smoothingFactor : Q) :
  let env := volumeEnvelope voice in
  let env' :=
    volumeEnvelope
      (fst (apply_env voice audioBuffer centibelOffset smoothingFactor)) in
  (state env <= state env')%nat
  /\ (state env' <= Nat.max (state env) 4)%nat
  /\ (isInRelease voice = true -> state env' = state env).
Proof using Type.
  intros env env'.
  destruct (isInRelease voice) eqn:R.
  - destruct (apply_in_release voice audioBuffer centibelOffset smoothingFactor R)
      as (He & _).
    cbv zeta in He. fold env env' in He.
    destruct (releaseLoop_spec decibelAttenuationToGain (smoothingFactor * 10)
                (DB_SILENCE - releaseStartDb env) (centibelOffset / 10)
                audioBuffer env
                (currentSampleTime env - releaseStartTimeSamples env) 0)
      as (_ & _ & _ & _ & _ & _ & Hst).
    rewrite <- He in Hst. rewrite Hst. repeat split; lia.
  - subst env'. rewrite (apply_switchStage _ voice) by exact R.
    cbn [fst volumeEnvelope set_volumeEnvelope]. fold env.
    destruct (le_gt_dec (state env) 4) as [L|G].
    + destruct (switchStage_invariant decibelAttenuationToGain
                  (centibelOffset / 10) smoothingFactor audioBuffer env L)
        as (Hst & _).
      split; [lia|]. split; [lia|discriminate].
    + unfold switchStage.
      destruct (state env) as [|[|[|[|[|n]]]]] eqn:Hs; try lia.
      cbn [fst]. rewrite Hs. split; [lia|]. split; [lia|discriminate].
Qed.

(** X2. The clock of the envelope.  Outside release, on a voice in one of
    the five stages, a call advances [currentSampleTime] by at least one and
    at most two per iteration, where the iterations are one per sample and
    one for an empty block (the loops test for the end of the block after
    their body): by at least [max 1 n] and at most [2 * max 1 n] for a block
    of [n] samples.  In release the clock advances by exactly [n], and not at
    all on an empty block. *)
Theorem apply_clock_bounds
    (voice : WorkletVoice) (audioBuffer : list Q)
    (centibelOffset smoothingFactor : Q) :
  let t := currentSampleTime (volumeEnvelope voice) in
  let t' :=
    currentSampleTime
      (volumeEnvelope
         (fst (apply_env voice audioBuffer centibelOffset smoothingFactor))) in
  let n := length audioBuffer in
  let iterations := inject_Z (Z.of_nat (Nat.max 1 n)) in
  (isInRelease voice = false -> (state (volumeEnvelope voice) <= 4)%nat ->
   t + iterations <= t' /\ t' <= t + 2 * iterations)
  /\ (isInRelease voice = true -> t' == t + inject_Z (Z.of_nat n)).
Proof using Type.
  intros t t' n iterations. split.
  - intros R L. subst t'. rewrite (apply_switchStage _ voice) by exact R.
    cbn [fst volumeEnvelope set_volumeEnvelope].
    destruct (switchStage_invariant decibelAttenuationToGain
                (centibelOffset / 10) smoothingFactor audioBuffer _ L)
      as (_ & Hlo & Hhi & _).
    unfold blockIterations in Hlo, Hhi. fold n iterations t in Hlo, Hhi.
    split; [exact Hlo|lra].
  - intros R.
    destruct (apply_in_release voice audioBuffer centibelOffset smoothingFactor R)
      as (He & _).
    cbv zeta in He. subst t'. rewrite He.
    match goal with
    | |- context [releaseLoop _ ?a ?b ?c ?d ?e ?f _] =>
        destruct (releaseLoop_spec decibelAttenuationToGain a b c audioBuffer
                    d e f) as (_ & _ & Hc & _)
    end.
    rewrite Hc. apply clockAfter_closed.
Qed.

(** X3. What [apply] never writes: the generators, the key and the release
    flag of the voice; outside release, any field of the envelope other than
    the clock, the smoothed attenuation and the state; in release, any field
    of the envelope other than the clock and [currentReleaseGain]. *)
Theorem apply_keeps_parameters
    (voice : WorkletVoice) (audioBuffer : list Q)
    (centibelOffset smoothingFactor : Q) :
  let voice' := fst (apply_env voice audioBuffer centibelOffset smoothingFactor) in
  let env := volumeEnvelope voice in
  let env' := volumeEnvelope voice' in
  modulatedGenerators voice' = modulatedGenerators voice
  /\ targetKey voice' = targetKey voice
  /\ isInRelease voice' = isInRelease voice
  /\ (isInRelease voice = false -> sameParameters env env')
  /\ (isInRelease voice = true ->
      env' = set_currentReleaseGain (currentReleaseGain env')
               (set_currentSampleTime (currentSampleTime env') env)).
Proof using Type.
  intros voice' env env'.
  assert (V : modulatedGenerators voice' = modulatedGenerators voice
              /\ targetKey voice' = targetKey voice
              /\ isInRelease voice' = isInRelease voice).
  { subst voice'. unfold VolumeEnvelope.apply.
    destruct (isInRelease voice) eqn:R.
    - match goal with
      | |- context [releaseLoop ?a ?b ?c ?d ?e ?f ?g ?h] =>
          destruct (releaseLoop a b c d e f g h) as [[env1 db] out]
      end.
      destruct (Qgeb db PERCEIVED_DB_SILENCE); cbn; rewrite R; repeat split.
    - match goal with
      | |- context [let '(_, _) := ?m in _] => destruct m as [env1 out]
      end.
      cbn. rewrite R. repeat split. }
  destruct V as (V1 & V2 & V3).
  split; [exact V1|]. split; [exact V2|]. split; [exact V3|]. split.
  - intros R. subst env' voice'. rewrite (apply_switchStage _ voice) by exact R.
    cbn [fst volumeEnvelope set_volumeEnvelope]. fold env.
    destruct (le_gt_dec (state env) 4) as [L|G].
    + destruct (switchStage_invariant decibelAttenuationToGain
                  (centibelOffset / 10) smoothingFactor audioBuffer env L)
        as (_ & _ & _ & Hp & _).
      exact Hp.
    + unfold switchStage.
      destruct (state env) as [|[|[|[|[|n]]]]] eqn:Hs; try lia.
      cbn [fst]. apply sameParameters_refl.
  - intros R.
    destruct (apply_in_release voice audioBuffer centibelOffset smoothingFactor R)
      as (He & _).
    cbv zeta in He. fold voice' env env' in He. rewrite He.
    apply releaseLoop_frame.
Qed.

(** X4. [apply] never clears [finished]: a voice that is finished stays
    finished after a call, in release or not, whatever the block. *)
Theorem apply_finished_is_kept
    (voice : WorkletVoice) (audioBuffer : list Q)
    (centibelOffset smoothingFactor : Q) :
  finished voice = true ->
  finished (fst (apply_env voice audioBuffer centibelOffset smoothingFactor))
  = true.
Proof using Type.
  intros F. unfold VolumeEnvelope.apply.
  destruct (isInRelease voice).
  - match goal with
    | |- context [releaseLoop ?a ?b ?c ?d ?e ?f ?g ?h] =>
        destruct (releaseLoop a b c d e f g h) as [[env1 db] out]
    end.
    destruct (Qgeb db PERCEIVED_DB_SILENCE); cbn; [reflexivity|exact F].
  - match goal with
    | |- context [let '(_, _) := ?m in _] => destruct m as [env1 out]
    end.
    exact F.
Qed.

(** ** What a stage leaves in the smoothed attenuation *)

Lemma attack_attenuation (off : Q) (todo : list Q) :
  forall env, todo <> [] ->
  currentAttenuationDb
    (fst (stageRun attackCond (attackBody decibelAttenuationToGain off) env todo))
  = attenuation env.
Proof using Type.
  induction todo as [|x rest IH]; intros env NE; [congruence|].
  cbn [stageRun attackCond VolumeEnvelope.attackBody].
  set (env2 := tick (set_currentAttenuationDb (attenuation env) env)).
  specialize (IH env2).
  destruct (stageRun attackCond (attackBody decibelAttenuationToGain off) env2 rest)
    as [env3 out] eqn:E.
  cbn [fst]. destruct rest as [|y rest'].
  - cbn in E. injection E as <- _. reflexivity.
  - cbn [fst] in IH. rewrite IH by congruence. reflexivity.
Qed.

Lemma Qpower_succ_nat (q : Q) (n : nat) :
  q ^ Z.of_nat (S n) == q * q ^ Z.of_nat n.
Proof.
  rewrite Nat2Z.inj_succ. unfold Z.succ.
  rewrite Qpower_plus' by lia. rewrite Qpower_1_r. ring.
Qed.

Lemma hold_attenuation (off sf : Q) (todo : list Q) :
  forall env,
  let target := attenuation env + off in
  currentAttenuationDb
    (fst (stageRun holdCond (holdBody decibelAttenuationToGain off sf) env todo))
  - target
  == (currentAttenuationDb env - target) * (1 - sf) ^ Z.of_nat (length todo).
Proof using Type.
  induction todo as [|x rest IH]; intros env target.
  - cbn [stageRun fst length]. change (Z.of_nat 0) with 0%Z.
    change ((1 - sf) ^ 0) with 1. ring.
  - cbn [stageRun holdCond VolumeEnvelope.holdBody getInterpolatedGain].
    match goal with
    | |- context [stageRun _ _ ?e rest] => set (env2 := e)
    end.
    specialize (IH env2). cbv zeta in IH.
    destruct (stageRun holdCond (holdBody decibelAttenuationToGain off sf) env2 rest)
      as [env3 out].
    cbn [fst] in *. change (attenuation env2) with (attenuation env) in IH.
    fold target in IH. rewrite IH.
    change (currentAttenuationDb env2)
      with (currentAttenuationDb env
            + (attenuation env + off - currentAttenuationDb env) * sf).
    cbn [length]. rewrite Qpower_succ_nat. unfold target. ring.
Qed.

Lemma sustain_attenuation (off sf : Q) (todo : list Q) :
  forall env,
  let target := sustainDb env + off in
  currentAttenuationDb
    (fst (stageRun (fun e => (true, e))
            (sustainBody decibelAttenuationToGain off sf) env todo))
  - target
  == (currentAttenuationDb env - target) * (1 - sf) ^ Z.of_nat (length todo).
Proof using Type.
  induction todo as [|x rest IH]; intros env target.
  - cbn [stageRun fst length]. change (Z.of_nat 0) with 0%Z.
    change ((1 - sf) ^ 0) with 1. ring.
  - cbn [stageRun VolumeEnvelope.sustainBody getInterpolatedGain].
    match goal with
    | |- context [stageRun _ _ ?e rest] => set (env2 := e)
    end.
    specialize (IH env2). cbv zeta in IH.
    destruct (stageRun (fun e => (true, e))
                (sustainBody decibelAttenuationToGain off sf) env2 rest)
      as [env3 out].
    cbn [fst] in *. change (sustainDb env2) with (sustainDb env) in IH.
    fold target in IH. rewrite IH.
    change (currentAttenuationDb env2)
      with (currentAttenuationDb env
            + (sustainDb env + off - currentAttenuationDb env) * sf).
    cbn [length]. rewrite Qpower_succ_nat. unfold target. ring.
Qed.

(** X5. A block rendered inside the delay stage (a voice that is not in
    release, in state 0, whose clock stays below [delayEnd] for every sample
    of the block) is overwritten with zeros, whatever it held, and
    [currentAttenuationDb] is left at 100 dB. *)
Theorem apply_delay_is_silent
    (voice : WorkletVoice) (x : Q) (rest : list Q)
    (centibelOffset smoothingFactor : Q) :
  isInRelease voice = false ->
  let env := volumeEnvelope voice in
  let audioBuffer := x :: rest in
  let r := apply_env voice audioBuffer centibelOffset smoothingFactor in
  state env = 0%nat ->
  currentSampleTime env + inject_Z (Z.of_nat (length rest)) < delayEnd env ->
  snd r = map (fun _ => 0) audioBuffer
  /\ currentAttenuationDb (volumeEnvelope (fst r)) = DB_SILENCE.
Proof using Type.
  intros R env audioBuffer r S0 L.
  assert (NE : audioBuffer <> []) by discriminate.
  pose proof (apply_not_in_release decibelAttenuationToGain voice audioBuffer
                centibelOffset smoothingFactor R) as A.
  cbv zeta in A. fold env in A. rewrite S0 in A.
  subst r. rewrite A. cbn [fst snd volumeEnvelope set_volumeEnvelope].
  unfold delayStage.
  rewrite stageLoop_stays; [|exact NE|apply delay_stays, within_block, L].
  destruct (delay_out audioBuffer env) as [Ho Ha].
  split; [exact Ho|apply Ha, NE].
Qed.

(** X6. A block rendered inside the attack stage leaves
    [currentAttenuationDb] at the attenuation of the voice, without the
    offset [centibelOffset / 10] and whatever it was before: the hold stage
    starts its smoothing from the peak. *)
Theorem apply_attack_pins_attenuation
    (voice : WorkletVoice) (x : Q) (rest : list Q)
    (centibelOffset smoothingFactor : Q) :
  isInRelease voice = false ->
  let env := volumeEnvelope voice in
  let audioBuffer := x :: rest in
  let r := apply_env voice audioBuffer centibelOffset smoothingFactor in
  state env = 1%nat ->
  currentSampleTime env + inject_Z (Z.of_nat (length rest)) < attackEnd env ->
  currentAttenuationDb (volumeEnvelope (fst r)) = attenuation env.
Proof using Type.
  intros R env audioBuffer r S1 L.
  assert (NE : audioBuffer <> []) by discriminate.
  pose proof (apply_not_in_release decibelAttenuationToGain voice audioBuffer
                centibelOffset smoothingFactor R) as A.
  cbv zeta in A. fold env in A. rewrite S1 in A.
  subst r. rewrite A. cbn [fst snd volumeEnvelope set_volumeEnvelope].
  unfold attackStage.
  rewrite stageLoop_stays; [|exact NE|apply attack_stays, within_block, L].
  apply attack_attenuation, NE.
Qed.

(** X7. In the hold and sustain stages the smoothed attenuation approaches
    its target geometrically: after a block of [n] samples its distance to
    the target ([attenuation + centibelOffset / 10] in hold,
    [sustainDb + centibelOffset / 10] in sustain) is the distance before the
    block times [(1 - smoothingFactor) ^ n]. *)
Theorem apply_smoothing_converges
    (voice : WorkletVoice) (x : Q) (rest : list Q)
    (centibelOffset smoothingFactor : Q) :
  isInRelease voice = false ->
  let env := volumeEnvelope voice in
  let audioBuffer := x :: rest in
  let n := Z.of_nat (length audioBuffer) in
  let off := centibelOffset / 10 in
  let env' :=
    volumeEnvelope
      (fst (apply_env voice audioBuffer centibelOffset smoothingFactor)) in
  (state env = 2%nat ->
   currentSampleTime env + inject_Z (Z.of_nat (length rest)) < holdEnd env ->
   currentAttenuationDb env' - (attenuation env + off)
   == (currentAttenuationDb env - (attenuation env + off))
      * (1 - smoothingFactor) ^ n)
  /\ (state env = 4%nat ->
      currentAttenuationDb env' - (sustainDb env + off)
      == (currentAttenuationDb env - (sustainDb env + off))
         * (1 - smoothingFactor) ^ n).
Proof using Type.
  intros R env audioBuffer n off env'.
  assert (NE : audioBuffer <> []) by discriminate.
  pose proof (apply_not_in_release decibelAttenuationToGain voice audioBuffer
                centibelOffset smoothingFactor R) as A.
  cbv zeta in A. fold env off in A.
  split.
  - intros S2 L. subst env'. rewrite A, S2.
    cbn [fst volumeEnvelope set_volumeEnvelope].
    unfold holdStage.
    rewrite stageLoop_stays; [|exact NE|apply hold_stays, within_block, L].
    apply hold_attenuation.
  - intros S4. subst env'. rewrite A, S4.
    cbn [fst volumeEnvelope set_volumeEnvelope].
    unfold sustainStage. rewrite sustainLoop_run by exact NE.
    apply sustain_attenuation.
Qed.

(** X8. A release ends.  With a positive [releaseDuration] and a release
    that started at 100 dB or below, a block whose last sample is at least
    [releaseDuration] samples after the start of the release leaves the voice
    finished. *)
Theorem apply_release_ends_in_time
    (voice : WorkletVoice) (x : Q) (rest : list Q)
    (centibelOffset smoothingFactor : Q) :
  isInRelease voice = true ->
  let env := volumeEnvelope voice in
  let elapsed := currentSampleTime env - releaseStartTimeSamples env in
  0 < releaseDuration env ->
  releaseStartDb env <= 100 ->
  releaseDuration env <= elapsed + inject_Z (Z.of_nat (length rest)) ->
  finished (fst (apply_env voice (x :: rest) centibelOffset smoothingFactor))
  = true.
Proof using Type.
  intros R env elapsed Pd Ls Le.
  destruct (apply_in_release voice (x :: rest) centibelOffset smoothingFactor R)
    as (_ & _ & Hf).
  cbv zeta in Hf. fold env elapsed in Hf. rewrite Hf.
  destruct (releaseLoop_spec decibelAttenuationToGain (smoothingFactor * 10)
              (DB_SILENCE - releaseStartDb env) (centibelOffset / 10)
              (x :: rest) env elapsed 0) as (_ & Hdb & _).
  cbn [length] in Hdb. cbv zeta in Hdb. rewrite Hdb.
  match goal with
  | |- (if Qgeb ?d _ then _ else _) = _ =>
      assert (G : Qgeb d PERCEIVED_DB_SILENCE = true)
  end.
  { apply Qgeb_true. rewrite clockAfter_closed.
    set (e := elapsed + inject_Z (Z.of_nat (length rest))) in *.
    assert (Q1 : 1 <= e / releaseDuration env).
    { apply Qle_shift_div_l; [exact Pd|lra]. }
    unfold PERCEIVED_DB_SILENCE, DB_SILENCE.
    set (q := e / releaseDuration env) in *. nra. }
  rewrite G. reflexivity.
Qed.

(** X9. A voice released during its delay stage is silent at once:
    [startRelease] sets [releaseStartDb] to 100 dB, and the first block that
    is not empty rendered after it leaves the voice finished (with a
    [releaseDuration] that is not zero). *)
Theorem release_in_delay_finishes_at_once
    (voice : WorkletVoice) (x : Q) (rest : list Q)
    (centibelOffset smoothingFactor : Q) :
  isInRelease voice = true ->
  state (volumeEnvelope voice) = 0%nat ->
  ~ releaseDuration (volumeEnvelope (startRelease voice)) == 0 ->
  releaseStartDb (volumeEnvelope (startRelease voice)) = DB_SILENCE
  /\ finished
       (fst (apply_env (startRelease voice) (x :: rest) centibelOffset
               smoothingFactor))
     = true.
Proof using Type.
  intros R S0 NZ.
  assert (Rs : releaseStartDb (volumeEnvelope (startRelease voice)) = DB_SILENCE).
  { unfold VolumeEnvelope.startRelease, VolumeEnvelope.recalculate.
    cbn [isInRelease set_volumeEnvelope]. rewrite R.
    cbn [volumeEnvelope set_volumeEnvelope releaseStartDb set_releaseStartDb].
    unfold releaseStartDbOf. cbn [state]. 
    cbn [volumeEnvelope set_volumeEnvelope state set_currentReleaseGain
         set_releaseStartTimeSamples].
    rewrite S0. reflexivity. }
  split; [exact Rs|].
  assert (R' : isInRelease (startRelease voice) = true).
  { unfold VolumeEnvelope.startRelease, VolumeEnvelope.recalculate.
    cbn [isInRelease set_volumeEnvelope]. rewrite R. exact R. }
  destruct (apply_in_release (startRelease voice) (x :: rest) centibelOffset
              smoothingFactor R') as (_ & _ & Hf).
  cbv zeta in Hf. rewrite Hf.
  match goal with
  | |- context [releaseLoop _ ?a ?b ?c ?d ?e ?f _] =>
      destruct (releaseLoop_spec decibelAttenuationToGain a b c (x :: rest)
                  d e f) as (_ & Hdb & _)
  end.
  cbn [length] in Hdb. cbv zeta in Hdb. rewrite Hdb, Rs.
  match goal with
  | |- (if Qgeb ?d _ then _ else _) = _ =>
      assert (G : Qgeb d PERCEIVED_DB_SILENCE = true)
  end.
  { apply Qgeb_true. unfold PERCEIVED_DB_SILENCE, DB_SILENCE.
    match goal with |- _ <= ?q * _ + _ => set (y := q) end. lra. }
  rewrite G. reflexivity.
Qed.

(** X10. [recalculate] leaves the running state of the envelope alone: the
    clock, the state, the smoothed attenuation, the release gain, the start
    of the release and the sample rate, and the generators, the key and the
    flags of the voice; outside release it leaves [releaseStartDb] as
    well. *)
Theorem recalculate_keeps_the_running_state (voice : WorkletVoice) :
  let voice' := recalculate voice in
  let env := volumeEnvelope voice in
  let env' := volumeEnvelope voice' in
  currentSampleTime env' = currentSampleTime env
  /\ state env' = state env
  /\ currentAttenuationDb env' = currentAttenuationDb env
  /\ currentReleaseGain env' = currentReleaseGain env
  /\ releaseStartTimeSamples env' = releaseStartTimeSamples env
  /\ sampleRate env' = sampleRate env
  /\ modulatedGenerators voice' = modulatedGenerators voice
  /\ targetKey voice' = targetKey voice
  /\ isInRelease voice' = isInRelease voice
  /\ finished voice' = finished voice
  /\ (isInRelease voice = false -> releaseStartDb env' = releaseStartDb env).
Proof using Type.
  unfold VolumeEnvelope.recalculate.
  destruct (isInRelease voice) eqn:R; cbn; rewrite ?R;
    repeat split; discriminate.
Qed.

(** X11. [recalculate] is idempotent: what it writes depends on the
    generators, the key, the sample rate and on fields it does not write, so
    a second call changes nothing. *)
Theorem recalculate_idempotent (voice : WorkletVoice) :
  recalculate (recalculate voice) = recalculate voice.
Proof using Type.
  unfold VolumeEnvelope.recalculate.
  destruct (isInRelease voice) eqn:R;
    cbn [isInRelease set_volumeEnvelope]; rewrite R; reflexivity.
Qed.

Lemma floor_nonneg (x : Q) : 0 <= x -> 0 <= floor x.
Proof.
  intros H. unfold floor. change 0 with (inject_Z 0). rewrite <- Zle_Qle.
  change 0%Z with (Qfloor (inject_Z 0)) at 1. rewrite Qfloor_Z at 1.
  rewrite <- (Qfloor_Z 0). apply Qfloor_resp_le. exact H.
Qed.

(** X12. With a sample rate that is not negative and a conversion
    [timecentsToSeconds] that is never negative, [recalculate] leaves the
    ends of the stages in order, [0 <= delayEnd <= attackEnd <= holdEnd], and
    a [releaseDuration] that is not negative; [holdEnd <= decayEnd] holds as
    well when the sustain generator is not negative and the initial
    attenuation is below 1000 cB. *)
Theorem recalculate_stage_ends_ordered (voice : WorkletVoice) :
  let env' := volumeEnvelope (recalculate voice) in
  0 <= sampleRate (volumeEnvelope voice) ->
  (forall tc, 0 <= timecentsToSeconds tc) ->
  0 <= delayEnd env'
  /\ delayEnd env' <= attackEnd env'
  /\ attackEnd env' <= holdEnd env'
  /\ 0 <= releaseDuration env'
  /\ (0 <= gen voice sustainVolEnv -> gen voice initialAttenuation < 1000 ->
      holdEnd env' <= decayEnd env').
Proof using Type.
  intros env' Hr Ht.
  assert (F : forall tc, 0 <= timecentsToSamples (volumeEnvelope voice) tc).
  { intros tc. unfold VolumeEnvelope.timecentsToSamples. apply floor_nonneg.
    apply Qmult_le_0_compat; [apply Ht|exact Hr]. }
  subst env'. unfold VolumeEnvelope.recalculate.
  destruct (isInRelease voice);
    cbn [volumeEnvelope set_volumeEnvelope set_releaseStartDb delayEnd attackEnd
         holdEnd decayEnd releaseDuration].
  all: split; [apply F|].
  all: split; [match goal with |- ?d <= ?a + ?d => pose proof (F (gen voice attackVolEnv)); lra end|].
  all: split; [match goal with |- ?d <= ?a + ?d => assert (0 <= a) by apply F; lra end|].
  all: split; [apply F|].
  all: intros Hs Ha;
    match goal with
    | |- ?h <= ?a * ?f + ?h =>
        assert (0 <= a) by apply F; assert (0 <= f); [|nra]
    end;
    unfold decayFraction;
    assert (E1 : gen voice initialAttenuation / 10
                 == gen voice initialAttenuation * (1 # 10)) by field;
    assert (E2 : gen voice sustainVolEnv / 10
                 == gen voice sustainVolEnv * (1 # 10)) by field;
    apply Qle_shift_div_l; rewrite ?E1, ?E2; lra.
Qed.

End ApplyFacts.

(** ** The envelope on concrete voices *)

Abbreviation tts := octaveTimecentsToSeconds.
Abbreviation dbg := decadeDecibelAttenuationToGain.
Abbreviation lg := decadeLog10.

(** C5, the claim as stated fails.  With the attenuation at 0 dB and the
    sustain generator at 1010 cB, [sustainDb] is 101 dB, above 100: the
    fraction is 101/100 and [decayDuration] 44541 samples, neither is
    negative. *)
Lemma over_sustain_fraction_not_negative :
  100 < sustainDb (volumeEnvelope overSustainVoice)
  /\ decayFraction (sustainDb (volumeEnvelope overSustainVoice))
                   (attenuation (volumeEnvelope overSustainVoice)) == 101 # 100
  /\ decayDuration (volumeEnvelope overSustainVoice) == 44541
  /\ ~ decayFraction (sustainDb (volumeEnvelope overSustainVoice))
                     (attenuation (volumeEnvelope overSustainVoice)) < 0
  /\ ~ decayDuration (volumeEnvelope overSustainVoice) < 0.
Proof.
  repeat split; vm_compute; congruence.
Qed.

Lemma recalculate_decay_duration_witness :
  1 < (sustainDb (volumeEnvelope overSustainVoice)
       - attenuation (volumeEnvelope overSustainVoice))
      / (100 - attenuation (volumeEnvelope overSustainVoice)).
Proof.
  refine (proj1 (proj2 (proj2 (proj2 (proj2
            (recalculate_decay_duration tts dbg lg
               (voiceOf overSustainGenerators 60)))))) _ _);
    vm_compute; reflexivity.
Defined.

Lemma recalculate_in_release_start_db_witness :
  releaseStartDb
    (volumeEnvelope
       (recalculate tts dbg lg (atStage 2 100 (set_isInRelease true shortVoice))))
  = 0 / 10.
Proof.
  exact (proj1 (proj2 (proj2
           (recalculate_in_release_start_db tts dbg lg
              (atStage 2 100 (set_isInRelease true shortVoice)) eq_refl)))
           eq_refl).
Defined.

(** C2, the claim as stated fails.  A voice released in its sustain, at
    20 dB, with a release of no sample ([releaseDuration] is 0): the whole
    duration of the release has elapsed when it starts, and the voice is
    not finished after a block of one sample, whose value is the quotient
    of 0 by 0 and does not reach 96 dB.  And a voice 41 samples into a
    release of 43 samples, where the ramp is above 96 dB: an empty block
    computes no value and leaves the voice unfinished. *)
Lemma release_without_duration_is_not_finished :
  let v := releasedInSustain zeroReleaseGenerators 9000 in
  let w := releasedInSustain shortGenerators 9041 in
  let elapsed u :=
    currentSampleTime (volumeEnvelope u)
    - releaseStartTimeSamples (volumeEnvelope u) in
  (isInRelease v = true
   /\ releaseDuration (volumeEnvelope v) == 0
   /\ elapsed v == releaseDuration (volumeEnvelope v)
   /\ finished (fst (VolumeEnvelope.apply dbg v [1] 0 (1 # 1000))) = false)
  /\ (isInRelease w = true
      /\ 96 <= (elapsed w / releaseDuration (volumeEnvelope w))
               * (100 - releaseStartDb (volumeEnvelope w))
               + releaseStartDb (volumeEnvelope w)
      /\ finished (fst (VolumeEnvelope.apply dbg w [] 0 (1 # 1000))) = false).
Proof.
  vm_compute. repeat split; try reflexivity; discriminate.
Qed.

Lemma apply_release_ramp_witness :
  finished
    (fst (VolumeEnvelope.apply dbg (releasedInSustain shortGenerators 9041)
            [1; 1] 0 (1 # 1000)))
  = true
  /\ voicesAfterBlock dbg [releasedInSustain shortGenerators 9041]
       (fun _ => [1; 1]) 0 (1 # 1000)
     = [].
Proof.
  pose proof (apply_release_ramp dbg (releasedInSustain shortGenerators 9041)
                1 [1] [1] 0 (1 # 1000) eq_refl) as H.
  cbv zeta in H.
  destruct H as (_ & _ & (F & _) & _ & _ & (A & _)).
  - vm_compute. discriminate.
  - split; [apply F|apply A]; vm_compute; discriminate.
Defined.

(** C4, the claim as stated fails when [centibelOffset] is not 0.  With an
    attenuation of 0 dB and an offset of 200 cB, the attack sample at clock
    85 of an attack ending at 86 and lasting 43 samples is scaled by
    42/43 times the gain of 20 dB, not of 0 dB; and a hold sample moves the
    smoothed attenuation from 100 towards 20 dB (to 99.92), not towards the
    attenuation 0 (99.9). *)
Lemma stage_targets_include_offset :
  nth 0 (snd (VolumeEnvelope.apply dbg (atStage 1 85 shortVoice) [1] 200
                (1 # 1000))) 0
  == (42 # 43) * dbg 20
  /\ ~ nth 0 (snd (VolumeEnvelope.apply dbg (atStage 1 85 shortVoice) [1] 200
                     (1 # 1000))) 0
       == (42 # 43) * dbg (attenuation (volumeEnvelope shortVoice))
  /\ currentAttenuationDb
       (volumeEnvelope
          (fst (VolumeEnvelope.apply dbg (atStage 2 100 shortVoice) [1] 200
                  (1 # 1000))))
     == 100 + (20 - 100) * (1 # 1000)
  /\ ~ currentAttenuationDb
         (volumeEnvelope
            (fst (VolumeEnvelope.apply dbg (atStage 2 100 shortVoice) [1] 200
                    (1 # 1000))))
       == 100 + (attenuation (volumeEnvelope shortVoice) - 100) * (1 # 1000).
Proof.
  repeat split; vm_compute; congruence.
Qed.

Lemma apply_stage_gains_witness :
  snd (VolumeEnvelope.apply dbg (atStage 1 50 shortVoice) [1; 1] 0 (1 # 1000))
  = [1 * ((1 - (86 - 50) / 43) * dbg (0 / 10 + 0 / 10));
     1 * ((1 - (86 - (50 + 1)) / 43) * dbg (0 / 10 + 0 / 10))].
Proof.
  refine (proj1
            (apply_stage_gains dbg (atStage 1 50 shortVoice) 1 [1] 0 (1 # 1000)
               eq_refl) eq_refl _).
  vm_compute. reflexivity.
Defined.

Lemma apply_clock_advance_witness :
  currentSampleTime
    (volumeEnvelope
       (fst (VolumeEnvelope.apply dbg (atStage 3 200 shortVoice) [1; 1; 1] 0
               (1 # 1000))))
  == 200 + 2 * 3.
Proof.
  refine (proj1 (proj1 (proj2 (proj2 (proj2
            (apply_clock_advance dbg (atStage 3 200 shortVoice) 1 [1; 1] 0
               (1 # 1000) eq_refl)))) eq_refl _)).
  vm_compute. reflexivity.
Defined.

Lemma apply_finished_only_in_release_witness :
  finished (fst (VolumeEnvelope.apply dbg (atStage 4 9000 shortVoice) [1; 1] 0
                   (1 # 1000)))
  = false
  /\ finished (fst (VolumeEnvelope.apply dbg releasedVoice [] 0 (1 # 1000)))
     = false.
Proof.
  split.
  - exact (proj1 (apply_finished_only_in_release dbg
                    (atStage 4 9000 shortVoice) [1; 1] 0 (1 # 1000)) eq_refl).
  - exact (proj2 (apply_finished_only_in_release dbg releasedVoice [] 0
                    (1 # 1000)) eq_refl).
Defined.

(** The clock of a decay, run: four samples from clock 8946 with the decay
    ending at 8949.  Two samples are decay (the clock goes to 8950), the test
    that ends the decay takes it to 8951, two samples of sustain to 8953. *)
Example decay_runs_at_double_speed :
  let v := fst (VolumeEnvelope.apply dbg (atStage 3 8946 shortVoice)
                  [1; 1; 1; 1] 0 (1 # 1000)) in
  currentSampleTime (volumeEnvelope v) == 8953
  /\ state (volumeEnvelope v) = 4%nat.
Proof. vm_compute. split; reflexivity. Qed.

(** ** The invariants on concrete voices *)

Lemma octaveTimecentsToSeconds_nonneg (tc : Q) : 0 <= octaveTimecentsToSeconds tc.
Proof.
  unfold octaveTimecentsToSeconds.
  destruct (Qeq_bool tc (-32768)); [apply Qle_refl|].
  apply Qpower_0_le. discriminate.
Qed.

Lemma apply_delay_is_silent_witness :
  snd (VolumeEnvelope.apply dbg shortVoice [1; 1] 0 (1 # 1000)) = [0; 0]
  /\ currentAttenuationDb
       (volumeEnvelope
          (fst (VolumeEnvelope.apply dbg shortVoice [1; 1] 0 (1 # 1000))))
     = DB_SILENCE.
Proof.
  refine (apply_delay_is_silent dbg shortVoice 1 [1] 0 (1 # 1000)
            eq_refl eq_refl _).
  vm_compute. reflexivity.
Defined.

Lemma apply_attack_pins_attenuation_witness :
  currentAttenuationDb
    (volumeEnvelope
       (fst (VolumeEnvelope.apply dbg (atStage 1 50 shortVoice) [1; 1] 200
               (1 # 1000))))
  = attenuation (volumeEnvelope shortVoice).
Proof.
  refine (apply_attack_pins_attenuation dbg (atStage 1 50 shortVoice) 1 [1] 200
            (1 # 1000) eq_refl eq_refl _).
  vm_compute. reflexivity.
Defined.

Lemma apply_smoothing_converges_witness :
  currentAttenuationDb
    (volumeEnvelope
       (fst (VolumeEnvelope.apply dbg (atStage 4 9000 shortVoice) [1; 1] 0
               (1 # 1000))))
  - (sustainDb (volumeEnvelope shortVoice) + 0 / 10)
  == (100 - (sustainDb (volumeEnvelope shortVoice) + 0 / 10))
     * (1 - (1 # 1000)) ^ 2.
Proof.
  exact (proj2 (apply_smoothing_converges dbg (atStage 4 9000 shortVoice) 1 [1]
                  0 (1 # 1000) eq_refl) eq_refl).
Defined.

Lemma apply_stage_only_advances_witness :
  state
    (volumeEnvelope
       (fst (VolumeEnvelope.apply dbg releasedVoice [1; 1] 0 (1 # 1000))))
  = state (volumeEnvelope releasedVoice).
Proof.
  exact (proj2 (proj2 (apply_stage_only_advances dbg releasedVoice [1; 1] 0
                         (1 # 1000))) eq_refl).
Defined.

Lemma apply_clock_bounds_witness :
  8946 + 4
  <= currentSampleTime
       (volumeEnvelope
          (fst (VolumeEnvelope.apply dbg (atStage 3 8946 shortVoice)
                  [1; 1; 1; 1] 0 (1 # 1000))))
  /\ currentSampleTime
       (volumeEnvelope
          (fst (VolumeEnvelope.apply dbg (atStage 3 8946 shortVoice)
                  [1; 1; 1; 1] 0 (1 # 1000))))
     <= 8946 + 2 * 4.
Proof.
  refine (proj1 (apply_clock_bounds dbg (atStage 3 8946 shortVoice)
                   [1; 1; 1; 1] 0 (1 # 1000)) eq_refl _).
  vm_compute. lia.
Defined.

Lemma apply_keeps_parameters_witness :
  sameParameters (volumeEnvelope (atStage 2 100 shortVoice))
    (volumeEnvelope
       (fst (VolumeEnvelope.apply dbg (atStage 2 100 shortVoice) [1; 1; 1] 0
               (1 # 1000)))).
Proof.
  exact (proj1 (proj2 (proj2 (proj2
           (apply_keeps_parameters dbg (atStage 2 100 shortVoice) [1; 1; 1] 0
              (1 # 1000))))) eq_refl).
Defined.

Lemma apply_finished_is_kept_witness :
  finished
    (fst (VolumeEnvelope.apply dbg (set_finished true shortVoice) [1; 1] 0
            (1 # 1000)))
  = true.
Proof.
  exact (apply_finished_is_kept dbg (set_finished true shortVoice) [1; 1] 0
           (1 # 1000) eq_refl).
Defined.

Lemma apply_release_ends_in_time_witness :
  finished
    (fst (VolumeEnvelope.apply dbg
            (atStage 4 9043
               (startRelease tts dbg lg
                  (set_isInRelease true (atStage 4 9000 shortVoice))))
            [1; 1] 0 (1 # 1000)))
  = true.
Proof.
  refine (apply_release_ends_in_time dbg
            (atStage 4 9043
               (startRelease tts dbg lg
                  (set_isInRelease true (atStage 4 9000 shortVoice))))
            1 [1] 0 (1 # 1000) eq_refl _ _ _);
    vm_compute; try reflexivity; discriminate.
Defined.

Lemma release_in_delay_finishes_at_once_witness :
  releaseStartDb
    (volumeEnvelope (startRelease tts dbg lg (set_isInRelease true shortVoice)))
  = DB_SILENCE
  /\ finished
       (fst (VolumeEnvelope.apply dbg
               (startRelease tts dbg lg (set_isInRelease true shortVoice))
               [1; 1] 0 (1 # 1000)))
     = true.
Proof.
  refine (release_in_delay_finishes_at_once tts dbg lg
            (set_isInRelease true shortVoice) 1 [1] 0 (1 # 1000)
            eq_refl eq_refl _).
  vm_compute. discriminate.
Defined.

Lemma recalculate_stage_ends_ordered_witness :
  0 <= delayEnd (volumeEnvelope shortVoice)
  /\ delayEnd (volumeEnvelope shortVoice) <= attackEnd (volumeEnvelope shortVoice)
  /\ attackEnd (volumeEnvelope shortVoice) <= holdEnd (volumeEnvelope shortVoice)
  /\ 0 <= releaseDuration (volumeEnvelope shortVoice)
  /\ holdEnd (volumeEnvelope shortVoice) <= decayEnd (volumeEnvelope shortVoice).
Proof.
  refine ((fun H' => conj (proj1 H') (conj (proj1 (proj2 H'))
             (conj (proj1 (proj2 (proj2 H')))
                (conj (proj1 (proj2 (proj2 (proj2 H'))))
                   (proj2 (proj2 (proj2 (proj2 H'))) _ _)))))
            (recalculate_stage_ends_ordered tts dbg lg
               (voiceOf shortGenerators 60) _ octaveTimecentsToSeconds_nonneg));
    vm_compute; try reflexivity; discriminate.
Defined.

Lemma recalculate_keeps_the_running_state_witness :
  releaseStartDb
    (volumeEnvelope (recalculate tts dbg lg (atStage 3 200 shortVoice)))
  = releaseStartDb (volumeEnvelope (atStage 3 200 shortVoice)).
Proof.
  exact (proj2 (proj2 (proj2 (proj2 (proj2 (proj2 (proj2 (proj2 (proj2 (proj2
           (recalculate_keeps_the_running_state tts dbg lg
              (atStage 3 200 shortVoice))))))))))) eq_refl).
Defined.

(* ===================================================================== *)
(** * Facts about the seek                                                *)
(* ===================================================================== *)

Import Sequencer.
Local Open Scope Z_scope.

(** ** Arrays *)

Lemma arrayGet_nil {A : Type} (j : nat) : arrayGet (@nil (option A)) j = None.
Proof. unfold arrayGet. destruct j; reflexivity. Qed.

Lemma arrayGet_arraySet_eq {A : Type} (i : nat) :
  forall (l : list (option A)) (v : A), arrayGet (arraySet l i v) i = Some v.
Proof.
  induction i as [|i IH]; intros l v; destruct l; cbn; try reflexivity.
  - apply (IH []).
  - apply IH.
Qed.

Lemma arrayGet_arraySet_ne {A : Type} (i : nat) :
  forall (l : list (option A)) (v : A) (j : nat),
  i <> j -> arrayGet (arraySet l i v) j = arrayGet l j.
Proof.
  induction i as [|i IH]; intros l v j NE.
  - destruct j as [|j]; [congruence|].
    destruct l as [|x rest]; cbn [arraySet]; [|reflexivity].
    change (arrayGet [Some v] (S j)) with (arrayGet (@nil (option A)) j).
    rewrite !arrayGet_nil. reflexivity.
  - destruct l as [|x rest]; cbn [arraySet]; destruct j as [|j];
      try reflexivity.
    + change (arrayGet (None :: arraySet [] i v) (S j))
        with (arrayGet (arraySet [] i v) j).
      rewrite IH by congruence. rewrite !arrayGet_nil. reflexivity.
    + change (arrayGet (x :: arraySet rest i v) (S j))
        with (arrayGet (arraySet rest i v) j).
      rewrite IH by congruence. reflexivity.
Qed.

(** ** The default controllers *)

Lemma defaultControllerArray_defaultControllers (k : nat) :
  (k < 127)%nat ->
  nth_error defaultControllerArray k = Some (defaultControllers k).
Proof.
  intros H. do 127 (destruct k as [|k]; [reflexivity|]). lia.
Qed.

(** C6, on the code.  The default vector has the six values of the claim
    and 0 at every other index it has; but it is an [Int16Array(127)]: it
    has 127 entries, for the controllers 0 to 126, and none for controller
    127, the last of the 128 controllers.  The test
    [value !== defaultControllerArray[127]] of the restoring loop therefore
    holds for every value, 0 included. *)
Theorem defaultControllerArray_has_127_entries :
  length defaultControllerArray = 127%nat
  /\ nth_error defaultControllerArray 127 = None
  /\ nth_error defaultControllerArray (Z.to_nat midiControllers.mainVolume) = Some 100
  /\ nth_error defaultControllerArray (Z.to_nat midiControllers.expressionController)
     = Some 127
  /\ nth_error defaultControllerArray (Z.to_nat midiControllers.pan) = Some 64
  /\ nth_error defaultControllerArray (Z.to_nat midiControllers.releaseTime) = Some 64
  /\ nth_error defaultControllerArray (Z.to_nat midiControllers.brightness) = Some 64
  /\ nth_error defaultControllerArray (Z.to_nat midiControllers.effects1Depth) = Some 40
  /\ (forall k : nat,
        (k < 127)%nat ->
        k <> Z.to_nat midiControllers.mainVolume ->
        k <> Z.to_nat midiControllers.expressionController ->
        k <> Z.to_nat midiControllers.pan ->
        k <> Z.to_nat midiControllers.releaseTime ->
        k <> Z.to_nat midiControllers.brightness ->
        k <> Z.to_nat midiControllers.effects1Depth ->
        nth_error defaultControllerArray k = Some 0)
  /\ (forall value : Z, differsFromDefault 127 value = true)
  /\ differsFromDefault 1 0 = false.
Proof.
  repeat split; try reflexivity.
  intros k H H1 H2 H3 H4 H5 H6.
  rewrite defaultControllerArray_defaultControllers by exact H.
  unfold defaultControllers.
  repeat match goal with
         | |- context [Nat.eqb k ?n] =>
             destruct (Nat.eqb_spec k n); [contradiction|]
         end.
  reflexivity.
Qed.

(** Controller 127 at its value 0 is issued again by the seek; controller
    1 at its default 0 is not. *)
Example controller_127_is_always_restored :
  let out :=
    seekOutputs
      (loaded [[controllerEvent 0 0 1 0; controllerEvent 1 0 127 0;
                endOfTrackEvent 100]] false) 50 in
  In (SynthControllerChange 0 127 0) out
  /\ ~ In (SynthControllerChange 0 1 0) out.
Proof.
  vm_compute. split.
  - tauto.
  - intros H. repeat (destruct H as [H|H]; [discriminate H|]). exact H.
Qed.

(** ** Deferred and not deferred *)

Lemma isNotDeferred_iff (controllerNumber : Z) :
  isNotDeferred controllerNumber = true
  <-> In controllerNumber [0; 6; 32; 38; 97; 98; 99; 100; 101; 121].
Proof.
  unfold isNotDeferred, midiControllers.dataDecrement,
    midiControllers.dataEntryMsb, midiControllers.lsbForControl6DataEntry,
    midiControllers.RPNLsb, midiControllers.RPNMsb, midiControllers.NRPNLsb,
    midiControllers.NRPNMsb, midiControllers.bankSelect,
    midiControllers.lsbForControl0BankSelect,
    midiControllers.resetAllControllers.
  rewrite !orb_true_iff, !Z.eqb_eq. cbn [In]. intuition lia.
Qed.

(** C7, on the code.  The controllers issued during the replay are bank
    select (0, 32), data entry (6, 38), data decrement (97), NRPN and RPN
    select (98 to 101) and reset all controllers (121).  Data increment (96)
    is not among them: the condition names [dataDecrement] twice.  A data
    increment is deferred like any other controller; in a file with a data
    increment at tick 0 and a data decrement at tick 1 the decrement reaches
    the synthesizer first, the increment in the batch. *)
Theorem data_increment_is_deferred :
  isNotDeferred midiControllers.dataIncrement = false
  /\ isNotDeferred midiControllers.dataDecrement = true
  /\ (forall controllerNumber : Z,
        isNotDeferred controllerNumber = true
        <-> In controllerNumber [0; 6; 32; 38; 97; 98; 99; 100; 101; 121])
  /\ replayOutputs
       (loaded [[controllerEvent 0 0 96 1; controllerEvent 1 0 97 1;
                 endOfTrackEvent 100]] false) 50
     = [SynthResetAllControllers; SynthControllerChange 0 97 1;
        SynthPitchWheel 0 64 0; SynthControllerChange 0 96 1]
       ++ map (fun c => SynthPitchWheel c 64 0)
              [1; 2; 3; 4; 5; 6; 7; 8; 9; 10; 11; 12; 13; 14; 15].
Proof.
  split; [reflexivity|]. split; [reflexivity|].
  split; [exact isNotDeferred_iff|].
  vm_compute. reflexivity.
Qed.

(** ** The pitch wheel: 14 bits in two bytes *)

Lemma low_bits_above (x n : Z) : 0 <= x < 128 -> 7 <= n -> Z.testbit x n = false.
Proof.
  intros Hx Hn. rewrite <- (Z.mod_small x (2 ^ 7)) by (change (2 ^ 7) with 128; lia).
  apply Z.mod_pow2_bits_high. lia.
Qed.

Lemma testbit_127 (n : Z) : 0 <= n -> Z.testbit 127 n = (n <? 7).
Proof.
  intros Hn. change 127 with (Z.ones 7).
  destruct (Z.ltb_spec n 7).
  - apply Z.ones_spec_low. lia.
  - apply Z.ones_spec_high. lia.
Qed.

Lemma join_split (v : Z) :
  Z.lor (Z.shiftl (Z.shiftr v 7) 7) (Z.land v 127) = v.
Proof.
  apply Z.bits_inj'. intros n Hn.
  rewrite Z.lor_spec, Z.land_spec, testbit_127 by exact Hn.
  destruct (Z.ltb_spec n 7).
  - rewrite Z.shiftl_spec_low by lia. rewrite andb_true_r. reflexivity.
  - rewrite Z.shiftl_spec, Z.shiftr_spec by lia.
    replace (n - 7 + 7) with n by lia.
    rewrite andb_false_r, orb_false_r. reflexivity.
Qed.

Lemma split_join_high (MSB LSB : Z) :
  0 <= LSB < 128 -> Z.shiftr (Z.lor (Z.shiftl MSB 7) LSB) 7 = MSB.
Proof.
  intros HL. apply Z.bits_inj'. intros n Hn.
  rewrite Z.shiftr_spec, Z.lor_spec, Z.shiftl_spec by lia.
  replace (n + 7 - 7) with n by lia.
  rewrite (low_bits_above LSB) by lia. apply orb_false_r.
Qed.

Lemma split_join_low (MSB LSB : Z) :
  0 <= LSB < 128 -> Z.land (Z.lor (Z.shiftl MSB 7) LSB) 127 = LSB.
Proof.
  intros HL. apply Z.bits_inj'. intros n Hn.
  rewrite Z.land_spec, Z.lor_spec, testbit_127 by exact Hn.
  destruct (Z.ltb_spec n 7).
  - rewrite Z.shiftl_spec_low by lia. rewrite andb_true_r. reflexivity.
  - rewrite (low_bits_above LSB) by lia. rewrite andb_false_r. reflexivity.
Qed.

Lemma join_range (MSB LSB : Z) :
  0 <= LSB < 128 -> 0 <= MSB < 128 ->
  0 <= Z.lor (Z.shiftl MSB 7) LSB < 16384.
Proof.
  intros HL HM.
  assert (N : 0 <= Z.lor (Z.shiftl MSB 7) LSB).
  { apply Z.lor_nonneg. split; [apply Z.shiftl_nonneg|]; lia. }
  split; [exact N|].
  pose proof (split_join_high MSB LSB HL) as E.
  rewrite Z.shiftr_div_pow2 in E by lia. change (2 ^ 7) with 128 in E.
  pose proof (Z.div_mod (Z.lor (Z.shiftl MSB 7) LSB) 128 ltac:(lia)) as D.
  pose proof (Z.mod_pos_bound (Z.lor (Z.shiftl MSB 7) LSB) 128 ltac:(lia)) as B.
  rewrite E in D. lia.
Qed.

Lemma split_range (v : Z) :
  0 <= v < 16384 -> 0 <= Z.shiftr v 7 < 128 /\ 0 <= Z.land v 127 < 128.
Proof.
  intros Hv. split.
  - rewrite Z.shiftr_div_pow2 by lia. change (2 ^ 7) with 128.
    split; [apply Z.div_pos; lia|apply Z.div_lt_upper_bound; lia].
  - change 127 with (Z.ones 7). rewrite Z.land_ones by lia.
    change (2 ^ 7) with 128. apply Z.mod_pos_bound. lia.
Qed.

(** ** Status bytes *)

Lemma getEvent_channel_message (kind : Z) (channel : nat) :
  In kind [messageTypes.noteOff; messageTypes.noteOn;
           messageTypes.controllerChange; messageTypes.pitchBend] ->
  (channel < 16)%nat ->
  getEvent (Z.lor kind (Z.of_nat channel)) = (kind, Z.of_nat channel).
Proof.
  intros K H.
  cbn [In] in K. destruct K as [<-|[<-|[<-|[<-|[]]]]];
    do 16 (destruct channel as [|channel]; [reflexivity|]); lia.
Qed.

Lemma getEvent_channel_range (statusByte : Z) :
  0x80 <= fst (getEvent statusByte) <= 0xE0 ->
  0 <= snd (getEvent statusByte) < 16.
Proof.
  unfold getEvent.
  destruct ((128 <=? Z.land statusByte 240) && (Z.land statusByte 240 <=? 224))
    eqn:E; cbn [fst snd]; intros H.
  - change 15 with (Z.ones 4). rewrite Z.land_ones by lia.
    change (2 ^ 4) with 16. apply Z.mod_pos_bound. lia.
  - exfalso.
    assert (Hn : exists k : nat, statusByte = 128 + Z.of_nat k /\ (k < 97)%nat).
    { exists (Z.to_nat (statusByte - 128)). lia. }
    destruct Hn as (k & -> & Hk).
    do 97 (destruct k as [|k]; [vm_compute in E; discriminate E|]). lia.
Qed.

Section SeekFacts.

Variable _processEvent : Playback -> MidiMessage -> nat -> Playback.

Abbreviation replayEvent := (replayEvent _processEvent).
Abbreviation replayLoop := (replayLoop _processEvent).
Abbreviation _playTo := (_playTo _processEvent).
Abbreviation setTimeTicks := (setTimeTicks _processEvent).
Abbreviation playMutedEvent := (playMutedEvent _processEvent).
Abbreviation mutedPlayLoop := (mutedPlayLoop _processEvent).
Abbreviation mutedPlay := (mutedPlay _processEvent).

(** ** One event, replayed and played muted *)

Lemma invariant_pitchBend (r : Replay) (S M : Synth) (s' : WorkletSequencer)
    (channel MSB LSB : Z) :
  0 <= channel < 16 ->
  replayInvariant r S M ->
  replayInvariant
    {| sequencer := s';
       pitchBends :=
         arraySet (pitchBends r) (Z.to_nat channel) (Z.lor (Z.shiftl MSB 7) LSB);
       savedControllers := savedControllers r |}
    S (receive M (SynthPitchWheel channel MSB LSB)).
Proof.
  intros Hc (I1 & I2 & I3). unfold replayInvariant. cbn [pitchBends savedControllers].
  split; [|split].
  - intros ch Hch. cbn [receive]. unfold onChannel.
    destruct (Nat.eqb_spec ch (Z.to_nat channel)) as [->|NE].
    + rewrite arrayGet_arraySet_eq. reflexivity.
    + rewrite arrayGet_arraySet_ne by congruence. apply I1, Hch.
  - intros ch Hch. destruct (I2 ch Hch) as (table & Ht & Hk).
    exists table. split; [exact Ht|]. intros k Hk'. specialize (Hk k Hk').
    cbn [receive]. unfold onChannel.
    destruct (Nat.eqb ch (Z.to_nat channel)); exact Hk.
  - exact I3.
Qed.

Lemma invariant_notDeferred (r : Replay) (S M : Synth)
    (channel controllerNumber value : Z) :
  0 <= channel < 16 -> 0 <= controllerNumber ->
  isNotDeferred controllerNumber = true ->
  controllerNumber <> midiControllers.resetAllControllers ->
  replayInvariant r S M ->
  replayInvariant r
    (receive S (SynthControllerChange channel controllerNumber value))
    (receive M (SynthControllerChange channel controllerNumber value)).
Proof.
  intros Hc Hn Hd Hr (I1 & I2 & I3). unfold replayInvariant.
  apply Z.eqb_neq in Hr.
  split; [|split].
  - intros ch Hch. cbn [receive]. unfold onChannel. rewrite Hr.
    destruct (Nat.eqb ch (Z.to_nat channel)); cbn [pitchWheel]; apply I1, Hch.
  - intros ch Hch. destruct (I2 ch Hch) as (table & Ht & Hk).
    exists table. split; [exact Ht|]. intros k Hk'. specialize (Hk k Hk').
    cbn [receive]. unfold onChannel. rewrite Hr.
    destruct (Nat.eqb ch (Z.to_nat channel)); [|exact Hk].
    cbn [controllers].
    destruct (isNotDeferred (Z.of_nat k)) eqn:Dk.
    + destruct (Nat.eqb k (Z.to_nat controllerNumber)); [reflexivity|exact Hk].
    + destruct (Nat.eqb_spec k (Z.to_nat controllerNumber)) as [->|NE];
        [|exact Hk].
      rewrite Z2Nat.id in Dk by exact Hn. congruence.
  - exact I3.
Qed.

Lemma invariant_deferred (r : Replay) (S M : Synth) (s' : WorkletSequencer)
    (channel controllerNumber value : Z) (table : list (option Z)) :
  0 <= channel < 16 -> 0 <= controllerNumber < 128 ->
  isNotDeferred controllerNumber = false ->
  arrayGet (savedControllers r) (Z.to_nat channel) = Some table ->
  replayInvariant r S M ->
  replayInvariant
    {| sequencer := s';
       pitchBends := pitchBends r;
       savedControllers :=
         arraySet (savedControllers r) (Z.to_nat channel)
           (arraySet table (Z.to_nat controllerNumber) value) |}
    S (receive M (SynthControllerChange channel controllerNumber value)).
Proof.
  intros Hc Hn Hd Ht (I1 & I2 & I3). unfold replayInvariant.
  cbn [pitchBends savedControllers].
  assert (Hr : (controllerNumber =? midiControllers.resetAllControllers) = false).
  { apply Z.eqb_neq. intros ->. discriminate Hd. }
  split; [|split].
  - intros ch Hch. cbn [receive]. unfold onChannel. rewrite Hr.
    destruct (Nat.eqb ch (Z.to_nat channel)); cbn [pitchWheel]; apply I1, Hch.
  - intros ch Hch. cbn [receive]. unfold onChannel. rewrite Hr.
    destruct (Nat.eqb_spec ch (Z.to_nat channel)) as [->|NE].
    + exists (arraySet table (Z.to_nat controllerNumber) value).
      split; [apply arrayGet_arraySet_eq|].
      destruct (I2 (Z.to_nat channel) Hch) as (table0 & Ht0 & Hk).
      assert (table0 = table) by congruence. subst table0.
      intros k Hk'. specialize (Hk k Hk'). cbn [controllers].
      destruct (isNotDeferred (Z.of_nat k)) eqn:Dk.
      * destruct (Nat.eqb_spec k (Z.to_nat controllerNumber)) as [->|NEk];
          [|exact Hk].
        rewrite Z2Nat.id in Dk by lia. congruence.
      * destruct Hk as [Hm Hs]. split; [|exact Hs].
        unfold tableValue.
        destruct (Nat.eqb_spec k (Z.to_nat controllerNumber)) as [->|NEk].
        -- rewrite arrayGet_arraySet_eq. reflexivity.
        -- rewrite arrayGet_arraySet_ne by congruence. exact Hm.
    + destruct (I2 ch Hch) as (table0 & Ht0 & Hk).
      exists table0. split; [|exact Hk].
      rewrite arrayGet_arraySet_ne by congruence. exact Ht0.
  - intros ch table0 Hg.
    destruct (Nat.eq_dec (Z.to_nat channel) ch) as [<-|NE].
    + rewrite arrayGet_arraySet_eq in Hg. injection Hg as <-.
      intros k Dk.
      assert (NEk : Z.to_nat controllerNumber <> k).
      { intros <-. rewrite Z2Nat.id in Dk by lia. congruence. }
      rewrite arrayGet_arraySet_ne by exact NEk.
      apply (I3 _ _ Ht k Dk).
    + rewrite arrayGet_arraySet_ne in Hg by exact NE. apply (I3 _ _ Hg).
Qed.

Lemma arrayGet_default_table (k : nat) :
  arrayGet (arrayFrom defaultControllerArray) k
  = if (k <? 127)%nat then Some (defaultControllers k) else None.
Proof.
  unfold arrayGet, arrayFrom. rewrite nth_error_map.
  destruct (Nat.ltb_spec k 127) as [L|G].
  - rewrite defaultControllerArray_defaultControllers by exact L. reflexivity.
  - assert (E : nth_error defaultControllerArray k = None).
    { apply nth_error_None. exact G. }
    rewrite E. reflexivity.
Qed.

Lemma default_table_keepsNotDeferred :
  keepsNotDeferred (arrayFrom defaultControllerArray).
Proof.
  intros k Dk. rewrite arrayGet_default_table.
  apply isNotDeferred_iff in Dk. cbn [In] in Dk.
  assert (L : (k < 127)%nat) by lia.
  apply Nat.ltb_lt in L. rewrite L. reflexivity.
Qed.

Lemma arrayGet_app_defined {A : Type} (l l' : list (option A)) (i : nat) (x : A) :
  arrayGet l i = Some x -> arrayGet (l ++ l') i = Some x.
Proof.
  unfold arrayGet. intros H.
  destruct (nth_error l i) as [slot|] eqn:E; [|discriminate].
  rewrite nth_error_app1 by (apply nth_error_Some; congruence).
  rewrite E. exact H.
Qed.

Lemma arrayGet_app_repeat {A : Type} (l : list (option A)) (d : A) (n i : nat)
    (x : A) :
  arrayGet (l ++ repeat (Some d) n) i = Some x ->
  arrayGet l i = Some x \/ x = d.
Proof.
  unfold arrayGet. intros H.
  destruct (Nat.lt_ge_cases i (length l)) as [L|G].
  - rewrite nth_error_app1 in H by exact L. left. exact H.
  - right. rewrite nth_error_app2 in H by exact G.
    destruct (nth_error (repeat (Some d) n) (i - length l)) as [slot|] eqn:E;
      [|discriminate].
    apply nth_error_In, repeat_spec in E. congruence.
Qed.

Lemma invariant_grow (r : Replay) (S M : Synth) (s' : WorkletSequencer)
    (channels : nat) :
  replayInvariant r S M ->
  replayInvariant
    {| sequencer := s'; pitchBends := pitchBends r;
       savedControllers := growSavedControllers channels (savedControllers r) |}
    S M.
Proof.
  intros (I1 & I2 & I3). unfold replayInvariant, growSavedControllers.
  cbn [pitchBends savedControllers]. split; [exact I1|]. split.
  - intros ch Hch. destruct (I2 ch Hch) as (table & Ht & Hk).
    exists table. split; [|exact Hk]. apply arrayGet_app_defined, Ht.
  - intros ch table Hg. apply arrayGet_app_repeat in Hg.
    destruct Hg as [Hg| ->]; [apply (I3 _ _ Hg)|].
    apply default_table_keepsNotDeferred.
Qed.

Lemma invariant_sequencer (r : Replay) (S M : Synth) (s' : WorkletSequencer) :
  replayInvariant r S M ->
  replayInvariant
    {| sequencer := s'; pitchBends := pitchBends r;
       savedControllers := savedControllers r |} S M.
Proof. intros H. exact H. Qed.

(** The replay of one event against the same event played muted. *)
Lemma replay_step (r : Replay) (S M : Synth) (event : MidiMessage)
    (trackIndex : nat) :
  sendMIDIMessages (sequencer r) = false ->
  singlePort (playback (sequencer r)) ->
  validControllerNumber event -> notAReset event ->
  notASystemReset event ->
  replayInvariant r S M ->
  let r1 := fst (replayEvent r event trackIndex) in
  let out := snd (replayEvent r event trackIndex) in
  let p' := fst (playMutedEvent (playback (sequencer r)) event trackIndex) in
  let outm := snd (playMutedEvent (playback (sequencer r)) event trackIndex) in
  tracks (sequencer r1) = tracks (sequencer r)
  /\ eventIndex (sequencer r1) = eventIndex (sequencer r)
  /\ sendMIDIMessages (sequencer r1) = false
  /\ playback (sequencer r1) = p'
  /\ replayInvariant r1 (receiveAll S out) (receiveAll M outm)
  /\ filter inFileOrder out = filter inFileOrder outm
  /\ Forall (fun o => inFileOrder o = true) out.
Proof.
  intros Hs [Hoff Hch] Hv Hn Hr I r1 out p' outm.
  subst r1 out p' outm. unfold notASystemReset in Hr.
  unfold Sequencer.replayEvent, Sequencer.playMutedEvent.
  unfold validControllerNumber, notAReset, isControllerChange in Hv, Hn.
  pose proof (getEvent_channel_range (messageStatusByte event)) as Hc.
  destruct (getEvent (messageStatusByte event)) as [status channel].
  cbn [fst snd] in Hv, Hn, Hc.
  destruct ((status =? messageTypes.noteOn) || (status =? messageTypes.noteOff)).
  { cbn [fst snd]. split; [|split; [|split; [|split; [|split; [|split]]]]];
      try reflexivity; try assumption; repeat constructor. }
  destruct (Z.eqb_spec status messageTypes.pitchBend) as [->|NP].
  { cbn [fst snd receiveAll fold_left sequencer]. rewrite Hoff, Z.add_0_r.
    split; [|split; [|split; [|split; [|split; [|split]]]]];
      try reflexivity; try assumption.
    - apply invariant_pitchBend; [|exact I].
      apply Hc. unfold messageTypes.pitchBend. lia.
    - constructor. }
  destruct (Z.eqb_spec status messageTypes.controllerChange) as [->|NC].
  { specialize (Hv eq_refl). specialize (Hn eq_refl).
    assert (Hc' : 0 <= channel < 16).
    { apply Hc. unfold messageTypes.controllerChange. lia. }
    rewrite Hoff, Z.add_0_r.
    destruct (isNotDeferred (dataByte event 0)) eqn:D.
    - rewrite Hs. cbn [fst snd receiveAll fold_left filter inFileOrder].
      rewrite D.
      split; [|split; [|split; [|split; [|split; [|split]]]]];
        try reflexivity; try assumption.
      + apply invariant_notDeferred; try assumption; lia.
      + repeat constructor. cbn [inFileOrder]. exact D.
    - cbn [fst snd receiveAll fold_left filter inFileOrder]. rewrite D.
      destruct (proj1 (proj2 I) (Z.to_nat channel) ltac:(lia))
        as (table & Ht & Hk).
      rewrite Ht. cbn [sequencer].
      split; [|split; [|split; [|split; [|split; [|split]]]]];
        try reflexivity; try assumption.
      + apply invariant_deferred; assumption.
      + constructor. }
  destruct (status =? messageTypes.midiPort).
  { cbn [fst snd sequencer tracks eventIndex sendMIDIMessages playback
         set_playback receiveAll fold_left receive]. rewrite Hr.
    split; [|split; [|split; [|split; [|split; [|split]]]]];
      try reflexivity; try assumption.
    - apply invariant_grow, I.
    - repeat constructor. }
  cbn [fst snd sequencer tracks eventIndex sendMIDIMessages playback
       set_playback receiveAll fold_left receive]. rewrite Hr.
  split; [|split; [|split; [|split; [|split; [|split]]]]];
    try reflexivity; try assumption; repeat constructor.
Qed.

(** ** The loop ends

    Every iteration that goes on moves one cursor past an event: the fuel
    [_playTo] gives the loop, one more than the events left, is never used
    up. *)

Lemma replayEvent_cursors (r : Replay) (event : MidiMessage) (trackIndex : nat) :
  tracks (sequencer (fst (replayEvent r event trackIndex)))
  = tracks (sequencer r)
  /\ eventIndex (sequencer (fst (replayEvent r event trackIndex)))
     = eventIndex (sequencer r).
Proof.
  unfold Sequencer.replayEvent.
  destruct (getEvent (messageStatusByte event)) as [status channel].
  repeat match goal with
         | |- context [if ?b then _ else _] => destruct b
         end; cbn; split; reflexivity.
Qed.

Lemma eventsLeft_increment (trs : list (list MidiMessage)) :
  forall (cursors : list nat) (trackIndex : nat)
         (track : list MidiMessage) (cursor : nat) (event : MidiMessage),
  nth_error trs trackIndex = Some track ->
  nth_error cursors trackIndex = Some cursor ->
  nth_error track cursor = Some event ->
  S (eventsLeft trs (increment cursors trackIndex)) = eventsLeft trs cursors.
Proof.
  induction trs as [|tr trs IH]; intros cursors trackIndex track cursor event
    Ht Hc He; [destruct trackIndex; discriminate Ht|].
  destruct cursors as [|c cursors]; [destruct trackIndex; discriminate Hc|].
  destruct trackIndex as [|trackIndex]; cbn in Ht, Hc |- *.
  - injection Ht as ->. injection Hc as ->.
    assert (L : (cursor < length track)%nat).
    { apply nth_error_Some. congruence. }
    lia.
  - rewrite <- (IH cursors trackIndex track cursor event Ht Hc He). lia.
Qed.

Lemma replayLoop_has_fuel (time : Q) (target : option Z) (fuel : nat) :
  forall r : Replay,
  (eventsLeft (tracks (sequencer r)) (eventIndex (sequencer r)) < fuel)%nat ->
  fst (fst (replayLoop fuel time target r)) <> FuelOut.
Proof.
  induction fuel as [|fuel IH]; intros r H; [lia|].
  cbn [Sequencer.replayLoop].
  destruct (eventAt (sequencer r) (_findFirstEventIndex (sequencer r)))
    as [event|] eqn:Ee;
    [|destruct target;
      [|destruct (nth_error _ _); [destruct (Qle_bool _ _)|]];
      discriminate].
  match goal with
  | |- context [if ?b then _ else _] => destruct b; [discriminate|]
  end.
  pose proof (replayEvent_cursors r event (_findFirstEventIndex (sequencer r)))
    as [Tr Ei].
  destruct (replayEvent r event (_findFirstEventIndex (sequencer r)))
    as [r1 out1]. cbn [fst] in Tr, Ei.
  match goal with
  | |- context [match eventAt ?s ?i with _ => _ end] =>
      destruct (eventAt s i) as [nextEvent|]; [|discriminate]
  end.
  match goal with
  | |- context [Sequencer.replayLoop _ fuel time target ?r2] =>
      specialize (IH r2);
      destruct (Sequencer.replayLoop _processEvent fuel time target r2)
        as [[e r3] out3]
  end.
  cbn [fst] in IH |- *. apply IH. cbn [sequencer tracks eventIndex
    set_playedTime set_eventIndex]. rewrite Tr, Ei.
  unfold eventAt in Ee.
  destruct (nth_error (tracks (sequencer r)) (_findFirstEventIndex (sequencer r)))
    as [track|] eqn:Et; [|discriminate Ee].
  destruct (nth_error (eventIndex (sequencer r))
              (_findFirstEventIndex (sequencer r)))
    as [cursor|] eqn:Ec; [|discriminate Ee].
  pose proof (eventsLeft_increment _ _ _ _ _ _ Et Ec Ee). lia.
Qed.

Lemma playTo_has_fuel (s : WorkletSequencer) (time : Q) (target : option Z) :
  fst (fst (_playTo s time target)) <> OutOfFuel.
Proof.
  unfold Sequencer._playTo.
  match goal with
  | |- context [Sequencer.replayLoop _ ?f time target ?r] =>
      pose proof (replayLoop_has_fuel time target f r) as H;
      destruct (Sequencer.replayLoop _processEvent f time target r)
        as [[e r1] out]
  end.
  cbn [fst] in H.
  destruct e; cbn [fst].
  - destruct (sendMIDIMessages (sequencer r1));
      [destruct (restoreAllToMIDI r1 (seq 0 16)) as [batch []]|];
      cbn [fst]; discriminate.
  - discriminate.
  - discriminate.
  - exfalso. apply H; [|reflexivity]. cbn [sequencer]. lia.
Qed.

(** ** The two loops, side by side *)

Hypothesis processEvent_singlePort :
  forall p event trackIndex,
    singlePort p -> singlePort (_processEvent p event trackIndex).

Lemma playMutedEvent_singlePort (p : Playback) (event : MidiMessage)
    (trackIndex : nat) :
  singlePort p -> singlePort (fst (playMutedEvent p event trackIndex)).
Proof using processEvent_singlePort.
  intros H. unfold Sequencer.playMutedEvent.
  destruct (getEvent (messageStatusByte event)) as [status channel].
  repeat match goal with
         | |- context [if ?b then _ else _] => destruct b
         end; cbn [fst]; try exact H.
  apply processEvent_singlePort, H.
Qed.

Lemma sameCursors_event (a b : WorkletSequencer) :
  sameCursors a b ->
  _findFirstEventIndex a = _findFirstEventIndex b
  /\ forall i, eventAt a i = eventAt b i.
Proof.
  intros (Ht & Hi & _). unfold _findFirstEventIndex, eventAt.
  rewrite Ht, Hi. split; [reflexivity|]. intros i. reflexivity.
Qed.

Lemma eventAt_In (s : WorkletSequencer) (i : nat) (event : MidiMessage) :
  eventAt s i = Some event ->
  exists track, In track (tracks s) /\ In event track.
Proof.
  unfold eventAt. intros H.
  destruct (nth_error (tracks s) i) as [track|] eqn:Et; [|discriminate].
  destruct (nth_error (eventIndex s) i) as [cursor|]; [|discriminate].
  exists track. split; eapply nth_error_In; eassumption.
Qed.

Lemma replay_loop_lockstep (time : Q) (target : Z) (fuel : nat) :
  forall (r : Replay) (m : WorkletSequencer) (S M : Synth)
         (r' : Replay) (out : list Output),
  sameCursors (sequencer r) m ->
  sendMIDIMessages (sequencer r) = false ->
  singlePort (playback m) ->
  eventsBefore target m validControllerNumber ->
  eventsBefore target m notAReset ->
  eventsBefore target m notASystemReset ->
  replayInvariant r S M ->
  replayLoop fuel time (Some target) r = (Broke, r', out) ->
  replayInvariant r' (receiveAll S out)
    (receiveAll M (mutedPlayLoop fuel target m))
  /\ filter inFileOrder out
     = filter inFileOrder (mutedPlayLoop fuel target m)
  /\ singlePort (playback (sequencer r'))
  /\ sendMIDIMessages (sequencer r') = false
  /\ Forall (fun o => inFileOrder o = true) out.
Proof using processEvent_singlePort.
  induction fuel as [|fuel IH]; intros r m S M r' out Hc Hs Hp Hv Hn Hr I E;
    [discriminate E|].
  cbn [Sequencer.replayLoop Sequencer.mutedPlayLoop] in E |- *.
  destruct (sameCursors_event _ _ Hc) as [Ef Ea].
  rewrite Ef, Ea in E.
  set (trackIndex := _findFirstEventIndex m) in *.
  destruct (eventAt m trackIndex) as [event|] eqn:Ee; [|discriminate E].
  destruct (ticks event >=? target) eqn:Et.
  { injection E as <- <-. cbn [receiveAll fold_left filter].
    destruct Hc as (_ & _ & Hpb). rewrite Hpb.
    split; [exact I|]. split; [reflexivity|]. split; [assumption|].
    split; [assumption|constructor]. }
  destruct (eventAt_In _ _ _ Ee) as (track & Itrack & Ievent).
  assert (Lt : ticks event < target).
  { rewrite Z.geb_leb in Et. apply Z.leb_gt in Et. exact Et. }
  assert (Hpr : singlePort (playback (sequencer r))).
  { destruct Hc as (_ & _ & Hpb). rewrite Hpb. exact Hp. }
  pose proof (replay_step r S M event trackIndex Hs Hpr
                (Hv track event Itrack Ievent Lt)
                (Hn track event Itrack Ievent Lt)
                (Hr track event Itrack Ievent Lt) I) as St.
  cbv zeta in St.
  destruct (replayEvent r event trackIndex) as [r1 out1].
  assert (Epb : playback (sequencer r) = playback m) by apply Hc.
  rewrite Epb in St.
  pose proof (playMutedEvent_singlePort (playback m) event trackIndex Hp) as Hp1.
  destruct (playMutedEvent (playback m) event trackIndex) as [p1 outm].
  cbn [fst snd] in St, Hp1.
  destruct St as (Tr & Ei & Hs1 & Pb & I1 & Fl & Fa).
  set (s1 := set_eventIndex (increment (eventIndex (sequencer r1)) trackIndex)
               (sequencer r1)) in *.
  set (m1 := set_eventIndex (increment (eventIndex m) trackIndex)
               (set_playback p1 m)).
  assert (Hc1 : sameCursors s1 m1).
  { unfold sameCursors, s1, m1. cbn.
    destruct Hc as (Ht & Hi & _). rewrite Tr, Ei, Ht, Hi, Pb.
    repeat split. }
  destruct (eventAt s1 (_findFirstEventIndex s1)) as [nextEvent|];
    [|discriminate E].
  match type of E with
  | context [Sequencer.replayLoop _ fuel time (Some target) ?r2] =>
      specialize (IH r2 m1 (receiveAll S out1) (receiveAll M outm))
  end.
  destruct (Sequencer.replayLoop _processEvent fuel time (Some target) _)
    as [[e r2] out2].
  injection E as -> <- <-.
  specialize (IH r2 out2).
  destruct IH as (I2 & F2 & P2 & S2 & Fa2).
  - cbn [sequencer]. destruct Hc1 as (A & B & C). repeat split; assumption.
  - exact Hs1.
  - exact Hp1.
  - intros tr ev. exact (Hv tr ev).
  - intros tr ev. exact (Hn tr ev).
  - intros tr ev. exact (Hr tr ev).
  - exact I1.
  - reflexivity.
  - unfold receiveAll in *. rewrite !fold_left_app, !filter_app, Fl, F2.
    split; [exact I2|]. split; [reflexivity|]. split; [assumption|].
    split; [assumption|]. apply Forall_app. split; assumption.
Qed.

(** ** The batch *)

(** A message changes a channel of the synthesizer from the state of that
    channel alone. *)
Lemma receive_local (st st' : Synth) (o : Output) (ch : nat) :
  st ch = st' ch -> receive st o ch = receive st' o ch.
Proof.
  intros E. destruct o; cbn [receive]; try exact E; try reflexivity;
    try (destruct (isSystemReset event); [reflexivity|exact E]);
    unfold onChannel; destruct (Nat.eqb ch (Z.to_nat channel));
    rewrite ?E; reflexivity.
Qed.

Lemma receiveAll_local (outs : list Output) :
  forall (st st' : Synth) (ch : nat),
  st ch = st' ch -> receiveAll st outs ch = receiveAll st' outs ch.
Proof.
  induction outs as [|o outs IH]; intros st st' ch E; [exact E|].
  cbn [receiveAll fold_left]. apply IH, receive_local, E.
Qed.

Lemma receiveAll_app (st : Synth) (a b : list Output) :
  receiveAll st (a ++ b) = receiveAll (receiveAll st a) b.
Proof. unfold receiveAll. apply fold_left_app. Qed.

Section OneChannel.

Variable channelNumber : nat.

Let emit (index : nat) (value : Z) : Output :=
  SynthControllerChange (Z.of_nat channelNumber) (Z.of_nat index) value.

(** The [forEach] of another channel leaves this one alone. *)
Lemma forEach_other (test : nat -> Z -> bool) (ch : nat)
    (table : list (option Z)) :
  channelNumber <> ch ->
  forall (index : nat) (st : Synth),
  receiveAll st (forEachController test emit table index) ch = st ch.
Proof.
  intros NE. induction table as [|[value|] rest IH]; intros index st;
    cbn [forEachController]; [reflexivity| |apply IH].
  rewrite receiveAll_app, IH.
  destruct (test index value); [|reflexivity].
  cbn [receiveAll fold_left receive emit]. unfold onChannel.
  rewrite Nat2Z.id.
  destruct (Nat.eqb_spec ch channelNumber); [congruence|reflexivity].
Qed.

(** The [forEach] on its own channel: every entry that differs from its
    default is written, the pitch wheel is left alone. *)
Lemma forEach_effect (table : list (option Z)) :
  forall (index : nat) (st : Synth),
  (forall i v, arrayGet table i = Some v ->
               differsFromDefault (index + i) v = true ->
               Z.of_nat (index + i) <> midiControllers.resetAllControllers) ->
  let st' :=
    receiveAll st (forEachController differsFromDefault emit table index) in
  pitchWheel (st' channelNumber) = pitchWheel (st channelNumber)
  /\ forall k,
       controllers (st' channelNumber) k
       = if (k <? index)%nat then controllers (st channelNumber) k
         else match arrayGet table (k - index) with
              | Some v =>
                  if differsFromDefault k v then v
                  else controllers (st channelNumber) k
              | None => controllers (st channelNumber) k
              end.
Proof.
  induction table as [|[value|] rest IH]; intros index st H st'; subst st'.
  - cbn [forEachController receiveAll fold_left]. split; [reflexivity|].
    intros k. rewrite arrayGet_nil. destruct (k <? index)%nat; reflexivity.
  - cbn [forEachController]. rewrite receiveAll_app.
    set (st1 := receiveAll st
                  (if differsFromDefault index value
                   then [emit index value] else [])).
    assert (H1 : pitchWheel (st1 channelNumber) = pitchWheel (st channelNumber)
                 /\ forall k, controllers (st1 channelNumber) k
                      = if Nat.eqb k index
                        then (if differsFromDefault index value then value
                              else controllers (st channelNumber) k)
                        else controllers (st channelNumber) k).
    { subst st1. destruct (differsFromDefault index value) eqn:D.
      - cbn [receiveAll fold_left receive emit]. unfold onChannel.
        rewrite Nat2Z.id, Nat.eqb_refl.
        assert (R : (Z.of_nat index =? midiControllers.resetAllControllers)
                    = false).
        { apply Z.eqb_neq. rewrite <- (Nat.add_0_r index).
          apply (H 0%nat value); [reflexivity|].
          rewrite Nat.add_0_r. exact D. }
        rewrite R. cbn [pitchWheel controllers]. split; [reflexivity|].
        intros k. rewrite Nat2Z.id. reflexivity.
      - cbn [receiveAll fold_left]. split; [reflexivity|].
        intros k. destruct (Nat.eqb k index); reflexivity. }
    destruct H1 as [P1 C1].
    destruct (IH (S index) st1) as [P2 C2].
    { intros i v Hg Hd. replace (S index + i)%nat with (index + S i)%nat by lia.
      apply (H (S i) v); [exact Hg|].
      replace (index + S i)%nat with (S index + i)%nat by lia. exact Hd. }
    split; [rewrite P2; exact P1|].
    intros k. rewrite C2, !C1.
    destruct (Nat.ltb_spec k (S index)) as [L|G].
    + destruct (Nat.eqb_spec k index) as [->|NE].
      * rewrite Nat.ltb_irrefl, Nat.sub_diag. reflexivity.
      * assert (L' : (k < index)%nat) by lia.
        apply Nat.ltb_lt in L'. rewrite L'. reflexivity.
    + assert (L' : (k <? index)%nat = false) by (apply Nat.ltb_ge; lia).
      rewrite L'.
      destruct (Nat.eqb_spec k index) as [->|NE]; [lia|].
      replace (k - index)%nat with (S (k - S index)) by lia.
      reflexivity.
  - cbn [forEachController].
    destruct (IH (S index) st) as [P2 C2].
    { intros i v Hg Hd. replace (S index + i)%nat with (index + S i)%nat by lia.
      apply (H (S i) v); [exact Hg|].
      replace (index + S i)%nat with (S index + i)%nat by lia. exact Hd. }
    split; [exact P2|]. intros k. rewrite C2.
    destruct (Nat.ltb_spec k (S index)) as [L|G].
    + destruct (Nat.eqb_spec k index) as [->|NE].
      * rewrite Nat.ltb_irrefl, Nat.sub_diag. reflexivity.
      * assert (L' : (k < index)%nat) by lia.
        apply Nat.ltb_lt in L'. rewrite L'. reflexivity.
    + assert (L' : (k <? index)%nat = false) by (apply Nat.ltb_ge; lia).
      rewrite L'.
      replace (k - index)%nat with (S (k - S index)) by lia.
      reflexivity.
Qed.

(** No entry the [forEach] issues is a controller that is not deferred. *)
Lemma forEach_not_in_file_order (table : list (option Z)) :
  forall index : nat,
  (forall i v, arrayGet table i = Some v ->
               differsFromDefault (index + i) v = true ->
               isNotDeferred (Z.of_nat (index + i)) = false) ->
  filter inFileOrder (forEachController differsFromDefault emit table index)
  = [].
Proof.
  induction table as [|[value|] rest IH]; intros index H;
    cbn [forEachController]; [reflexivity| |].
  - rewrite filter_app, IH.
    + destruct (differsFromDefault index value) eqn:D; [|reflexivity].
      cbn [filter inFileOrder emit].
      rewrite <- (Nat.add_0_r index) at 1.
      rewrite (H 0%nat value); [reflexivity|reflexivity|].
      rewrite Nat.add_0_r. exact D.
    + intros i v Hg Hd. replace (S index + i)%nat with (index + S i)%nat by lia.
      apply (H (S i) v); [exact Hg|].
      replace (index + S i)%nat with (S index + i)%nat by lia. exact Hd.
  - apply IH. intros i v Hg Hd.
    replace (S index + i)%nat with (index + S i)%nat by lia.
    apply (H (S i) v); [exact Hg|].
    replace (index + S i)%nat with (S index + i)%nat by lia. exact Hd.
Qed.

End OneChannel.

Lemma keepsNotDeferred_issued (table : list (option Z)) (i : nat) (v : Z) :
  keepsNotDeferred table ->
  arrayGet table i = Some v -> differsFromDefault i v = true ->
  isNotDeferred (Z.of_nat i) = false.
Proof.
  intros K Hg Hd. destruct (isNotDeferred (Z.of_nat i)) eqn:D; [|reflexivity].
  pose proof (K i D) as E. rewrite Hg in E. injection E as ->.
  apply isNotDeferred_iff in D. cbn [In] in D.
  assert (L : (i < 127)%nat) by lia.
  unfold differsFromDefault in Hd.
  rewrite defaultControllerArray_defaultControllers in Hd by exact L.
  rewrite Z.eqb_refl in Hd. discriminate Hd.
Qed.

Lemma restoreToSynth_other (r : Replay) (j ch : nat) (st : Synth) :
  j <> ch -> receiveAll st (restoreToSynth r j) ch = st ch.
Proof.
  intros NE. unfold restoreToSynth. rewrite receiveAll_app.
  transitivity
    (receiveAll st
       match arrayGet (pitchBends r) j with
       | Some pb =>
           [SynthPitchWheel (Z.of_nat j) (Z.shiftr pb 7) (Z.land pb 127)]
       | None => []
       end ch).
  - destruct (arrayGet (savedControllers r) j) as [table|]; [|reflexivity].
    apply forEach_other, NE.
  - destruct (arrayGet (pitchBends r) j) as [pb|]; [|reflexivity].
    cbn [receiveAll fold_left receive]. unfold onChannel. rewrite Nat2Z.id.
    destruct (Nat.eqb_spec ch j); [congruence|reflexivity].
Qed.

Lemma restoreToSynth_effect (r : Replay) (ch : nat) (st : Synth)
    (pb : Z) (table : list (option Z)) :
  arrayGet (pitchBends r) ch = Some pb ->
  arrayGet (savedControllers r) ch = Some table ->
  keepsNotDeferred table ->
  pitchWheel (receiveAll st (restoreToSynth r ch) ch) = pb
  /\ forall k,
       controllers (receiveAll st (restoreToSynth r ch) ch) k
       = match arrayGet table k with
         | Some v =>
             if differsFromDefault k v then v else controllers (st ch) k
         | None => controllers (st ch) k
         end.
Proof.
  intros Hp Ht K. unfold restoreToSynth. rewrite Hp, Ht, receiveAll_app.
  set (st1 := receiveAll st
                [SynthPitchWheel (Z.of_nat ch) (Z.shiftr pb 7) (Z.land pb 127)]).
  assert (E1 : pitchWheel (st1 ch) = pb
               /\ controllers (st1 ch) = controllers (st ch)).
  { subst st1. cbn [receiveAll fold_left receive]. unfold onChannel.
    rewrite Nat2Z.id, Nat.eqb_refl. cbn [pitchWheel controllers].
    split; [apply join_split|reflexivity]. }
  destruct E1 as [P1 C1].
  destruct (forEach_effect ch table 0 st1) as [P2 C2].
  { intros i v Hg Hd. cbn [Nat.add] in *.
    pose proof (keepsNotDeferred_issued table i v K Hg Hd) as D.
    intros E. rewrite E in D. discriminate D. }
  split; [rewrite P2; exact P1|].
  intros k. rewrite C2. cbn [Nat.ltb Nat.leb]. rewrite Nat.sub_0_r, C1.
  reflexivity.
Qed.

Lemma batch_above (r : Replay) (ch n : nat) :
  forall (a : nat) (st : Synth),
  (ch < a)%nat ->
  receiveAll st (flat_map (restoreToSynth r) (seq a n)) ch = st ch.
Proof.
  induction n as [|n IH]; intros a st H; [reflexivity|].
  cbn [seq flat_map]. rewrite receiveAll_app, IH by lia.
  apply restoreToSynth_other. lia.
Qed.

Lemma batch_channel (r : Replay) (ch n : nat) :
  forall (a : nat) (st : Synth),
  (a <= ch < a + n)%nat ->
  receiveAll st (flat_map (restoreToSynth r) (seq a n)) ch
  = receiveAll st (restoreToSynth r ch) ch.
Proof.
  induction n as [|n IH]; intros a st H; [lia|].
  cbn [seq flat_map]. rewrite receiveAll_app.
  destruct (Nat.eq_dec a ch) as [->|NE].
  - apply batch_above. lia.
  - rewrite IH by lia.
    apply receiveAll_local. apply restoreToSynth_other. exact NE.
Qed.

Lemma batch_not_in_file_order (r : Replay) (channels : list nat) :
  (forall ch table,
     arrayGet (savedControllers r) ch = Some table -> keepsNotDeferred table) ->
  filter inFileOrder (flat_map (restoreToSynth r) channels) = [].
Proof.
  intros K. induction channels as [|ch rest IH]; [reflexivity|].
  cbn [flat_map]. rewrite filter_app, IH, app_nil_r.
  unfold restoreToSynth. rewrite filter_app.
  destruct (arrayGet (pitchBends r) ch); cbn [filter inFileOrder app];
    (destruct (arrayGet (savedControllers r) ch) as [table|] eqn:Et;
     [|reflexivity]);
    apply forEach_not_in_file_order; intros i v Hg Hd;
    apply (keepsNotDeferred_issued table i v (K ch table Et) Hg Hd).
Qed.

Lemma initial_invariant (s : WorkletSequencer) :
  replayInvariant
    {| sequencer := s;
       pitchBends := repeat (Some 8192) 16;
       savedControllers := repeat (Some (arrayFrom defaultControllerArray)) 16 |}
    (fun _ => resetChannel) (fun _ => resetChannel).
Proof.
  unfold replayInvariant. cbn [pitchBends savedControllers].
  split; [|split].
  - intros ch H. do 16 (destruct ch as [|ch]; [reflexivity|]). lia.
  - intros ch H. exists (arrayFrom defaultControllerArray). split.
    + do 16 (destruct ch as [|ch]; [reflexivity|]). lia.
    + intros k Hk. destruct (isNotDeferred (Z.of_nat k)); [reflexivity|].
      split; [|reflexivity].
      unfold tableValue. rewrite arrayGet_default_table.
      destruct (k <? 127)%nat; reflexivity.
  - intros ch table Hg. unfold arrayGet in Hg.
    destruct (nth_error (repeat (Some (arrayFrom defaultControllerArray)) 16) ch)
      as [slot|] eqn:E; [|discriminate].
    apply nth_error_In, repeat_spec in E. subst slot. injection Hg as <-.
    apply default_table_keepsNotDeferred.
Qed.

(** ** The seek *)

(** Where the seek and muted playing agree.  Direct-to-synth mode, one
    port, no reset before the target tick (neither the controller change
    reset-all-controllers nor a system reset), and a seek that finds an
    event at or after the target.  The seek is [stop], the reset, the
    replay (which sends only what is not deferred), the batch, then
    [_recalculateStartTime], [play] and the two posts.  On every channel
    the 128 controllers and the pitch wheel of the synthesizer after the
    seek are those after playing the events before the target with the
    notes muted; and the messages that are not deferred (bank select, data
    entry, RPN and NRPN select, and what [_processEvent] handles: program
    changes and the rest) reach the synthesizer in the same order in both. *)
Theorem seek_equals_muted_play
    (s : WorkletSequencer) (target : Z) (st0 : Synth) :
  sendMIDIMessages s = false ->
  singlePort (playback s) ->
  eventsBefore target s validControllerNumber ->
  eventsBefore target s notAReset ->
  eventsBefore target s notASystemReset ->
  fst (fst (setTimeTicks s target)) = Returned true ->
  let seek := snd (setTimeTicks s target) in
  let muted := mutedPlay s target in
  (forall ch k, (ch < 16)%nat -> (k < 128)%nat ->
     controllers (receiveAll st0 seek ch) k
     = controllers (receiveAll st0 muted ch) k)
  /\ (forall ch, (ch < 16)%nat ->
        pitchWheel (receiveAll st0 seek ch)
        = pitchWheel (receiveAll st0 muted ch))
  /\ filter inFileOrder seek = filter inFileOrder muted
  /\ exists (r : Replay) (replayed : list Output) (time : Q),
       seek
       = [Stop; SynthResetAllControllers] ++ replayed
         ++ flat_map (restoreToSynth r)
              (seq 0 (synthChannels (playback (sequencer r))))
         ++ [RecalculateStartTime time; Play; PostTimeChange;
             PostResetRendererIndexes]
       /\ Forall (fun o => inFileOrder o = true) replayed.
Proof using processEvent_singlePort.
  intros Hs Hp Hv Hn Hr Ho seek muted. subst seek muted.
  cbv zeta.
  unfold Sequencer.setTimeTicks, Sequencer._playTo, Sequencer.mutedPlay in *.
  cbn [sendMIDIMessages set_playback] in *. rewrite Hs in *.
  set (s1 := _resetTimers _) in *.
  match goal with
  | |- context [Sequencer.replayLoop _ ?f _ _ ?r] =>
      set (fuel := f) in *; set (r0 := r) in *
  end.
  destruct (Sequencer.replayLoop _processEvent fuel 0%Q (Some target) r0)
    as [[e r] out] eqn:E.
  assert (L : e = Broke ->
              replayInvariant r
                (receiveAll (fun _ => resetChannel) out)
                (receiveAll (fun _ => resetChannel)
                   (mutedPlayLoop fuel target s1))
              /\ filter inFileOrder out
                 = filter inFileOrder (mutedPlayLoop fuel target s1)
              /\ singlePort (playback (sequencer r))
              /\ sendMIDIMessages (sequencer r) = false
              /\ Forall (fun o => inFileOrder o = true) out).
  { intros ->.
    apply (replay_loop_lockstep 0%Q target fuel r0 s1
             (fun _ => resetChannel) (fun _ => resetChannel) r out).
    - repeat split.
    - exact Hs.
    - exact Hp.
    - exact Hv.
    - exact Hn.
    - exact Hr.
    - apply initial_invariant.
    - exact E. }
  destruct e; cbn [fst snd] in Ho;
    try (destruct (sendMIDIMessages (sequencer r));
         [destruct (restoreAllToMIDI r (seq 0 16)) as [batch []]|];
         cbn [fst snd] in Ho); try discriminate Ho.
  - destruct (L eq_refl) as (_ & _ & _ & S2 & _). discriminate S2.
  - destruct (L eq_refl) as ((I1 & I2 & I3) & F & (_ & P2) & S2 & Fa).
    clear L Ho. cbn [fst snd].
    set (batch := flat_map (restoreToSynth r)
                    (seq 0 (synthChannels (playback (sequencer r))))).
    set (tail := [RecalculateStartTime (playedTime (sequencer r)); Play;
                  PostTimeChange; PostResetRendererIndexes]).
    assert (RS : forall ch,
              receiveAll st0
                (Stop :: ([SynthResetAllControllers] ++ out ++ batch) ++ tail) ch
              = receiveAll (receiveAll (fun _ => resetChannel) out)
                  (restoreToSynth r ch) ch
                \/ (16 <= ch)%nat).
    { intros ch. destruct (Nat.lt_ge_cases ch 16) as [Lc|Gc]; [left|right; exact Gc].
      cbn [receiveAll fold_left receive app].
      change (fold_left receive ((out ++ batch) ++ tail) (fun _ => resetChannel))
        with (receiveAll (fun _ => resetChannel) ((out ++ batch) ++ tail)).
      rewrite !receiveAll_app.
      unfold tail at 1. cbn [receiveAll fold_left receive].
      apply batch_channel. lia. }
    assert (RM : receiveAll st0
                   (SynthResetAllControllers :: mutedPlayLoop fuel target s1)
                 = receiveAll (fun _ => resetChannel)
                     (mutedPlayLoop fuel target s1)) by reflexivity.
    rewrite RM.
    split; [|split; [|split]].
    + intros ch k Hc Hk. destruct (RS ch) as [-> | G]; [|lia].
      destruct (I2 ch Hc) as (table & Ht & Hk').
      destruct (restoreToSynth_effect r ch
                  (receiveAll (fun _ => resetChannel) out) _ table
                  (I1 ch Hc) Ht (I3 ch table Ht)) as [_ C].
      rewrite C. specialize (Hk' k Hk).
      destruct (isNotDeferred (Z.of_nat k)) eqn:D.
      * rewrite (I3 ch table Ht k D).
        apply isNotDeferred_iff in D. cbn [In] in D.
        unfold differsFromDefault.
        rewrite defaultControllerArray_defaultControllers by lia.
        rewrite Z.eqb_refl. cbn [negb]. symmetry. exact Hk'.
      * destruct Hk' as [Hm Hsd]. rewrite Hm. unfold tableValue.
        destruct (arrayGet table k) as [v|]; [|exact Hsd].
        destruct (differsFromDefault k v) eqn:Dv; [reflexivity|].
        rewrite Hsd. unfold differsFromDefault in Dv.
        destruct (nth_error defaultControllerArray k) as [d|] eqn:Ed;
          [|discriminate Dv].
        apply negb_false_iff, Z.eqb_eq in Dv. subst d.
        assert (Lk : (k < 127)%nat).
        { change 127%nat with (length defaultControllerArray).
          apply nth_error_Some. congruence. }
        rewrite defaultControllerArray_defaultControllers in Ed by exact Lk.
        congruence.
    + intros ch Hc. destruct (RS ch) as [-> | G]; [|lia].
      destruct (I2 ch Hc) as (table & Ht & _).
      destruct (restoreToSynth_effect r ch
                  (receiveAll (fun _ => resetChannel) out) _ table
                  (I1 ch Hc) Ht (I3 ch table Ht)) as [Pw _].
      exact Pw.
    + cbn [filter inFileOrder app]. rewrite !filter_app.
      unfold batch. rewrite batch_not_in_file_order by exact I3.
      unfold tail. cbn [filter inFileOrder]. rewrite !app_nil_r. exact F.
    + exists r, out, (playedTime (sequencer r)). split; [|exact Fa].
      cbn [app]. rewrite <- app_assoc. reflexivity.
Qed.

End SeekFacts.

(** ** The seek on concrete files *)

(** C1, the code at the failing input.  Main volume 50 on channel 0 at
    tick 0, reset all controllers at tick 10, end of track at tick 100, and
    a seek to tick 50 that drives the synthesizer.  The seek returns true.
    The reset of tick 10 is sent during the replay and the main volume of
    tick 0 after it, in the batch, between the pitch wheels: the two
    controller changes reach the synthesizer in the reverse of the order of
    the file, which is the order they have when the file is played with the
    notes muted.  The synthesizer ends with main volume 50 after the seek
    and with the default 100 after muted playing. *)
Theorem seek_differs_from_muted_play :
  let s := loaded volumeThenReset false in
  let seek := setTimeTicks noPortChange s 50 in
  let muted := mutedPlay noPortChange s 50 in
  fst (fst seek) = Returned true
  /\ snd seek
     = [Stop; SynthResetAllControllers; SynthControllerChange 0 121 0;
        SynthPitchWheel 0 64 0; SynthControllerChange 0 7 50]
       ++ map (fun ch => SynthPitchWheel (Z.of_nat ch) 64 0) (seq 1 15)
       ++ [RecalculateStartTime (playedTime (snd (fst seek))); Play;
           PostTimeChange; PostResetRendererIndexes]
  /\ muted
     = [SynthResetAllControllers; SynthControllerChange 0 7 50;
        SynthControllerChange 0 121 0]
  /\ controllers (receiveAll resetSynth (snd seek) 0%nat) 7%nat = 50
  /\ controllers (receiveAll resetSynth muted 0%nat) 7%nat = 100.
Proof. vm_compute. repeat split; reflexivity. Qed.

(** The same with a system reset in the place of the controller change:
    [_processEvent] is handed the GS reset during the replay, and the main
    volume of tick 0 is sent after it. *)
Example seek_after_a_system_reset :
  let s := loaded volumeThenSystemReset false in
  let seek := snd (setTimeTicks noPortChange s 50) in
  let muted := mutedPlay noPortChange s 50 in
  filter inFileOrder seek = filter inFileOrder muted
  /\ In (SynthControllerChange 0 7 50) seek
  /\ controllers (receiveAll resetSynth seek 0%nat) 7%nat = 50
  /\ controllers (receiveAll resetSynth muted 0%nat) 7%nat = 100.
Proof. vm_compute. repeat split; try reflexivity. tauto. Qed.

(** In passthrough mode the test of the restoring loop reads the default of
    the controller whose number is the channel number: on channel 0 that
    is bank select, default 0, and a main volume of 0 is not sent, while the
    untouched expression, pan and the like are. *)
Example passthrough_drops_volume_zero :
  let out := seekOutputs (loaded volumeZero true) 50 in
  ~ In (SendMIDIMessage [0xB0; 7; 0]) out
  /\ In (SendMIDIMessage [0xB0; 11; 127]) out
  /\ In (SendMIDIMessage [0xFF]) out.
Proof.
  vm_compute. split; [|split].
  - intros H. repeat (destruct H as [H|H]; [discriminate H|]). exact H.
  - tauto.
  - tauto.
Qed.

Lemma noPortChange_singlePort (p : Playback) (event : MidiMessage)
    (trackIndex : nat) :
  singlePort p -> singlePort (noPortChange p event trackIndex).
Proof. intros H. exact H. Qed.

Lemma loaded_singlePort (trs : list (list MidiMessage)) (passthrough : bool) :
  singlePort (playback (loaded trs passthrough)).
Proof.
  split; [|cbn; lia]. intros trackIndex. unfold channelOffset. cbn.
  destruct trackIndex; reflexivity.
Qed.

Lemma seek_equals_muted_play_witness :
  controllers
    (receiveAll resetSynth
       (snd (setTimeTicks noPortChange (loaded smallFile false) 50)) 0%nat)
    7%nat
  = controllers
      (receiveAll resetSynth
         (mutedPlay noPortChange (loaded smallFile false) 50) 0%nat)
      7%nat.
Proof.
  refine (proj1
            (seek_equals_muted_play noPortChange noPortChange_singlePort
               (loaded smallFile false) 50 resetSynth eq_refl
               (loaded_singlePort smallFile false) _ _ _ _)
            0%nat 7%nat _ _).
  - intros track event [<-|[]] H L;
      repeat (destruct H as [<-|H];
              [intros _; vm_compute; split; [discriminate|reflexivity]|]);
      destruct H.
  - intros track event [<-|[]] H L;
      repeat (destruct H as [<-|H]; [intros _; vm_compute; discriminate|]);
      destruct H.
  - intros track event [<-|[]] H L;
      repeat (destruct H as [<-|H]; [vm_compute; reflexivity|]);
      destruct H.
  - vm_compute. reflexivity.
  - lia.
  - lia.
Defined.

(* ===================================================================== *)
(** * More about the seek                                                 *)
(* ===================================================================== *)

Section SeekMore.

Variable _processEvent : Playback -> MidiMessage -> nat -> Playback.

Abbreviation replayEvent := (replayEvent _processEvent).
Abbreviation replayLoop := (replayLoop _processEvent).
Abbreviation _playTo := (_playTo _processEvent).
Abbreviation setTimeTicks := (setTimeTicks _processEvent).

(** ** One event of the replay *)

Lemma replayEvent_keeps (r : Replay) (event : MidiMessage) (trackIndex : nat) :
  let s' := sequencer (fst (replayEvent r event trackIndex)) in
  tracks s' = tracks (sequencer r)
  /\ eventIndex s' = eventIndex (sequencer r)
  /\ sendMIDIMessages s' = sendMIDIMessages (sequencer r)
  /\ timeDivision s' = timeDivision (sequencer r)
  /\ playedTime s' = playedTime (sequencer r).
Proof.
  unfold Sequencer.replayEvent. cbv zeta.
  destruct (getEvent (messageStatusByte event)) as [status channel].
  repeat match goal with
         | |- context [if ?b then _ else _] => destruct b eqn:?
         end; cbn; repeat split; assumption.
Qed.

Lemma replayEvent_tables (r : Replay) (event : MidiMessage) (trackIndex : nat) :
  tablesDefined r -> tablesDefined (fst (replayEvent r event trackIndex)).
Proof.
  intros T. unfold Sequencer.replayEvent.
  destruct (getEvent (messageStatusByte event)) as [status channel].
  destruct ((status =? messageTypes.noteOn) || (status =? messageTypes.noteOff));
    [exact T|].
  destruct (status =? messageTypes.pitchBend); [exact T|].
  destruct (status =? messageTypes.controllerChange).
  - destruct (isNotDeferred (dataByte event 0)).
    + destruct (sendMIDIMessages (sequencer r)); exact T.
    + cbn [fst]. intros ch Hch. cbn [savedControllers].
      match goal with
      | |- context [arraySet (savedControllers r) ?c ?t] =>
          destruct (Nat.eq_dec c ch) as [<-|NE];
          [exists t; apply arrayGet_arraySet_eq
          |rewrite arrayGet_arraySet_ne by exact NE; apply T, Hch]
      end.
  - destruct (status =? messageTypes.midiPort); [|exact T].
    cbn [fst]. intros ch Hch. cbn [savedControllers].
    destruct (T ch Hch) as (table & Ht). exists table.
    unfold growSavedControllers. apply arrayGet_app_defined, Ht.
Qed.

(** What an event can send: a controller change that is not deferred, to
    the synthesizer or to the MIDI output, or the event itself handed to
    [_processEvent]. *)
Lemma replayEvent_outputs (r : Replay) (event : MidiMessage) (trackIndex : nat) :
  let status := fst (getEvent (messageStatusByte event)) in
  Forall
    (fun o =>
       match o with
       | ProcessEvent e i =>
           e = event /\ i = trackIndex
           /\ ~ In status [messageTypes.noteOn; messageTypes.noteOff;
                           messageTypes.pitchBend; messageTypes.controllerChange]
       | SynthControllerChange _ k _ =>
           sendMIDIMessages (sequencer r) = false /\ isNotDeferred k = true
       | SendMIDIMessage m =>
           sendMIDIMessages (sequencer r) = true
           /\ exists ch k v,
                m = [Z.lor messageTypes.controllerChange ch; k; v]
                /\ isNotDeferred k = true
       | _ => False
       end)
    (snd (replayEvent r event trackIndex)).
Proof.
  unfold Sequencer.replayEvent.
  destruct (getEvent (messageStatusByte event)) as [status channel].
  cbn [fst].
  destruct (Z.eqb_spec status messageTypes.noteOn) as [->|N1];
    [constructor|].
  destruct (Z.eqb_spec status messageTypes.noteOff) as [->|N2];
    [constructor|].
  cbn [orb].
  destruct (Z.eqb_spec status messageTypes.pitchBend) as [->|N3];
    [constructor|].
  destruct (Z.eqb_spec status messageTypes.controllerChange) as [->|N4].
  - destruct (isNotDeferred (dataByte event 0)) eqn:D; [|constructor].
    destruct (sendMIDIMessages (sequencer r)) eqn:Sm; cbn [snd];
      repeat constructor; try exact D.
    eexists _, _, _. split; [reflexivity|exact D].
  - assert (NI : ~ In status [messageTypes.noteOn; messageTypes.noteOff;
                              messageTypes.pitchBend;
                              messageTypes.controllerChange]).
    { cbn [In]. intros [H|[H|[H|[H|[]]]]]; congruence. }
    destruct (status =? messageTypes.midiPort); cbn [snd];
      repeat constructor; exact NI.
Qed.

(** ** The loop, by invariant *)

(** With no event at the cursors the loop is left at once, nothing done. *)
Lemma replayLoop_without_event (time : Q) (target : option Z) (fuel : nat)
    (r : Replay) :
  eventAt (sequencer r) (_findFirstEventIndex (sequencer r)) = None ->
  exists e,
    replayLoop (S fuel) time target r = (e, r, [])
    /\ (e = Threw \/ (e = Broke /\ target = None)).
Proof.
  intros E. cbn [Sequencer.replayLoop]. rewrite E.
  destruct target as [ticksTarget|].
  - exists Threw. split; [reflexivity|left; reflexivity].
  - destruct (nth_error (tracks (sequencer r))
                (_findFirstEventIndex (sequencer r))).
    + destruct (Qle_bool time (playedTime (sequencer r))).
      * exists Broke. split; [reflexivity|right; split; reflexivity].
      * exists Threw. split; [reflexivity|left; reflexivity].
    + exists Threw. split; [reflexivity|left; reflexivity].
Qed.

Section LoopInvariant.

Variable time : Q.
Variable target : option Z.
Variable Inv : Replay -> Prop.
Variable Out : Output -> Prop.

Hypothesis step :
  forall r event,
    Inv r ->
    eventAt (sequencer r) (_findFirstEventIndex (sequencer r)) = Some event ->
    reached time target (sequencer r) event = false ->
    Forall Out
      (snd (replayEvent r event (_findFirstEventIndex (sequencer r))))
    /\ forall pt,
         Inv (advance
                (fst (replayEvent r event (_findFirstEventIndex (sequencer r))))
                (_findFirstEventIndex (sequencer r)) pt).
Hypothesis stop : Out Stop.

Lemma replayLoop_keeps (fuel : nat) :
  forall r,
  Inv r ->
  Inv (snd (fst (replayLoop fuel time target r)))
  /\ Forall Out (snd (replayLoop fuel time target r)).
Proof using step stop.
  induction fuel as [|fuel IH]; intros r I; [split; [exact I|constructor]|].
  pose proof (step r) as St.
  destruct (eventAt (sequencer r) (_findFirstEventIndex (sequencer r)))
    as [event|] eqn:Ee.
  2:{ destruct (replayLoop_without_event time target fuel r Ee) as (e & -> & _).
      split; [exact I|constructor]. }
  cbn [Sequencer.replayLoop]. rewrite Ee.
  set (trackIndex := _findFirstEventIndex (sequencer r)) in *.
  specialize (St event I eq_refl). unfold reached in St.
  match goal with
  | |- context [if ?b then _ else _] => destruct b
  end; [split; [exact I|constructor]|].
  destruct (St eq_refl) as [Ho Hi]. clear St.
  destruct (replayEvent r event trackIndex) as [r1 out1]. cbn [fst snd] in *.
  set (s1 := set_eventIndex (increment (eventIndex (sequencer r1)) trackIndex)
               (sequencer r1)) in *.
  destruct (eventAt s1 (_findFirstEventIndex s1)) as [nextEvent|].
  - match goal with
    | |- context [Sequencer.replayLoop _ fuel time target ?r2] =>
        specialize (IH r2 (Hi _));
        destruct (Sequencer.replayLoop _processEvent fuel time target r2)
          as [[e r3] out3]
    end.
    cbn [fst snd] in *. destruct IH as [I3 O3].
    split; [exact I3|]. apply Forall_app. split; assumption.
  - cbn [fst snd]. split.
    + exact (Hi (playedTime s1)).
    + apply Forall_app. split; [exact Ho|]. repeat constructor. exact stop.
Qed.

End LoopInvariant.

(** ** How the loop is left *)

Lemma replayLoop_throws_at_once (time : Q) (target : option Z) (fuel : nat) :
  forall r,
  fst (fst (replayLoop fuel time target r)) = Threw ->
  eventAt (sequencer r) (_findFirstEventIndex (sequencer r)) = None.
Proof.
  induction fuel as [|fuel IH]; intros r E; [discriminate E|].
  cbn [Sequencer.replayLoop] in E.
  destruct (eventAt (sequencer r) (_findFirstEventIndex (sequencer r)))
    as [event|]; [exfalso|reflexivity].
  match type of E with
  | context [if ?b then _ else _] => destruct b; [discriminate E|]
  end.
  destruct (replayEvent r event (_findFirstEventIndex (sequencer r)))
    as [r1 out1].
  match type of E with
  | context [match eventAt ?s ?i with _ => _ end] =>
      destruct (eventAt s i) as [nextEvent|] eqn:En; [|discriminate E]
  end.
  match type of E with
  | context [Sequencer.replayLoop _ fuel time target ?r2] =>
      specialize (IH r2);
      destruct (Sequencer.replayLoop _processEvent fuel time target r2)
        as [[e r3] out3]
  end.
  cbn [fst] in E, IH. specialize (IH E).
  change (eventAt _ _ = None) with
    (eventAt
       (set_eventIndex
          (increment (eventIndex (sequencer r1))
             (_findFirstEventIndex (sequencer r)))
          (sequencer r1))
       (_findFirstEventIndex
          (set_eventIndex
             (increment (eventIndex (sequencer r1))
                (_findFirstEventIndex (sequencer r)))
             (sequencer r1))) = None) in IH.
  congruence.
Qed.

Lemma replayLoop_no_event (time : Q) (ticksTarget : Z) (fuel : nat)
    (r : Replay) :
  eventAt (sequencer r) (_findFirstEventIndex (sequencer r)) = None ->
  replayLoop (S fuel) time (Some ticksTarget) r = (Threw, r, []).
Proof.
  intros E. cbn [Sequencer.replayLoop]. rewrite E. reflexivity.
Qed.

(** With a target in ticks the loop breaks at an event that has reached
    the target; it ends the file after a [Stop], and then, as when it
    throws, no event is found. *)
Lemma replayLoop_leaves (time : Q) (ticksTarget : Z) (fuel : nat) :
  forall r,
  let e := fst (fst (replayLoop fuel time (Some ticksTarget) r)) in
  let r' := snd (fst (replayLoop fuel time (Some ticksTarget) r)) in
  let out := snd (replayLoop fuel time (Some ticksTarget) r) in
  (e = Broke ->
   exists event,
     eventAt (sequencer r') (_findFirstEventIndex (sequencer r')) = Some event
     /\ reached time (Some ticksTarget) (sequencer r') event = true)
  /\ (e = EndOfFile -> exists out', out = out' ++ [Stop])
  /\ (e = EndOfFile \/ e = Threw ->
      eventAt (sequencer r') (_findFirstEventIndex (sequencer r')) = None).
Proof.
  induction fuel as [|fuel IH]; intros r.
  { cbn. split; [discriminate|]. split; [discriminate|].
    intros [H|H]; discriminate H. }
  cbn [Sequencer.replayLoop].
  destruct (eventAt (sequencer r) (_findFirstEventIndex (sequencer r)))
    as [event|] eqn:Ee.
  2:{ cbn [fst snd]. split; [discriminate|]. split; [discriminate|].
      intros _. exact Ee. }
  destruct (reached time (Some ticksTarget) (sequencer r) event) eqn:Er;
    unfold reached in Er; rewrite Er.
  { cbn [fst snd]. split; [|split; [discriminate|]].
    - intros _. exists event. split; [exact Ee|]. unfold reached. exact Er.
    - intros [H|H]; discriminate H. }
  destruct (replayEvent r event (_findFirstEventIndex (sequencer r)))
    as [r1 out1].
  match goal with
  | |- context [match eventAt ?s ?i with _ => _ end] =>
      destruct (eventAt s i) as [nextEvent|] eqn:En
  end.
  - match goal with
    | |- context [Sequencer.replayLoop _ fuel time (Some ticksTarget) ?r2] =>
        specialize (IH r2);
        destruct (Sequencer.replayLoop _processEvent fuel time (Some ticksTarget) r2)
          as [[e r3] out3]
    end.
    cbn [fst snd] in *. destruct IH as (IB & IE & IN).
    split; [exact IB|]. split; [|exact IN].
    intros E. destruct (IE E) as (out' & ->).
    exists (out1 ++ out'). rewrite app_assoc. reflexivity.
  - cbn [fst snd sequencer]. split; [discriminate|]. split.
    + intros _. exists out1. reflexivity.
    + intros _. exact En.
Qed.

(** ** The parts of [_playTo] *)

Lemma playTo_parts (s : WorkletSequencer) (time : Q) (target : option Z) :
  let s1 := _resetTimers s in
  let r0 :=
    startOfReplay
      (_resetTimers
         (set_playback
            (set_oneTickToSeconds (60 / (120 * inject_Z (timeDivision s)))%Q
               (playback s)) s)) in
  let loop := replayLoop (S (eventsLeft (tracks s1) (eventIndex s1))) time target r0 in
  let e := fst (fst loop) in
  let r := snd (fst loop) in
  let reset :=
    SynthResetAllControllers
    :: (if sendMIDIMessages s then [SendMIDIMessage [messageTypes.reset]] else []) in
  snd (fst (_playTo s time target)) = sequencer r
  /\ snd (_playTo s time target)
     = reset ++ snd loop
       ++ match e with
          | Broke =>
              if sendMIDIMessages (sequencer r)
              then fst (restoreAllToMIDI r (seq 0 16))
              else flat_map (restoreToSynth r)
                     (seq 0 (synthChannels (playback (sequencer r))))
          | _ => []
          end
  /\ fst (fst (_playTo s time target))
     = match e with
       | Broke =>
           if sendMIDIMessages (sequencer r)
           then if snd (restoreAllToMIDI r (seq 0 16))
                then Returned true else TypeError
           else Returned true
       | EndOfFile => Returned false
       | Threw => TypeError
       | FuelOut => OutOfFuel
       end.
Proof.
  intros s1 r0 loop e r reset. unfold Sequencer._playTo.
  change (Sequencer.replayLoop _processEvent _ time target _) with loop.
  subst e r. destruct loop as [[e r] out]. cbn [fst snd].
  destruct e; cbn [fst snd]; rewrite ?app_nil_r.
  - destruct (sendMIDIMessages (sequencer r)).
    + destruct (restoreAllToMIDI r (seq 0 16)) as [batch completed].
      cbn [fst snd]. repeat split.
    + cbn [fst snd]. repeat split.
  - repeat split.
  - repeat split.
  - repeat split.
Qed.

(** The restoring loops send pitch wheels and controller changes only. *)
Lemma forEachController_Forall (P : Output -> Prop) (test : nat -> Z -> bool)
    (emit : nat -> Z -> Output) (table : list (option Z)) :
  (forall index value, P (emit index value)) ->
  forall index, Forall P (forEachController test emit table index).
Proof.
  intros He. induction table as [|[value|] rest IH]; intros index;
    cbn [forEachController]; [constructor| |apply IH].
  apply Forall_app. split; [|apply IH].
  destruct (test index value); repeat constructor. apply He.
Qed.

Lemma restoreToSynth_Forall (r : Replay) (channels : list nat) :
  Forall
    (fun o =>
       match o with
       | SynthPitchWheel _ _ _ | SynthControllerChange _ _ _ => True
       | _ => False
       end)
    (flat_map (restoreToSynth r) channels).
Proof.
  induction channels as [|ch rest IH]; [constructor|].
  cbn [flat_map]. apply Forall_app. split; [|exact IH].
  unfold restoreToSynth. apply Forall_app. split.
  - destruct (arrayGet (pitchBends r) ch); repeat constructor.
  - destruct (arrayGet (savedControllers r) ch); [|constructor].
    apply forEachController_Forall. intros; exact I.
Qed.

Lemma restoreAllToMIDI_Forall (r : Replay) (channels : list nat) :
  Forall (fun o => match o with SendMIDIMessage _ => True | _ => False end)
    (fst (restoreAllToMIDI r channels)).
Proof.
  induction channels as [|ch rest IH]; [constructor|].
  cbn [restoreAllToMIDI]. unfold restoreToMIDI.
  destruct (arrayGet (savedControllers r) ch); [|constructor].
  destruct (restoreAllToMIDI r rest) as [out' completed]. cbn [fst] in *.
  apply Forall_app. split; [|exact IH].
  constructor; [exact I|]. apply forEachController_Forall. intros; exact I.
Qed.

Lemma restoreAllToMIDI_completes (r : Replay) (channels : list nat) :
  tablesDefined r ->
  Forall (fun ch => (ch < 16)%nat) channels ->
  snd (restoreAllToMIDI r channels) = true.
Proof.
  intros T. induction channels as [|ch rest IH]; intros F; [reflexivity|].
  inversion F as [|? ? Hch Hrest]; subst.
  cbn [restoreAllToMIDI]. unfold restoreToMIDI.
  destruct (T ch Hch) as (table & ->).
  specialize (IH Hrest).
  destruct (restoreAllToMIDI r rest) as [out' completed]. exact IH.
Qed.

Lemma startOfReplay_tables (s : WorkletSequencer) : tablesDefined (startOfReplay s).
Proof.
  intros ch Hch. exists (arrayFrom defaultControllerArray).
  unfold startOfReplay. cbn [savedControllers].
  do 16 (destruct ch as [|ch]; [reflexivity|]). lia.
Qed.

Lemma seq_below (n : nat) : Forall (fun ch => (ch < n)%nat) (seq 0 n).
Proof. apply Forall_forall. intros ch H. apply in_seq in H. lia. Qed.

(** X13. The loop of [_playTo] ends, called with a tick target or through
    [setTimeTicks]: every iteration that goes on moves a cursor past an
    event, so the call returns a boolean or throws the TypeError of reading
    an event that is not there. *)
Theorem playTo_terminates (s : WorkletSequencer) (time : Q) (ticksTarget : Z) :
  (fst (fst (_playTo s time (Some ticksTarget))) = TypeError
   \/ exists isNotFinished,
        fst (fst (_playTo s time (Some ticksTarget))) = Returned isNotFinished)
  /\ (fst (fst (setTimeTicks s ticksTarget)) = TypeError
      \/ exists isNotFinished,
           fst (fst (setTimeTicks s ticksTarget)) = Returned isNotFinished).
Proof.
  assert (P : forall time',
            fst (fst (_playTo s time' (Some ticksTarget))) = TypeError
            \/ exists isNotFinished,
                 fst (fst (_playTo s time' (Some ticksTarget)))
                 = Returned isNotFinished).
  { intros time'.
    pose proof (playTo_has_fuel _processEvent s time' (Some ticksTarget)) as F.
    destruct (fst (fst (_playTo s time' (Some ticksTarget)))) as [b| |];
      [right; exists b; reflexivity|left; reflexivity|congruence]. }
  split; [apply P|].
  specialize (P 0%Q). unfold Sequencer.setTimeTicks.
  destruct (_playTo s 0%Q (Some ticksTarget)) as [[outcome s1] out].
  cbn [fst] in P.
  destruct P as [->|(b & ->)]; [left; reflexivity|].
  right. exists b. destruct b; reflexivity.
Qed.

(** X14. During a seek [_processEvent] is called only with events that are
    not note-on, note-off, pitch-bend or controller-change messages, each
    with the index of the track it belongs to, and only with events whose
    tick is below the target. *)
Theorem playTo_skips_channel_events
    (s : WorkletSequencer) (time : Q) (ticksTarget : Z)
    (event : MidiMessage) (trackIndex : nat) :
  In (ProcessEvent event trackIndex) (snd (_playTo s time (Some ticksTarget))) ->
  ~ In (fst (getEvent (messageStatusByte event)))
       [messageTypes.noteOn; messageTypes.noteOff; messageTypes.pitchBend;
        messageTypes.controllerChange]
  /\ (exists track,
        nth_error (tracks s) trackIndex = Some track /\ In event track)
  /\ ticks event < ticksTarget.
Proof.
  intros H. set (target := Some ticksTarget) in *.
  destruct (playTo_parts s time target) as (_ & Eo & _). cbv zeta in Eo.
  rewrite Eo in H. clear Eo.
  set (P := fun o =>
              match o with
              | ProcessEvent e i =>
                  ~ In (fst (getEvent (messageStatusByte e)))
                       [messageTypes.noteOn; messageTypes.noteOff;
                        messageTypes.pitchBend; messageTypes.controllerChange]
                  /\ (exists track,
                        nth_error (tracks s) i = Some track /\ In e track)
                  /\ ticks e < ticksTarget
              | _ => True
              end).
  enough (F : Forall P
                (snd (replayLoop
                        (S (eventsLeft (tracks (_resetTimers s))
                              (eventIndex (_resetTimers s))))
                        time target
                        (startOfReplay
                           (_resetTimers
                              (set_playback
                                 (set_oneTickToSeconds
                                    (60 / (120 * inject_Z (timeDivision s)))%Q
                                    (playback s)) s)))))).
  { apply in_app_or in H. destruct H as [H|H].
    - cbn [In] in H. destruct H as [H|H]; [discriminate H|].
      destruct (sendMIDIMessages s); cbn [In] in H;
        [destruct H as [H|[]]; discriminate H|destruct H].
    - apply in_app_or in H. destruct H as [H|H].
      + rewrite Forall_forall in F. exact (F _ H).
      + exfalso.
        match type of H with
        | In _ (match ?e with _ => _ end) => destruct e
        end; try exact H.
        match type of H with
        | In _ (if ?b then _ else _) => destruct b
        end.
        * match type of H with
          | In _ (fst (restoreAllToMIDI ?r ?c)) =>
              pose proof (restoreAllToMIDI_Forall r c) as Fa
          end.
          rewrite Forall_forall in Fa. exact (Fa _ H).
        * match type of H with
          | In _ (flat_map (restoreToSynth ?r) ?c) =>
              pose proof (restoreToSynth_Forall r c) as Fa
          end.
          rewrite Forall_forall in Fa. exact (Fa _ H). }
  apply (replayLoop_keeps time target
           (fun r => tracks (sequencer r) = tracks s) P).
  - intros r ev Kept Ee Er. split.
    + pose proof (replayEvent_outputs r ev (_findFirstEventIndex (sequencer r)))
        as Fo.
      cbv zeta in Fo. eapply Forall_impl; [|exact Fo].
      intros o Ho. destruct o; try exact I.
      destruct Ho as (-> & -> & Hn). unfold P.
      split; [exact Hn|]. split.
      * unfold eventAt in Ee. rewrite Kept in Ee.
        destruct (nth_error (tracks s) (_findFirstEventIndex (sequencer r)))
          as [track|]; [|discriminate Ee].
        destruct (nth_error (eventIndex (sequencer r))
                    (_findFirstEventIndex (sequencer r))) as [cursor|];
          [|discriminate Ee].
        exists track. split; [reflexivity|].
        eapply nth_error_In. exact Ee.
      * unfold reached, target in Er.
        rewrite Z.geb_leb in Er. apply Z.leb_gt in Er. exact Er.
    + intros pt. unfold advance.
      cbn [sequencer tracks set_playedTime set_eventIndex].
      destruct (replayEvent_keeps r ev (_findFirstEventIndex (sequencer r)))
        as (Tr & _).
      rewrite Tr. exact Kept.
  - exact I.
  - reflexivity.
Qed.

(** The outputs of the loop, by mode. *)
Lemma replayLoop_one_way (time : Q) (target : option Z) (fuel : nat)
    (r : Replay) (b : bool) :
  sendMIDIMessages (sequencer r) = b ->
  sendMIDIMessages (sequencer (snd (fst (replayLoop fuel time target r)))) = b
  /\ Forall
       (fun o =>
          match o with
          | SynthControllerChange _ k _ => b = false /\ isNotDeferred k = true
          | SendMIDIMessage m =>
              b = true
              /\ exists ch k v,
                   m = [Z.lor messageTypes.controllerChange ch; k; v]
                   /\ isNotDeferred k = true
          | ProcessEvent _ _ | Stop => True
          | _ => False
          end)
       (snd (replayLoop fuel time target r)).
Proof.
  intros Hb.
  apply (replayLoop_keeps time target
           (fun r => sendMIDIMessages (sequencer r) = b)); [|exact I|exact Hb].
  intros r0 ev Mode Ee Er. split.
  - pose proof (replayEvent_outputs r0 ev (_findFirstEventIndex (sequencer r0)))
      as Fo.
    cbv zeta in Fo. eapply Forall_impl; [|exact Fo].
    intros o Ho. destruct o; try exact Ho; try exact I.
    + destruct Ho as [Hs Hd]. split; congruence.
    + destruct Ho as [Hs Hm]. split; [congruence|exact Hm].
  - intros pt. unfold advance.
    cbn [sequencer sendMIDIMessages set_playedTime set_eventIndex].
    destruct (replayEvent_keeps r0 ev (_findFirstEventIndex (sequencer r0)))
      as (_ & _ & Sm & _).
    rewrite Sm. exact Mode.
Qed.

(** X15. [_playTo] resets the controllers of the synthesizer first, in both
    modes.  After that, with [sendMIDIMessages] set [_playTo] itself calls
    nothing more on the synthesizer (no controller change, no pitch wheel, no
    reset); without it, it sends no MIDI message.  What [_processEvent] does
    with the events handed to it is its own. *)
Theorem playTo_sends_one_way
    (s : WorkletSequencer) (time : Q) (ticksTarget : Z) :
  let out := snd (_playTo s time (Some ticksTarget)) in
  hd_error out = Some SynthResetAllControllers
  /\ (sendMIDIMessages s = true ->
      Forall
        (fun o =>
           match o with
           | SynthResetAllControllers | SynthControllerChange _ _ _
           | SynthPitchWheel _ _ _ => False
           | _ => True
           end)
        (tl out))
  /\ (sendMIDIMessages s = false ->
      Forall
        (fun o =>
           match o with
           | SynthResetAllControllers | SendMIDIMessage _ => False
           | _ => True
           end)
        (tl out)).
Proof.
  intros out. set (target := Some ticksTarget) in *.
  destruct (playTo_parts s time target) as (_ & Eo & _). cbv zeta in Eo.
  subst out. rewrite Eo. clear Eo. cbn [app hd_error tl].
  split; [reflexivity|].
  match goal with
  | |- context [Sequencer.replayLoop _ ?f time target ?r0] =>
      pose proof (replayLoop_one_way time target f r0 (sendMIDIMessages s)
                    eq_refl) as [Hs Hf];
      destruct (Sequencer.replayLoop _processEvent f time target r0)
        as [[e r] out]
  end.
  cbn [fst snd] in *. rewrite Forall_forall in Hf.
  split; intros Sm; apply Forall_forall; intros o H;
    rewrite Sm in H, Hs, Hf; rewrite ?Hs in H; cbn [app] in H.
  - destruct H as [<-|H]; [exact I|].
    apply in_app_or in H. destruct H as [H|H].
    + specialize (Hf o H). destruct o; try exact I; try exact Hf.
      destruct Hf; discriminate.
    + destruct e; try (destruct H).
      pose proof (restoreAllToMIDI_Forall r (seq 0 16)) as Fa.
      rewrite Forall_forall in Fa. specialize (Fa o H).
      destruct o; try exact I; exact Fa.
  - apply in_app_or in H. destruct H as [H|H].
    + specialize (Hf o H). destruct o; try exact I; try exact Hf.
      destruct Hf; discriminate.
    + destruct e; try (destruct H).
      pose proof (restoreToSynth_Forall r
                    (seq 0 (synthChannels (playback (sequencer r))))) as Fa.
      rewrite Forall_forall in Fa. specialize (Fa o H).
      destruct o; try exact I; exact Fa.
Qed.

(** X16. [_playTo] with a tick target throws exactly when there is no event
    at the rewound cursors ([event.ticks] is read of [undefined]), and it has
    sent nothing but the reset then; in particular it throws on a file whose
    tracks are all empty.  Once the loop has been left by its [break], the
    restoring loop of the MIDI branch finds the sixteen saved tables. *)
Theorem playTo_throws_only_without_event
    (s : WorkletSequencer) (time : Q) (ticksTarget : Z) :
  let s1 := _resetTimers s in
  let r := _playTo s time (Some ticksTarget) in
  (fst (fst r) = TypeError <-> eventAt s1 (_findFirstEventIndex s1) = None)
  /\ (eventAt s1 (_findFirstEventIndex s1) = None ->
      snd r
      = SynthResetAllControllers
        :: (if sendMIDIMessages s
            then [SendMIDIMessage [messageTypes.reset]] else []))
  /\ ((forall track, In track (tracks s) -> track = []) ->
      fst (fst r) = TypeError).
Proof.
  intros s1 r. subst r. set (target := Some ticksTarget) in *.
  destruct (playTo_parts s time target) as (_ & Eo & Ee). cbv zeta in Eo, Ee.
  fold s1 in Eo, Ee.
  set (r0 := startOfReplay
               (_resetTimers
                  (set_playback
                     (set_oneTickToSeconds
                        (60 / (120 * inject_Z (timeDivision s)))%Q
                        (playback s)) s))) in *.
  set (fuel := eventsLeft (tracks s1) (eventIndex s1)) in *.
  assert (Back : eventAt s1 (_findFirstEventIndex s1) = None ->
                 replayLoop (S fuel) time target r0 = (Threw, r0, [])).
  { intros E. unfold target. apply replayLoop_no_event. exact E. }
  assert (Iff : fst (fst (_playTo s time target)) = TypeError
                <-> eventAt s1 (_findFirstEventIndex s1) = None).
  { split.
    - intros T. rewrite Ee in T.
      pose proof (replayLoop_throws_at_once time target (S fuel) r0) as Th.
      assert (Tk : tablesDefined
                     (snd (fst (replayLoop (S fuel) time target r0)))).
      { apply (replayLoop_keeps time target tablesDefined (fun _ => True)).
        - intros r ev Tr _ _. split.
          + apply Forall_forall. intros; exact I.
          + intros pt. exact (replayEvent_tables r ev _ Tr).
        - exact I.
        - apply startOfReplay_tables. }
      destruct (replayLoop (S fuel) time target r0) as [[e r] out].
      cbn [fst snd] in *. destruct e; try discriminate T.
      + exfalso. destruct (sendMIDIMessages (sequencer r)); [|discriminate T].
        rewrite (restoreAllToMIDI_completes r (seq 0 16) Tk (seq_below 16)) in T.
        discriminate T.
      + exact (Th eq_refl).
    - intros E. rewrite Ee, (Back E). reflexivity. }
  split; [exact Iff|]. split.
  - intros E. rewrite Eo, (Back E). cbn [fst snd]. rewrite app_nil_r.
    reflexivity.
  - intros Em. apply Iff. unfold eventAt.
    destruct (nth_error (tracks s1) (_findFirstEventIndex s1)) as [track|] eqn:Et;
      [|reflexivity].
    destruct (nth_error (eventIndex s1) (_findFirstEventIndex s1)) as [cursor|];
      [|reflexivity].
    apply nth_error_In in Et. rewrite (Em track Et). destruct cursor; reflexivity.
Qed.

(** ** The cursors *)

Lemma increment_length (cursors : list nat) :
  forall trackIndex, length (increment cursors trackIndex) = length cursors.
Proof.
  induction cursors as [|c rest IH]; intros [|k]; cbn; try reflexivity.
  rewrite IH. reflexivity.
Qed.

Lemma increment_nth_error (cursors : list nat) :
  forall trackIndex i,
  nth_error (increment cursors trackIndex) i
  = if Nat.eqb trackIndex i then option_map S (nth_error cursors i)
    else nth_error cursors i.
Proof.
  induction cursors as [|c rest IH]; intros [|k] [|i]; cbn; try reflexivity.
  - destruct (Nat.eqb k i); reflexivity.
  - apply IH.
Qed.

(** The file is kept, and no cursor passes the end of its track. *)
Lemma replayLoop_cursors (s : WorkletSequencer) (time : Q) (target : option Z)
    (fuel : nat) (r : Replay) :
  let kept (r : Replay) :=
    tracks (sequencer r) = tracks s
    /\ sendMIDIMessages (sequencer r) = sendMIDIMessages s
    /\ timeDivision (sequencer r) = timeDivision s
    /\ length (eventIndex (sequencer r)) = length (tracks s)
    /\ forall i track cursor,
         nth_error (tracks s) i = Some track ->
         nth_error (eventIndex (sequencer r)) i = Some cursor ->
         (cursor <= length track)%nat in
  kept r -> kept (snd (fst (replayLoop fuel time target r))).
Proof.
  intros kept K.
  apply (replayLoop_keeps time target kept (fun _ => True)); [|exact I|exact K].
  clear r K. intros r ev (Kt & Ks & Kd & Kl & Kc) Ee _. split.
  - apply Forall_forall. intros; exact I.
  - intros pt. unfold kept, advance.
    cbn [sequencer tracks sendMIDIMessages timeDivision eventIndex
         set_playedTime set_eventIndex].
    destruct (replayEvent_keeps r ev (_findFirstEventIndex (sequencer r)))
      as (Tr & Ei & Sm & Td & _).
    rewrite Tr, Ei, Sm, Td, increment_length.
    split; [exact Kt|]. split; [exact Ks|]. split; [exact Kd|].
    split; [exact Kl|].
    intros i track cursor Ht Hc. rewrite increment_nth_error in Hc.
    destruct (Nat.eqb_spec (_findFirstEventIndex (sequencer r)) i) as [<-|NE];
      [|exact (Kc i track cursor Ht Hc)].
    unfold eventAt in Ee. rewrite Kt, Ht in Ee.
    destruct (nth_error (eventIndex (sequencer r))
                (_findFirstEventIndex (sequencer r))) as [c|];
      [|discriminate Hc].
    cbn in Hc. injection Hc as <-.
    assert (c < length track)%nat by (apply nth_error_Some; congruence).
    lia.
Qed.

Lemma startOfReplay_cursors (s : WorkletSequencer) (p : Playback) :
  let r := startOfReplay (_resetTimers (set_playback p s)) in
  tracks (sequencer r) = tracks s
  /\ sendMIDIMessages (sequencer r) = sendMIDIMessages s
  /\ timeDivision (sequencer r) = timeDivision s
  /\ length (eventIndex (sequencer r)) = length (tracks s)
  /\ forall i track cursor,
       nth_error (tracks s) i = Some track ->
       nth_error (eventIndex (sequencer r)) i = Some cursor ->
       (cursor <= length track)%nat.
Proof.
  cbn. split; [reflexivity|]. split; [reflexivity|]. split; [reflexivity|].
  split; [apply repeat_length|].
  intros i track cursor _ Hc. apply nth_error_In, repeat_spec in Hc. lia.
Qed.

(** X17. A seek keeps the file: after [_playTo] the tracks,
    [sendMIDIMessages] and the time division are what they were, there is one
    cursor per track, and no cursor is past the end of its track. *)
Theorem playTo_keeps_the_file
    (s : WorkletSequencer) (time : Q) (ticksTarget : Z) :
  let s' := snd (fst (_playTo s time (Some ticksTarget))) in
  tracks s' = tracks s
  /\ sendMIDIMessages s' = sendMIDIMessages s
  /\ timeDivision s' = timeDivision s
  /\ length (eventIndex s') = length (tracks s)
  /\ forall i track cursor,
       nth_error (tracks s) i = Some track ->
       nth_error (eventIndex s') i = Some cursor ->
       (cursor <= length track)%nat.
Proof.
  intros s'. subst s'.
  destruct (playTo_parts s time (Some ticksTarget)) as (Es & _). cbv zeta in Es.
  rewrite Es.
  apply (replayLoop_cursors s), startOfReplay_cursors.
Qed.

(** X18. A seek past the last event.  When every event of the file is
    before the target tick (and there is an event at the rewound cursors),
    the replay reaches the end of the file, [_playTo] returns false and
    [setTimeTicks] does not call [play]; what the replay saved is never sent:
    no pitch wheel, only controller changes that are not deferred, and on
    the MIDI output only the reset and such controller changes. *)
Theorem seek_past_the_end (s : WorkletSequencer) (ticksTarget : Z) :
  let s1 := _resetTimers s in
  let r := setTimeTicks s ticksTarget in
  eventAt s1 (_findFirstEventIndex s1) <> None ->
  (forall track event,
     In track (tracks s) -> In event track -> ticks event < ticksTarget) ->
  fst (fst r) = Returned false
  /\ ~ In Play (snd r)
  /\ (forall channel MSB LSB, ~ In (SynthPitchWheel channel MSB LSB) (snd r))
  /\ (forall channel controllerNumber value,
        In (SynthControllerChange channel controllerNumber value) (snd r) ->
        isNotDeferred controllerNumber = true)
  /\ (forall message,
        In (SendMIDIMessage message) (snd r) ->
        message = [messageTypes.reset]
        \/ exists channel controllerNumber value,
             message = [Z.lor messageTypes.controllerChange channel;
                        controllerNumber; value]
             /\ isNotDeferred controllerNumber = true).
Proof.
  intros s1 r Hev Hall. subst r. unfold Sequencer.setTimeTicks.
  set (target := Some ticksTarget).
  destruct (playTo_parts s 0%Q target) as (Es & Eo & Ee). cbv zeta in Es, Eo, Ee.
  fold s1 in Es, Eo, Ee.
  set (r0 := startOfReplay
               (_resetTimers
                  (set_playback
                     (set_oneTickToSeconds
                        (60 / (120 * inject_Z (timeDivision s)))%Q
                        (playback s)) s))) in *.
  set (fuel := S (eventsLeft (tracks s1) (eventIndex s1))) in *.
  pose proof (replayLoop_has_fuel _processEvent 0%Q target fuel r0) as Hf.
  pose proof (replayLoop_throws_at_once 0%Q target fuel r0) as Ht.
  pose proof (replayLoop_leaves 0%Q ticksTarget fuel r0) as Hl. cbv zeta in Hl.
  fold target in Hl.
  pose proof (replayLoop_cursors s 0%Q target fuel r0
                (startOfReplay_cursors s _)) as (Hk & _).
  pose proof (replayLoop_one_way 0%Q target fuel r0 _ eq_refl) as [_ Ho].
  rewrite Forall_forall in Ho.
  destruct (replayLoop fuel 0%Q target r0) as [[e r] out].
  cbn [fst snd] in *.
  assert (E : e = EndOfFile).
  { destruct e; [exfalso| reflexivity |exfalso|exfalso].
    - destruct (proj1 Hl eq_refl) as (event & Ea & Er).
      apply eventAt_In in Ea. destruct Ea as (track & It & Ie).
      rewrite Hk in It. specialize (Hall track event It Ie).
      unfold reached, target in Er. rewrite Z.geb_leb in Er.
      apply Z.leb_le in Er. lia.
    - apply Hev. exact (Ht eq_refl).
    - apply Hf; [|reflexivity].
      unfold fuel, r0, s1, startOfReplay, _resetTimers.
      cbn [sequencer tracks eventIndex set_eventIndex set_playedTime
           set_playback].
      lia. }
  subst e.
  destruct (Sequencer._playTo _processEvent s 0%Q target) as [[outcome s'] out'].
  cbn [fst snd] in Es, Eo, Ee. subst outcome out'. cbn [fst snd].
  rewrite app_nil_r.
  assert (Cases : forall o,
            In o (Stop
                  :: ((SynthResetAllControllers
                       :: (if sendMIDIMessages s
                           then [SendMIDIMessage [messageTypes.reset]]
                           else [])) ++ out)
                     ++ [RecalculateStartTime (playedTime s')]) ->
            o = Stop \/ o = SynthResetAllControllers
            \/ o = SendMIDIMessage [messageTypes.reset]
            \/ o = RecalculateStartTime (playedTime s')
            \/ In o out).
  { intros o [<-|H]; [tauto|].
    apply in_app_or in H. destruct H as [H|[<-|[]]]; [|tauto].
    apply in_app_or in H. destruct H as [[<-|H]|H]; [tauto| |tauto].
    destruct (sendMIDIMessages s); [destruct H as [<-|[]]; tauto|destruct H]. }
  split; [reflexivity|]. split; [|split; [|split]].
  - intros H. apply Cases in H.
    destruct H as [H|[H|[H|[H|H]]]]; try discriminate H.
    exact (Ho _ H).
  - intros channel MSB LSB H. apply Cases in H.
    destruct H as [H|[H|[H|[H|H]]]]; try discriminate H.
    exact (Ho _ H).
  - intros channel controllerNumber value H. apply Cases in H.
    destruct H as [H|[H|[H|[H|H]]]]; try discriminate H.
    exact (proj2 (Ho _ H)).
  - intros message H. apply Cases in H.
    destruct H as [H|[H|[H|[H|H]]]]; try discriminate H.
    + injection H as ->. left. reflexivity.
    + right. exact (proj2 (Ho _ H)).
Qed.

(** ** Restoring *)

Lemma forEachController_In (test : nat -> Z -> bool) (emit : nat -> Z -> Output)
    (table : list (option Z)) :
  forall start o,
  In o (forEachController test emit table start)
  <-> exists index value,
        arrayGet table index = Some value
        /\ test (start + index)%nat value = true
        /\ o = emit (start + index)%nat value.
Proof.
  induction table as [|slot rest IH]; intros start o.
  - cbn [forEachController In]. split; [intros []|].
    intros (index & value & H & _). rewrite arrayGet_nil in H. discriminate H.
  - assert (Shift : (exists index value,
                       arrayGet rest index = Some value
                       /\ test (S start + index)%nat value = true
                       /\ o = emit (S start + index)%nat value)
                    <-> exists index value,
                          arrayGet (slot :: rest) (S index) = Some value
                          /\ test (start + S index)%nat value = true
                          /\ o = emit (start + S index)%nat value).
    { split; intros (index & value & H1 & H2 & H3); exists index, value;
        rewrite ?Nat.add_succ_r in *; cbn [Nat.add] in *;
        (split; [exact H1|split; assumption]). }
    destruct slot as [value0|]; cbn [forEachController].
    + rewrite in_app_iff, IH, Shift. split.
      * intros [H|(index & value & H)].
        -- exists 0%nat, value0. rewrite Nat.add_0_r.
           destruct (test start value0); [|destruct H].
           destruct H as [<-|[]]. repeat split.
        -- exists (S index), value. exact H.
      * intros ([|index] & value & H1 & H2 & H3).
        -- left. cbn in H1. injection H1 as <-. rewrite Nat.add_0_r in *.
           rewrite H2. left. symmetry. exact H3.
        -- right. exists index, value. repeat split; assumption.
    + rewrite IH, Shift. split.
      * intros (index & value & H). exists (S index), value. exact H.
      * intros ([|index] & value & H1 & H2 & H3); [discriminate H1|].
        exists index, value. repeat split; assumption.
Qed.

(** The messages of a [forEach] come in the order of the indexes. *)
Lemma forEachController_NoDup (test : nat -> Z -> bool)
    (emit : nat -> Z -> Output) (table : list (option Z)) :
  (forall i j v w, emit i v = emit j w -> i = j) ->
  forall start, NoDup (forEachController test emit table start).
Proof.
  intros Inj. induction table as [|[value|] rest IH]; intros start;
    cbn [forEachController]; [constructor| |apply IH].
  destruct (test start value); cbn [app]; [|apply IH].
  constructor; [|apply IH].
  intros H. apply forEachController_In in H.
  destruct H as (index & w & _ & _ & E). apply Inj in E. lia.
Qed.

Lemma restoreToSynth_In (r : Replay) (channelNumber : nat)
    (channel controllerNumber value : Z) :
  In (SynthControllerChange channel controllerNumber value)
     (restoreToSynth r channelNumber)
  <-> channel = Z.of_nat channelNumber
      /\ exists table index,
           arrayGet (savedControllers r) channelNumber = Some table
           /\ arrayGet table index = Some value
           /\ controllerNumber = Z.of_nat index
           /\ differsFromDefault index value = true.
Proof.
  unfold restoreToSynth. rewrite in_app_iff. split.
  - intros [H|H].
    + destruct (arrayGet (pitchBends r) channelNumber);
        [destruct H as [H|[]]; discriminate H|destruct H].
    + destruct (arrayGet (savedControllers r) channelNumber) as [table|];
        [|destruct H].
      apply forEachController_In in H.
      destruct H as (index & w & H1 & H2 & E). injection E as -> -> ->.
      split; [reflexivity|]. exists table, index. repeat split; assumption.
  - intros (-> & table & index & Ht & Hv & -> & Hd). right. rewrite Ht.
    apply forEachController_In. exists index, value. repeat split; assumption.
Qed.

(** X19. Restoring a channel on the synthesizer sends no message twice, and
    a controller change [(channel, k, v)] is among the messages exactly when
    [v] is the value saved for controller [k] of that channel and differs
    from the default of [k] (a [k] past the end of the defaults differs
    always). *)
Theorem restoreToSynth_sends_what_differs (r : Replay) (channelNumber : nat) :
  NoDup (restoreToSynth r channelNumber)
  /\ forall channel controllerNumber value,
       In (SynthControllerChange channel controllerNumber value)
          (restoreToSynth r channelNumber)
       <-> channel = Z.of_nat channelNumber
           /\ exists table index,
                arrayGet (savedControllers r) channelNumber = Some table
                /\ arrayGet table index = Some value
                /\ controllerNumber = Z.of_nat index
                /\ differsFromDefault index value = true.
Proof.
  split; [|intros; apply restoreToSynth_In].
  unfold restoreToSynth.
  assert (N : NoDup
                match arrayGet (savedControllers r) channelNumber with
                | Some table =>
                    forEachController differsFromDefault
                      (fun index value =>
                         SynthControllerChange (Z.of_nat channelNumber)
                           (Z.of_nat index) value) table 0
                | None => []
                end).
  { destruct (arrayGet (savedControllers r) channelNumber); [|constructor].
    apply forEachController_NoDup. intros i j v w E.
    injection E as E _. lia. }
  destruct (arrayGet (pitchBends r) channelNumber); [|exact N].
  cbn [app]. constructor; [|exact N].
  destruct (arrayGet (savedControllers r) channelNumber); [|intros []].
  intros H. apply forEachController_In in H.
  destruct H as (index & w & _ & _ & E). discriminate E.
Qed.

(** X20. Restoring a channel to the MIDI output sends its pitch bend and
    then a controller change for each saved value that differs from
    [defaultControllerArray[channelNumber]].  The first message is the
    pitch bend status on the channel, then the low seven bits of the saved
    pitch bend, then the bits above them (of 0 when none is saved); a
    controller value is compared with the default of the controller whose
    number is the channel number, not with the default of its own
    controller. *)
Theorem restoreToMIDI_compares_with_one_default
    (r : Replay) (channelNumber : nat) (table : list (option Z)) :
  arrayGet (savedControllers r) channelNumber = Some table ->
  let value :=
    match arrayGet (pitchBends r) channelNumber with
    | Some saved => saved
    | None => 0
    end in
  exists controllerChanges,
    restoreToMIDI r channelNumber
    = Some (SendMIDIMessage
              [Z.lor messageTypes.pitchBend (Z.of_nat channelNumber);
               Z.land value 0x7F; Z.shiftr value 7]
            :: controllerChanges)
    /\ forall o,
         In o controllerChanges
         <-> exists index value,
               arrayGet table index = Some value
               /\ differsFromDefault channelNumber value = true
               /\ o = SendMIDIMessage
                        [Z.lor messageTypes.controllerChange
                           (Z.of_nat channelNumber);
                         Z.of_nat index; value].
Proof.
  intros Ht value. unfold restoreToMIDI. rewrite Ht.
  eexists. split; [reflexivity|].
  intros o. rewrite forEachController_In. reflexivity.
Qed.

(** ** A seek that replays nothing *)

Lemma restoreToSynth_start (s : WorkletSequencer) (ch : nat) :
  restoreToSynth (startOfReplay s) ch
  = if (ch <? 16)%nat then [SynthPitchWheel (Z.of_nat ch) 64 0] else [].
Proof.
  unfold restoreToSynth, startOfReplay. cbn [pitchBends savedControllers].
  do 16 (destruct ch as [|ch]; [vm_compute; reflexivity|]).
  unfold arrayGet. cbn [repeat nth_error Nat.ltb Nat.leb].
  destruct ch; reflexivity.
Qed.

Lemma flat_map_first_sixteen {A : Type} (g : nat -> A) (n : nat) :
  forall start,
  flat_map (fun ch => if (ch <? 16)%nat then [g ch] else []) (seq start n)
  = map g (seq start (Nat.min (16 - start) n)).
Proof.
  induction n as [|n IH]; intros start.
  - rewrite Nat.min_0_r. reflexivity.
  - cbn [seq flat_map]. rewrite IH.
    destruct (Nat.ltb_spec start 16) as [L|G].
    + replace (Nat.min (16 - start) (S n))
        with (S (Nat.min (16 - S start) n)) by lia.
      reflexivity.
    + replace (16 - start)%nat with 0%nat by lia.
      replace (16 - S start)%nat with 0%nat by lia.
      reflexivity.
Qed.

(** X21. A seek to a tick at or before the first event replays nothing:
    driving the synthesizer, [_playTo] returns true having sent the reset and
    one centred pitch wheel (64, 0) to each of the first sixteen channels of
    the synthesizer (to all of them if it has fewer) and no controller
    change; the cursors stay rewound. *)
Theorem seek_before_the_first_event
    (s : WorkletSequencer) (time : Q) (ticksTarget : Z) (event : MidiMessage) :
  let s1 := _resetTimers s in
  let r := _playTo s time (Some ticksTarget) in
  sendMIDIMessages s = false ->
  eventAt s1 (_findFirstEventIndex s1) = Some event ->
  ticksTarget <= ticks event ->
  fst (fst r) = Returned true
  /\ snd r
     = SynthResetAllControllers
       :: map (fun ch => SynthPitchWheel (Z.of_nat ch) 64 0)
              (seq 0 (Nat.min 16 (synthChannels (playback s))))
  /\ snd (fst r)
     = _resetTimers
         (set_playback
            (set_oneTickToSeconds (60 / (120 * inject_Z (timeDivision s)))%Q
               (playback s)) s).
Proof.
  intros s1 r Sm Ee Le. subst r. set (target := Some ticksTarget).
  destruct (playTo_parts s time target) as (Es & Eo & Eu).
  cbv zeta in Es, Eo, Eu. fold s1 in Es, Eo, Eu.
  set (r0 := startOfReplay
               (_resetTimers
                  (set_playback
                     (set_oneTickToSeconds
                        (60 / (120 * inject_Z (timeDivision s)))%Q
                        (playback s)) s))) in *.
  assert (L : replayLoop (S (eventsLeft (tracks s1) (eventIndex s1))) time
                target r0 = (Broke, r0, [])).
  { cbn [Sequencer.replayLoop].
    change (eventAt (sequencer r0) (_findFirstEventIndex (sequencer r0)))
      with (eventAt s1 (_findFirstEventIndex s1)).
    rewrite Ee. unfold target.
    assert (G : (ticks event >=? ticksTarget) = true).
    { rewrite Z.geb_leb. apply Z.leb_le. exact Le. }
    rewrite G. reflexivity. }
  rewrite L in Es, Eo, Eu. cbn [fst snd] in Es, Eo, Eu.
  change (sendMIDIMessages (sequencer r0)) with (sendMIDIMessages s) in Eo, Eu.
  rewrite Sm in Eo, Eu.
  split; [exact Eu|]. split; [|exact Es].
  rewrite Eo. cbn [app]. f_equal.
  change (synthChannels (playback (sequencer r0)))
    with (synthChannels (playback s)).
  unfold r0.
  erewrite flat_map_ext; [|intros ch; apply restoreToSynth_start].
  rewrite flat_map_first_sixteen. rewrite Nat.sub_0_r. reflexivity.
Qed.

(** ** A deferred controller, saved and restored *)

Lemma channelOffset_nonneg (p : Playback) (trackIndex : nat) :
  0 <= channelOffset p trackIndex.
Proof.
  unfold channelOffset.
  destruct (nth_error (midiPorts p) trackIndex) as [port|]; [|lia].
  destruct (midiPortChannelOffsets p port); lia.
Qed.

(** X22. A deferred controller change is saved and nothing is sent; it is
    saved under the channel of the message plus the channel offset of the
    port of its track.  Restoring that channel then issues the controller
    with the value of the event exactly when the value differs from the
    default, and with no other value; the other channels are restored as
    before. *)
Theorem deferred_controller_round_trip
    (r : Replay) (t : Z) (channel controllerNumber : nat) (value : Z)
    (trackIndex : nat) :
  (channel < 16)%nat ->
  isNotDeferred (Z.of_nat controllerNumber) = false ->
  let event :=
    controllerEvent t (Z.of_nat channel) (Z.of_nat controllerNumber) value in
  let channel' :=
    (channel + Z.to_nat (channelOffset (playback (sequencer r)) trackIndex))%nat in
  let r' := fst (replayEvent r event trackIndex) in
  snd (replayEvent r event trackIndex) = []
  /\ pitchBends r' = pitchBends r
  /\ (In (SynthControllerChange (Z.of_nat channel') (Z.of_nat controllerNumber)
            value)
         (restoreToSynth r' channel')
      <-> differsFromDefault controllerNumber value = true)
  /\ (forall value',
        In (SynthControllerChange (Z.of_nat channel')
              (Z.of_nat controllerNumber) value')
           (restoreToSynth r' channel') ->
        value' = value)
  /\ (forall ch, ch <> channel' -> restoreToSynth r' ch = restoreToSynth r ch).
Proof.
  intros Hc Hd event channel' r'.
  pose proof (channelOffset_nonneg (playback (sequencer r)) trackIndex) as Hoff.
  assert (E : replayEvent r event trackIndex
              = ({| sequencer := sequencer r;
                    pitchBends := pitchBends r;
                    savedControllers :=
                      arraySet (savedControllers r) channel'
                        (arraySet
                           match arrayGet (savedControllers r) channel' with
                           | Some table => table
                           | None => arrayFrom defaultControllerArray
                           end controllerNumber value) |}, [])).
  { unfold Sequencer.replayEvent, event, controllerEvent.
    cbn [messageStatusByte].
    rewrite (getEvent_channel_message messageTypes.controllerChange channel)
      by (cbn; tauto || exact Hc).
    change (messageTypes.controllerChange =? messageTypes.noteOn) with false.
    change (messageTypes.controllerChange =? messageTypes.noteOff) with false.
    change (messageTypes.controllerChange =? messageTypes.pitchBend) with false.
    change (messageTypes.controllerChange =? messageTypes.controllerChange)
      with true.
    cbn [orb]. unfold dataByte. cbn [messageData nth]. rewrite Hd.
    replace (Z.to_nat (Z.of_nat channel
                       + channelOffset (playback (sequencer r)) trackIndex))
      with channel' by (unfold channel'; lia).
    rewrite Nat2Z.id. reflexivity. }
  subst r'. rewrite E. cbn [fst snd].
  split; [reflexivity|]. split; [reflexivity|].
  set (table := match arrayGet (savedControllers r) channel' with
                | Some table => table
                | None => arrayFrom defaultControllerArray
                end) in *.
  split; [|split].
  - rewrite restoreToSynth_In. cbn [savedControllers].
    rewrite arrayGet_arraySet_eq. split.
    + intros (_ & table' & index & Ht & Hv & Hk & Hdf).
      injection Ht as <-. apply Nat2Z.inj in Hk. subst index. exact Hdf.
    + intros Hdf. split; [reflexivity|].
      eexists _, controllerNumber. split; [reflexivity|].
      split; [apply arrayGet_arraySet_eq|]. split; [reflexivity|exact Hdf].
  - intros value' H. apply restoreToSynth_In in H. cbn [savedControllers] in H.
    rewrite arrayGet_arraySet_eq in H.
    destruct H as (_ & table' & index & Ht & Hv & Hk & _).
    injection Ht as <-. apply Nat2Z.inj in Hk. subst index.
    rewrite arrayGet_arraySet_eq in Hv. congruence.
  - intros ch NE. unfold restoreToSynth. cbn [pitchBends savedControllers].
    rewrite arrayGet_arraySet_ne by congruence. reflexivity.
Qed.

(** ** Ports *)

(** X23. A MIDI port event is handed to [_processEvent], and the saved
    tables are then padded with default tables up to the number of channels
    the synthesizer has: the tables that were there are kept, the new ones
    hold the defaults, and the saved pitch bends are not padded. *)
Theorem midiPort_event_grows_the_tables
    (r : Replay) (event : MidiMessage) (trackIndex : nat) :
  messageStatusByte event = messageTypes.midiPort ->
  let r' := fst (replayEvent r event trackIndex) in
  let channels := synthChannels (playback (sequencer r')) in
  snd (replayEvent r event trackIndex) = [ProcessEvent event trackIndex]
  /\ playback (sequencer r')
     = _processEvent (playback (sequencer r)) event trackIndex
  /\ length (savedControllers r')
     = Nat.max (length (savedControllers r)) channels
  /\ (forall ch, (ch < length (savedControllers r))%nat ->
        arrayGet (savedControllers r') ch = arrayGet (savedControllers r) ch)
  /\ (forall ch, (length (savedControllers r) <= ch < channels)%nat ->
        arrayGet (savedControllers r') ch
        = Some (arrayFrom defaultControllerArray))
  /\ pitchBends r' = pitchBends r.
Proof.
  intros Hs r' channels. subst r' channels.
  unfold Sequencer.replayEvent. rewrite Hs.
  change (getEvent messageTypes.midiPort) with (messageTypes.midiPort, -1).
  cbv beta iota.
  change (messageTypes.midiPort =? messageTypes.noteOn) with false.
  change (messageTypes.midiPort =? messageTypes.noteOff) with false.
  change (messageTypes.midiPort =? messageTypes.pitchBend) with false.
  change (messageTypes.midiPort =? messageTypes.controllerChange) with false.
  change (messageTypes.midiPort =? messageTypes.midiPort) with true.
  cbn [orb fst snd sequencer playback set_playback savedControllers pitchBends].
  unfold growSavedControllers.
  split; [reflexivity|]. split; [reflexivity|].
  split; [rewrite length_app, repeat_length; lia|].
  split; [|split; [|reflexivity]].
  - intros ch Hch. unfold arrayGet. rewrite nth_error_app1 by exact Hch.
    reflexivity.
  - intros ch Hch. unfold arrayGet. rewrite nth_error_app2 by lia.
    rewrite nth_error_repeat by lia. reflexivity.
Qed.

(** X24. A pitch bend is saved under the channel of its status byte,
    whatever the port of its track: on a track whose port has a channel
    offset the entry of the offset channel is untouched, and that channel is
    restored as before. *)
Theorem pitch_bend_ignores_the_port
    (r : Replay) (t : Z) (channel : nat) (LSB MSB : Z) (trackIndex : nat) :
  (channel < 16)%nat ->
  let event := pitchBendEvent t (Z.of_nat channel) LSB MSB in
  let r' := fst (replayEvent r event trackIndex) in
  let channel' :=
    (channel + Z.to_nat (channelOffset (playback (sequencer r)) trackIndex))%nat in
  channel' <> channel ->
  arrayGet (pitchBends r') channel = Some (pitchBendValue event)
  /\ arrayGet (pitchBends r') channel' = arrayGet (pitchBends r) channel'
  /\ restoreToSynth r' channel' = restoreToSynth r channel'.
Proof.
  intros Hc event r' channel' NE. subst r' event.
  unfold Sequencer.replayEvent, pitchBendEvent. cbn [messageStatusByte].
  rewrite (getEvent_channel_message messageTypes.pitchBend channel)
    by (cbn; tauto || exact Hc).
  change (messageTypes.pitchBend =? messageTypes.noteOn) with false.
  change (messageTypes.pitchBend =? messageTypes.noteOff) with false.
  change (messageTypes.pitchBend =? messageTypes.pitchBend) with true.
  cbn [orb fst pitchBends]. rewrite Nat2Z.id.
  split; [apply arrayGet_arraySet_eq|]. split.
  - apply arrayGet_arraySet_ne. congruence.
  - unfold restoreToSynth. cbn [pitchBends savedControllers].
    rewrite arrayGet_arraySet_ne by congruence. reflexivity.
Qed.

(** X25. A controller change that is not deferred is sent at once, to the
    synthesizer or to the MIDI output, on the channel of its status byte
    without the channel offset of the port of its track; the saved pitch
    bends and controllers are left as they were. *)
Theorem immediate_controller_ignores_the_port
    (r : Replay) (t : Z) (channel : nat) (controllerNumber value : Z)
    (trackIndex : nat) :
  (channel < 16)%nat ->
  isNotDeferred controllerNumber = true ->
  let event := controllerEvent t (Z.of_nat channel) controllerNumber value in
  fst (replayEvent r event trackIndex) = r
  /\ (sendMIDIMessages (sequencer r) = false ->
      snd (replayEvent r event trackIndex)
      = [SynthControllerChange (Z.of_nat channel) controllerNumber value])
  /\ (sendMIDIMessages (sequencer r) = true ->
      snd (replayEvent r event trackIndex)
      = [SendMIDIMessage
           [Z.lor messageTypes.controllerChange (Z.of_nat channel);
            controllerNumber; value]]).
Proof.
  intros Hc Hd event. subst event.
  unfold Sequencer.replayEvent, controllerEvent. cbn [messageStatusByte].
  rewrite (getEvent_channel_message messageTypes.controllerChange channel)
    by (cbn; tauto || exact Hc).
  change (messageTypes.controllerChange =? messageTypes.noteOn) with false.
  change (messageTypes.controllerChange =? messageTypes.noteOff) with false.
  change (messageTypes.controllerChange =? messageTypes.pitchBend) with false.
  change (messageTypes.controllerChange =? messageTypes.controllerChange)
    with true.
  cbn [orb]. unfold dataByte. cbn [messageData nth]. rewrite Hd.
  destruct (sendMIDIMessages (sequencer r)); cbn [fst snd];
    (split; [reflexivity|]);
    split; intros E; first [reflexivity|discriminate E].
Qed.

(** The saved pitch bends are those of the sixteen channels a status byte
    can name. *)
Lemma replayEvent_pitchBends (r : Replay) (event : MidiMessage)
    (trackIndex : nat) :
  (forall ch, (16 <= ch)%nat -> arrayGet (pitchBends r) ch = None) ->
  forall ch, (16 <= ch)%nat ->
  arrayGet (pitchBends (fst (replayEvent r event trackIndex))) ch = None.
Proof.
  intros P. unfold Sequencer.replayEvent.
  pose proof (getEvent_channel_range (messageStatusByte event)) as Hc.
  destruct (getEvent (messageStatusByte event)) as [status channel].
  cbn [fst snd] in Hc.
  destruct ((status =? messageTypes.noteOn) || (status =? messageTypes.noteOff));
    [exact P|].
  destruct (Z.eqb_spec status messageTypes.pitchBend) as [->|NP].
  - cbn [fst pitchBends]. intros ch Hch.
    rewrite arrayGet_arraySet_ne; [apply P, Hch|].
    assert (0 <= channel < 16)
      by (apply Hc; unfold messageTypes.pitchBend; lia).
    lia.
  - destruct (status =? messageTypes.controllerChange).
    + destruct (isNotDeferred (dataByte event 0)); [|exact P].
      destruct (sendMIDIMessages (sequencer r)); exact P.
    + destruct (status =? messageTypes.midiPort); exact P.
Qed.

(** X26. The pitch wheel is restored on the first sixteen channels only: a
    pitch wheel call made by [_playTo] is made driving the synthesizer, by a
    call that returns true, and on a channel below 16, however many channels
    the ports have given the synthesizer. *)
Theorem playTo_restores_sixteen_pitch_wheels
    (s : WorkletSequencer) (time : Q) (ticksTarget : Z)
    (channel MSB LSB : Z) :
  In (SynthPitchWheel channel MSB LSB) (snd (_playTo s time (Some ticksTarget))) ->
  0 <= channel < 16
  /\ sendMIDIMessages s = false
  /\ fst (fst (_playTo s time (Some ticksTarget))) = Returned true.
Proof.
  intros H. set (target := Some ticksTarget) in *.
  destruct (playTo_parts s time target) as (_ & Eo & Ee). cbv zeta in Eo, Ee.
  rewrite Eo in H. rewrite Ee. clear Eo Ee.
  match type of H with
  | context [Sequencer.replayLoop _ ?f time target ?r0] =>
      pose proof (replayLoop_one_way time target f r0 (sendMIDIMessages s)
                    eq_refl) as [Hs Hf];
      pose proof (replayLoop_keeps time target
                    (fun r => forall ch, (16 <= ch)%nat ->
                                arrayGet (pitchBends r) ch = None)
                    (fun _ => True)) as Hp;
      specialize (Hp (fun r ev P _ _ =>
                        conj (proj2 (Forall_forall _ _) (fun _ _ => I))
                             (fun pt => replayEvent_pitchBends r ev _ P))
                     I f r0);
      destruct (Sequencer.replayLoop _processEvent f time target r0)
        as [[e r] out]
  end.
  cbn [fst snd] in *. rewrite Forall_forall in Hf.
  destruct Hp as [Hp _].
  { intros ch Hch. unfold startOfReplay. cbn [pitchBends].
    unfold arrayGet.
    assert (E : nth_error (repeat (Some 8192) 16) ch = None).
    { apply nth_error_None. rewrite repeat_length. exact Hch. }
    rewrite E. reflexivity. }
  apply in_app_or in H. destruct H as [H|H].
  { exfalso. destruct H as [H|H]; [discriminate H|].
    destruct (sendMIDIMessages s);
      [destruct H as [H|[]]; discriminate H|destruct H]. }
  apply in_app_or in H. destruct H as [H|H]; [destruct (Hf _ H)|].
  destruct e; try (destruct H).
  rewrite Hs in H |- *.
  destruct (sendMIDIMessages s).
  { exfalso. pose proof (restoreAllToMIDI_Forall r (seq 0 16)) as Fa.
    rewrite Forall_forall in Fa. exact (Fa _ H). }
  split; [|split; reflexivity].
  apply in_flat_map in H. destruct H as (ch & _ & H).
  unfold restoreToSynth in H. apply in_app_or in H. destruct H as [H|H].
  - destruct (arrayGet (pitchBends r) ch) eqn:Eg; [|destruct H].
    destruct H as [H|[]]. injection H as <- _ _.
    destruct (Nat.lt_ge_cases ch 16) as [L|G]; [lia|].
    rewrite (Hp ch G) in Eg. discriminate Eg.
  - exfalso.
    destruct (arrayGet (savedControllers r) ch); [|destruct H].
    apply forEachController_In in H.
    destruct H as (index & v & _ & _ & E). discriminate E.
Qed.

(** ** A file that is not finished *)

(** The track found has an event at its cursor whenever a track has one. *)
Lemma findFirstFrom_finds (trs : list (list MidiMessage)) :
  forall (cursors : list nat) (i index : nat) (best : option Z),
  let k := findFirstFrom trs cursors i index best in
  (k = index
   /\ (best = None ->
       forall j track cursor event,
         nth_error trs j = Some track -> nth_error cursors j = Some cursor ->
         nth_error track cursor = Some event -> False))
  \/ ((i <= k)%nat
      /\ exists track cursor event,
           nth_error trs (k - i) = Some track
           /\ nth_error cursors (k - i) = Some cursor
           /\ nth_error track cursor = Some event).
Proof.
  induction trs as [|track trs IH]; intros cursors i index best k.
  { left. split; [reflexivity|]. intros _ j tr c e H. destruct j; discriminate H. }
  destruct cursors as [|cursor cursors].
  { left. split; [reflexivity|]. intros _ j tr c e _ H. destruct j; discriminate H. }
  subst k. cbn [findFirstFrom].
  assert (Shift : forall (k index' : nat) (best' : option Z),
            ((S i <= k)%nat
             /\ exists tr c e,
                  nth_error trs (k - S i) = Some tr
                  /\ nth_error cursors (k - S i) = Some c
                  /\ nth_error tr c = Some e) ->
            (k = index'
             /\ (best' = None ->
                 forall j tr c e,
                   nth_error (track :: trs) j = Some tr ->
                   nth_error (cursor :: cursors) j = Some c ->
                   nth_error tr c = Some e -> False))
            \/ ((i <= k)%nat
                /\ exists tr c e,
                     nth_error (track :: trs) (k - i) = Some tr
                     /\ nth_error (cursor :: cursors) (k - i) = Some c
                     /\ nth_error tr c = Some e)).
  { intros k index' best' (Hk & tr & c & e & H1 & H2 & H3). right.
    split; [lia|]. exists tr, c, e.
    replace (k - i)%nat with (S (k - S i)) by lia.
    repeat split; assumption. }
  destruct (nth_error track cursor) as [event|] eqn:Ee.
  - assert (Here : forall (index' : nat) (best' : option Z),
              (i = index'
               /\ (best' = None ->
                   forall j tr c e,
                     nth_error (track :: trs) j = Some tr ->
                     nth_error (cursor :: cursors) j = Some c ->
                     nth_error tr c = Some e -> False))
              \/ ((i <= i)%nat
                  /\ exists tr c e,
                       nth_error (track :: trs) (i - i) = Some tr
                       /\ nth_error (cursor :: cursors) (i - i) = Some c
                       /\ nth_error tr c = Some e)).
    { intros index' best'. right. split; [lia|]. exists track, cursor, event.
      rewrite Nat.sub_diag. repeat split. exact Ee. }
    match goal with
    | |- context [if ?b then _ else _] => destruct b eqn:Eb
    end.
    + destruct (IH cursors (S i) i (Some (ticks event))) as [[Hk _]|H].
      * rewrite Hk. apply Here.
      * apply Shift, H.
    + destruct best as [b|]; [|discriminate Eb].
      destruct (IH cursors (S i) index (Some b)) as [[Hk _]|H].
      * left. split; [exact Hk|discriminate].
      * apply Shift, H.
  - destruct (IH cursors (S i) index best) as [[Hk Hn]|H].
    + left. split; [exact Hk|]. intros Hb [|j] tr c e H1 H2 H3.
      * cbn in H1, H2. injection H1 as <-. injection H2 as <-. congruence.
      * exact (Hn Hb j tr c e H1 H2 H3).
    + apply Shift, H.
Qed.

Lemma findFirstEventIndex_finds (s : WorkletSequencer) (i : nat)
    (event : MidiMessage) :
  eventAt s i = Some event ->
  eventAt s (_findFirstEventIndex s) <> None.
Proof.
  intros H. unfold eventAt in H.
  destruct (nth_error (tracks s) i) as [track|] eqn:Et; [|discriminate H].
  destruct (nth_error (eventIndex s) i) as [cursor|] eqn:Ec; [|discriminate H].
  destruct (findFirstFrom_finds (tracks s) (eventIndex s) 0 0 None)
    as [[_ Hn]|(_ & tr & c & e & H1 & H2 & H3)].
  - exfalso. exact (Hn eq_refl i track cursor event Et Ec H).
  - fold (_findFirstEventIndex s) in H1, H2. rewrite Nat.sub_0_r in H1, H2.
    unfold eventAt. rewrite H1, H2, H3. discriminate.
Qed.

(** An event at or after the target is never passed. *)
Lemma replayLoop_event_left (s : WorkletSequencer) (time : Q) (ticksTarget : Z)
    (fuel : nat) (r : Replay) :
  let left (r : Replay) :=
    tracks (sequencer r) = tracks s
    /\ exists i track cursor position event,
         nth_error (tracks s) i = Some track
         /\ nth_error (eventIndex (sequencer r)) i = Some cursor
         /\ (cursor <= position)%nat
         /\ nth_error track position = Some event
         /\ ticksTarget <= ticks event in
  left r -> left (snd (fst (replayLoop fuel time (Some ticksTarget) r))).
Proof.
  intros left L.
  apply (replayLoop_keeps time (Some ticksTarget) left (fun _ => True));
    [|exact I|exact L].
  clear r L. intros r ev (Kt & i & track & cursor & position & event
                           & Ht & Hc & Hle & Hp & Hev) Ee Er.
  split; [apply Forall_forall; intros; exact I|].
  intros pt. unfold left, advance.
  cbn [sequencer tracks eventIndex set_playedTime set_eventIndex].
  destruct (replayEvent_keeps r ev (_findFirstEventIndex (sequencer r)))
    as (Tr & Ei & _).
  rewrite Tr, Ei. split; [exact Kt|].
  exists i, track. rewrite increment_nth_error.
  destruct (Nat.eqb_spec (_findFirstEventIndex (sequencer r)) i) as [E|NE].
  - exists (S cursor), position, event. rewrite Hc.
    split; [exact Ht|]. split; [reflexivity|]. split; [|split; assumption].
    unfold eventAt in Ee. rewrite E, Kt, Ht, Hc in Ee.
    destruct (Nat.eq_dec cursor position) as [->|NEp]; [|lia].
    exfalso. assert (ev = event) by congruence. subst ev.
    unfold reached in Er. rewrite Z.geb_leb in Er. apply Z.leb_gt in Er. lia.
  - exists cursor, position, event. repeat split; assumption.
Qed.

(** X27. A file that is not finished.  When an event of the file is at or
    after the target tick, [_playTo] returns true (the replay is left by its
    [break], never by the end of the file), and [setTimeTicks] goes on to
    call [play].  The track search is the [_findFirstEventIndex] above, which
    finds an event at a cursor whenever a track has one left. *)
Theorem playTo_returns_true_when_an_event_is_left
    (s : WorkletSequencer) (time : Q) (ticksTarget : Z) :
  (exists track event,
     In track (tracks s) /\ In event track /\ ticksTarget <= ticks event) ->
  fst (fst (_playTo s time (Some ticksTarget))) = Returned true
  /\ fst (fst (setTimeTicks s ticksTarget)) = Returned true
  /\ In Play (snd (setTimeTicks s ticksTarget)).
Proof.
  intros (track & event & It & Ie & Le).
  assert (P : forall time',
            fst (fst (_playTo s time' (Some ticksTarget))) = Returned true).
  { intros time'. set (target := Some ticksTarget).
    destruct (playTo_parts s time' target) as (_ & _ & Ee). cbv zeta in Ee.
    rewrite Ee. clear Ee.
    set (s1 := _resetTimers s).
    set (r0 := startOfReplay
                 (_resetTimers
                    (set_playback
                       (set_oneTickToSeconds
                          (60 / (120 * inject_Z (timeDivision s)))%Q
                          (playback s)) s))).
    set (fuel := S (eventsLeft (tracks s1) (eventIndex s1))).
    pose proof (replayLoop_has_fuel _processEvent time' target fuel r0) as Hf.
    pose proof (replayLoop_leaves time' ticksTarget fuel r0) as Hl.
    cbv zeta in Hl. fold target in Hl. destruct Hl as (_ & _ & Hn).
    assert (Tk : tablesDefined (snd (fst (replayLoop fuel time' target r0)))).
    { apply (replayLoop_keeps time' target tablesDefined (fun _ => True)).
      - intros r ev Tr _ _. split.
        + apply Forall_forall. intros; exact I.
        + intros pt. exact (replayEvent_tables r ev _ Tr).
      - exact I.
      - apply startOfReplay_tables. }
    assert (Hl : tracks (sequencer (snd (fst (replayLoop fuel time' target r0))))
                 = tracks s
                 /\ exists i track cursor position event,
                      nth_error (tracks s) i = Some track
                      /\ nth_error
                           (eventIndex
                              (sequencer
                                 (snd (fst (replayLoop fuel time' target r0)))))
                           i = Some cursor
                      /\ (cursor <= position)%nat
                      /\ nth_error track position = Some event
                      /\ ticksTarget <= ticks event).
    { apply (replayLoop_event_left s). split; [reflexivity|].
      destruct (In_nth_error _ _ It) as (i & Hi).
      destruct (In_nth_error _ _ Ie) as (position & Hp).
      exists i, track, 0%nat, position, event.
      split; [exact Hi|]. split; [|split; [lia|split; assumption]].
      unfold r0, startOfReplay, _resetTimers.
      cbn [sequencer eventIndex set_eventIndex tracks set_playedTime
           set_playback].
      apply nth_error_repeat, nth_error_Some. congruence. }
    destruct (replayLoop fuel time' target r0) as [[e r] out].
    cbn [fst snd] in *.
    assert (Found : eventAt (sequencer r) (_findFirstEventIndex (sequencer r))
                    <> None).
    { destruct Hl as (Kt & i & tr & cursor & position & ev & Ht & Hc & Hle
                      & Hp & _).
      assert (Lp : (position < length tr)%nat)
        by (apply nth_error_Some; congruence).
      destruct (nth_error tr cursor) as [ev'|] eqn:Ec.
      - apply (findFirstEventIndex_finds _ i ev'). unfold eventAt.
        rewrite Kt, Ht, Hc. exact Ec.
      - apply nth_error_None in Ec. lia. }
    destruct e.
    - rewrite (restoreAllToMIDI_completes r (seq 0 16) Tk (seq_below 16)).
      destruct (sendMIDIMessages (sequencer r)); reflexivity.
    - exfalso. apply Found, Hn. left. reflexivity.
    - exfalso. apply Found, Hn. right. reflexivity.
    - exfalso. apply Hf; [|reflexivity].
      unfold fuel, r0, s1, startOfReplay, _resetTimers.
      cbn [sequencer tracks eventIndex set_eventIndex set_playedTime
           set_playback].
      lia. }
  split; [apply P|].
  specialize (P 0%Q). unfold Sequencer.setTimeTicks.
  destruct (Sequencer._playTo _processEvent s 0%Q (Some ticksTarget))
    as [[outcome s'] out].
  cbn [fst] in P. subst outcome. cbn [fst snd].
  split; [reflexivity|]. right. apply in_or_app. right. cbn. tauto.
Qed.

End SeekMore.

(** ** The pitch wheel, through the seek *)

Section PitchWheel.

Variable _processEvent : Playback -> MidiMessage -> nat -> Playback.

Abbreviation replayEvent := (replayEvent _processEvent).
Abbreviation replayLoop := (replayLoop _processEvent).
Abbreviation _playTo := (_playTo _processEvent).

Lemma replayedEvents_ext (target : Z) (fuel : nat) :
  forall a b,
  tracks a = tracks b -> eventIndex a = eventIndex b ->
  replayedEvents fuel target a = replayedEvents fuel target b.
Proof.
  induction fuel as [|fuel IH]; intros a b Et Ei; [reflexivity|].
  cbn [replayedEvents].
  unfold _findFirstEventIndex, eventAt. rewrite Et, Ei.
  destruct (nth_error (tracks b) _) as [track|]; [|reflexivity].
  destruct (nth_error (eventIndex b) _) as [cursor|]; [|reflexivity].
  destruct (nth_error track cursor) as [event|]; [|reflexivity].
  destruct (ticks event >=? target); [reflexivity|].
  f_equal. apply IH; cbn [tracks eventIndex set_eventIndex]; congruence.
Qed.

Lemma replayedEvents_no_event (target : Z) (fuel : nat) (s : WorkletSequencer) :
  eventAt s (_findFirstEventIndex s) = None ->
  replayedEvents fuel target s = [].
Proof.
  intros E. destruct fuel; [reflexivity|]. cbn [replayedEvents].
  rewrite E. reflexivity.
Qed.

Lemma replayEvent_savedBytes (channel : nat) (r : Replay)
    (event : MidiMessage) (trackIndex : nat) (bytes : Z * Z) :
  savedBytes channel r bytes ->
  savedBytes channel (fst (replayEvent r event trackIndex))
    (if isPitchBendOn channel event
     then (dataByte event 0, dataByte event 1) else bytes).
Proof.
  unfold savedBytes, isPitchBendOn, Sequencer.replayEvent. intros H.
  pose proof (getEvent_channel_range (messageStatusByte event)) as Hc.
  destruct (getEvent (messageStatusByte event)) as [status ch].
  cbn [fst snd] in Hc.
  destruct (Z.eqb_spec status messageTypes.pitchBend) as [->|NP].
  - change ((messageTypes.pitchBend =? messageTypes.noteOn)
            || (messageTypes.pitchBend =? messageTypes.noteOff)) with false.
    cbv beta iota. cbn [fst pitchBends andb].
    assert (R : 0 <= ch < 16) by (apply Hc; unfold messageTypes.pitchBend; lia).
    destruct (Z.eqb_spec ch (Z.of_nat channel)) as [->|NE].
    + rewrite Nat2Z.id, arrayGet_arraySet_eq. reflexivity.
    + rewrite arrayGet_arraySet_ne by lia. exact H.
  - cbn [andb].
    destruct ((status =? messageTypes.noteOn) || (status =? messageTypes.noteOff));
      [exact H|].
    destruct (status =? messageTypes.controllerChange).
    + destruct (isNotDeferred (dataByte event 0)).
      * destruct (sendMIDIMessages (sequencer r)); exact H.
      * exact H.
    + destruct (status =? messageTypes.midiPort); exact H.
Qed.

Lemma replayLoop_savedBytes (channel : nat) (time : Q) (target : Z)
    (fuel : nat) :
  forall (r : Replay) (bytes : Z * Z),
  savedBytes channel r bytes ->
  savedBytes channel (snd (fst (replayLoop fuel time (Some target) r)))
    (lastPitchBendFrom channel (replayedEvents fuel target (sequencer r)) bytes).
Proof.
  induction fuel as [|fuel IH]; intros r bytes H; [exact H|].
  cbn [Sequencer.replayLoop replayedEvents].
  destruct (eventAt (sequencer r) (_findFirstEventIndex (sequencer r)))
    as [event|]; [|exact H].
  destruct (ticks event >=? target); [exact H|].
  cbn [lastPitchBendFrom].
  pose proof (replayEvent_savedBytes channel r event
                (_findFirstEventIndex (sequencer r)) bytes H) as H1.
  pose proof (replayEvent_cursors _processEvent r event
                (_findFirstEventIndex (sequencer r))) as [Tr Ei].
  destruct (replayEvent r event (_findFirstEventIndex (sequencer r)))
    as [r1 out1]. cbn [fst] in H1, Tr, Ei.
  set (s1 := set_eventIndex
               (increment (eventIndex (sequencer r1))
                  (_findFirstEventIndex (sequencer r)))
               (sequencer r1)).
  assert (Ex : forall f,
            replayedEvents f target
              (set_eventIndex
                 (increment (eventIndex (sequencer r))
                    (_findFirstEventIndex (sequencer r)))
                 (sequencer r))
            = replayedEvents f target s1).
  { intros f. apply replayedEvents_ext; unfold s1;
      cbn [tracks eventIndex set_eventIndex]; congruence. }
  rewrite Ex.
  destruct (eventAt s1 (_findFirstEventIndex s1)) as [nextEvent|] eqn:En.
  - match goal with
    | |- context [Sequencer.replayLoop _ fuel time (Some target) ?r2] =>
        specialize (IH r2 _ H1);
        destruct (Sequencer.replayLoop _processEvent fuel time (Some target) r2)
          as [[e r3] out3]
    end.
    cbn [fst snd sequencer] in IH |- *.
    rewrite (replayedEvents_ext target fuel _ s1) in IH by reflexivity.
    exact IH.
  - cbn [fst snd]. rewrite (replayedEvents_no_event target fuel s1 En).
    exact H1.
Qed.


(** ** Status bytes of the messages sent *)

Lemma pitchBend_status_bit (channel : nat) :
  (channel < 16)%nat ->
  Z.testbit (Z.lor messageTypes.pitchBend (Z.of_nat channel)) 4 = false.
Proof.
  intros H. do 16 (destruct channel as [|channel]; [reflexivity|]). lia.
Qed.

Lemma controllerChange_status_bit (ch : Z) :
  Z.testbit (Z.lor messageTypes.controllerChange ch) 4 = true.
Proof. rewrite Z.lor_spec. reflexivity. Qed.

Lemma status_bytes_differ (channel : nat) (ch : Z) :
  (channel < 16)%nat ->
  Z.lor messageTypes.controllerChange ch
  <> Z.lor messageTypes.pitchBend (Z.of_nat channel).
Proof.
  intros H E. pose proof (controllerChange_status_bit ch) as B.
  rewrite E, pitchBend_status_bit in B by exact H. discriminate B.
Qed.

Lemma pitchBend_status_injective (a b : nat) :
  (a < 16)%nat -> (b < 16)%nat ->
  Z.lor messageTypes.pitchBend (Z.of_nat a)
  = Z.lor messageTypes.pitchBend (Z.of_nat b) ->
  a = b.
Proof.
  intros Ha Hb E.
  assert (L : forall c, (c < 16)%nat ->
            Z.lor messageTypes.pitchBend (Z.of_nat c) = 224 + Z.of_nat c).
  { intros c Hc. do 16 (destruct c as [|c]; [reflexivity|]). lia. }
  rewrite (L a Ha), (L b Hb) in E. lia.
Qed.

(** ** The batch, message by message *)

Lemma restoreAllToMIDI_sends (r : Replay) (channels : list nat) (o : Output) :
  In o (fst (restoreAllToMIDI r channels)) ->
  exists ch out,
    In ch channels /\ restoreToMIDI r ch = Some out /\ In o out.
Proof.
  induction channels as [|c rest IH]; cbn [restoreAllToMIDI fst]; [intros []|].
  destruct (restoreToMIDI r c) as [out|] eqn:E; [|intros []].
  destruct (restoreAllToMIDI r rest) as [out' completed]. cbn [fst] in *.
  intros H. apply in_app_or in H. destruct H as [H|H].
  - exists c, out. split; [left; reflexivity|]. split; assumption.
  - destruct (IH H) as (ch & out2 & I & R & O).
    exists ch, out2. split; [right; exact I|]. split; assumption.
Qed.

Lemma restoreAllToMIDI_sent (r : Replay) (channels : list nat) (ch : nat) :
  snd (restoreAllToMIDI r channels) = true ->
  In ch channels ->
  exists out,
    restoreToMIDI r ch = Some out
    /\ forall o, In o out -> In o (fst (restoreAllToMIDI r channels)).
Proof.
  induction channels as [|c rest IH]; cbn [restoreAllToMIDI]; [intros _ []|].
  destruct (restoreToMIDI r c) as [out|] eqn:E; [|discriminate].
  destruct (restoreAllToMIDI r rest) as [out' completed]. cbn [fst snd] in *.
  intros C [<-|I].
  - exists out. split; [exact E|]. intros o H. apply in_or_app. left. exact H.
  - destruct (IH C I) as (out2 & R & O).
    exists out2. split; [exact R|]. intros o H. apply in_or_app. right.
    apply O, H.
Qed.

(** C8 (amended).  A seek to a target in ticks that returns true.  For a
    channel below 16, take the last pitch bend on the channel among the
    events the replay met, with data bytes [LSB] and [MSB] below 128 (the
    bytes 0 and 64 of the centre when it met none).  The value recorded is
    [(MSB << 7) | LSB], of 14 bits, and it is split into [MSB] and [LSB]
    again.  Driving the synthesizer, [pitchWheel(channel, MSB, LSB)] is
    among the calls when the synthesizer has the channel, and no other
    pitch wheel is sent for the channel; to the MIDI output, the message
    of the pitch bend status on the channel, [LSB] and [MSB] is sent, and
    no other pitch bend for the channel.  Splitting a 14-bit value and
    joining the two bytes gives the value back. *)
Theorem pitch_wheel_round_trip
    (s : WorkletSequencer) (time : Q) (ticksTarget : Z) (channel : nat) :
  let r := _playTo s time (Some ticksTarget) in
  let LSB := fst (lastPitchBend channel (replayed s ticksTarget)) in
  let MSB := snd (lastPitchBend channel (replayed s ticksTarget)) in
  let value := Z.lor (Z.shiftl MSB 7) LSB in
  fst (fst r) = Returned true ->
  (channel < 16)%nat ->
  0 <= LSB < 128 -> 0 <= MSB < 128 ->
  0 <= value < 16384
  /\ Z.shiftr value 7 = MSB
  /\ Z.land value 0x7F = LSB
  /\ (sendMIDIMessages s = false ->
      ((channel < synthChannels (playback (snd (fst r))))%nat ->
       In (SynthPitchWheel (Z.of_nat channel) MSB LSB) (snd r))
      /\ forall M L,
           In (SynthPitchWheel (Z.of_nat channel) M L) (snd r) ->
           M = MSB /\ L = LSB)
  /\ (sendMIDIMessages s = true ->
      In (SendMIDIMessage
            [Z.lor messageTypes.pitchBend (Z.of_nat channel); LSB; MSB])
         (snd r)
      /\ forall L M,
           In (SendMIDIMessage
                 [Z.lor messageTypes.pitchBend (Z.of_nat channel); L; M])
              (snd r) ->
           L = LSB /\ M = MSB)
  /\ (forall v, 0 <= v < 16384 ->
        0 <= Z.shiftr v 7 < 128 /\ 0 <= Z.land v 0x7F < 128
        /\ Z.lor (Z.shiftl (Z.shiftr v 7) 7) (Z.land v 0x7F) = v).
Proof.
  intros r LSB MSB value Hr Hc HL HM.
  assert (Hh : Z.shiftr value 7 = MSB) by (apply split_join_high; exact HL).
  assert (Hl : Z.land value 0x7F = LSB) by (apply split_join_low; exact HL).
  split; [apply join_range; assumption|].
  split; [exact Hh|]. split; [exact Hl|].
  assert (Last : forall v, 0 <= v < 16384 ->
            0 <= Z.shiftr v 7 < 128 /\ 0 <= Z.land v 0x7F < 128
            /\ Z.lor (Z.shiftl (Z.shiftr v 7) 7) (Z.land v 0x7F) = v).
  { intros v Hv. destruct (split_range v Hv) as [A B].
    split; [exact A|]. split; [exact B|]. apply join_split. }
  cut ((sendMIDIMessages s = false ->
        ((channel < synthChannels (playback (snd (fst r))))%nat ->
         In (SynthPitchWheel (Z.of_nat channel) MSB LSB) (snd r))
        /\ forall M L,
             In (SynthPitchWheel (Z.of_nat channel) M L) (snd r) ->
             M = MSB /\ L = LSB)
       /\ (sendMIDIMessages s = true ->
           In (SendMIDIMessage
                 [Z.lor messageTypes.pitchBend (Z.of_nat channel); LSB; MSB])
              (snd r)
           /\ forall L M,
                In (SendMIDIMessage
                      [Z.lor messageTypes.pitchBend (Z.of_nat channel); L; M])
                   (snd r) ->
                L = LSB /\ M = MSB)).
  { intros [A B]. split; [exact A|]. split; [exact B|exact Last]. }
  clear Last. subst r.
  destruct (playTo_parts _processEvent s time (Some ticksTarget))
    as (Es & Eo & Ee).
  cbv zeta in Es, Eo, Ee. rewrite Es, Eo. rewrite Ee in Hr. clear Es Eo Ee.
  set (s1 := _resetTimers s) in *.
  set (r0 := startOfReplay
               (_resetTimers
                  (set_playback
                     (set_oneTickToSeconds
                        (60 / (120 * inject_Z (timeDivision s)))%Q
                        (playback s)) s))) in *.
  set (fuel := S (eventsLeft (tracks s1) (eventIndex s1))) in *.
  assert (Sv : savedBytes channel
                 (snd (fst (replayLoop fuel time (Some ticksTarget) r0)))
                 (LSB, MSB)).
  { pose proof (replayLoop_savedBytes channel time ticksTarget fuel r0 (0, 64))
      as H.
    replace (replayedEvents fuel ticksTarget (sequencer r0))
      with (replayed s ticksTarget) in H.
    - unfold LSB, MSB. unfold lastPitchBend.
      rewrite <- surjective_pairing. apply H.
      unfold savedBytes, r0, startOfReplay. cbn [pitchBends fst snd].
      do 16 (destruct channel as [|channel]; [reflexivity|]). lia.
    - unfold replayed. fold s1. fold fuel.
      apply replayedEvents_ext; reflexivity. }
  unfold savedBytes in Sv. cbn [fst snd] in Sv. fold value in Sv.
  pose proof (replayLoop_one_way _processEvent time (Some ticksTarget) fuel r0
                (sendMIDIMessages s) eq_refl) as [Hm Ho].
  rewrite Forall_forall in Ho.
  destruct (replayLoop fuel time (Some ticksTarget) r0) as [[e r] out].
  cbn [fst snd] in *.
  destruct e; try discriminate Hr.
  rewrite Hm in *.
  split; intros Hs; rewrite Hs in *.
  - split.
    + intros Hch. apply in_or_app. right. apply in_or_app. right.
      apply in_flat_map. exists channel. split; [apply in_seq; lia|].
      unfold restoreToSynth. rewrite Sv, Hh, Hl. left. reflexivity.
    + intros M L H. apply in_app_or in H. destruct H as [H|H].
      { destruct H as [H|[]]. discriminate H. }
      apply in_app_or in H. destruct H as [H|H].
      { destruct (Ho _ H). }
      apply in_flat_map in H. destruct H as (ch & _ & H).
      unfold restoreToSynth in H. apply in_app_or in H. destruct H as [H|H].
      * destruct (arrayGet (pitchBends r) ch) as [pb|] eqn:Ep; [|destruct H].
        destruct H as [H|[]]. injection H as Ec <- <-.
        apply Nat2Z.inj in Ec. subst ch.
        rewrite Sv in Ep. injection Ep as <-. split; assumption.
      * destruct (arrayGet (savedControllers r) ch); [|destruct H].
        apply forEachController_In in H.
        destruct H as (index & w & _ & _ & E). discriminate E.
  - destruct (restoreAllToMIDI r (seq 0 16)) as [batch completed] eqn:Eb.
    cbn [fst snd] in *. destruct completed; [|discriminate Hr].
    assert (Head : forall ch, (ch < 16)%nat ->
              exists pb controllerChanges,
                arrayGet (pitchBends r) ch = pb
                /\ restoreToMIDI r ch
                   = Some (SendMIDIMessage
                             [Z.lor messageTypes.pitchBend (Z.of_nat ch);
                              Z.land (match pb with Some v => v | None => 0 end) 0x7F;
                              Z.shiftr (match pb with Some v => v | None => 0 end) 7]
                           :: controllerChanges)
                /\ forall o, In o controllerChanges ->
                     exists index w,
                       o = SendMIDIMessage
                             [Z.lor messageTypes.controllerChange (Z.of_nat ch);
                              Z.of_nat index; w]).
    { intros ch Lc.
      pose proof (restoreAllToMIDI_sent r (seq 0 16) ch) as S.
      rewrite Eb in S. cbn [fst snd] in S.
      destruct (S eq_refl ltac:(apply in_seq; lia)) as (o1 & R1 & _).
      unfold restoreToMIDI in R1 |- *.
      destruct (arrayGet (savedControllers r) ch) as [table|];
        [|discriminate R1].
      eexists _, _. split; [reflexivity|]. split; [reflexivity|].
      intros o H. apply forEachController_In in H.
      destruct H as (index & w & _ & _ & ->). exists index, w. reflexivity. }
    split.
    + apply in_or_app. right. apply in_or_app. right.
      pose proof (restoreAllToMIDI_sent r (seq 0 16) channel) as S.
      rewrite Eb in S. cbn [fst snd] in S.
      destruct (S eq_refl ltac:(apply in_seq; lia)) as (o1 & R1 & I1).
      apply I1.
      destruct (Head channel Hc) as (pb & cs & Ep & R2 & _).
      rewrite R2 in R1. injection R1 as <-.
      rewrite Sv in Ep. subst pb. rewrite Hh, Hl. left. reflexivity.
    + intros L M H. apply in_app_or in H. destruct H as [H|H].
      { destruct H as [H|[H|[]]]; inversion H. }
      apply in_app_or in H. destruct H as [H|H].
      { destruct (Ho _ H) as (_ & ch & k & v & E & _).
        injection E as E _ _. exfalso.
        exact (status_bytes_differ channel ch Hc (eq_sym E)). }
      pose proof (restoreAllToMIDI_sends r (seq 0 16)) as S.
      rewrite Eb in S. cbn [fst] in S. specialize (S _ H).
      destruct S as (ch & o1 & Ic & R1 & I1).
      apply in_seq in Ic.
      destruct (Head ch ltac:(lia)) as (pb & cs & Ep & R2 & Cs).
      rewrite R2 in R1. injection R1 as <-.
      destruct I1 as [E|I1].
      * injection E as Ec <- <-.
        apply pitchBend_status_injective in Ec; [|lia|exact Hc]. subst ch.
        rewrite Sv in Ep. subst pb. split; assumption.
      * destruct (Cs _ I1) as (index & w & E). injection E as E _ _.
        exfalso. exact (status_bytes_differ channel _ Hc (eq_sym E)).
Qed.

End PitchWheel.

(** ** The seek on concrete files *)

Lemma playTo_skips_channel_events_witness :
  ~ In (fst (getEvent (messageStatusByte (endOfTrackEvent 100))))
       [messageTypes.noteOn; messageTypes.noteOff; messageTypes.pitchBend;
        messageTypes.controllerChange]
  /\ (exists track,
        nth_error (tracks (loaded smallFile false)) 0 = Some track
        /\ In (endOfTrackEvent 100) track)
  /\ ticks (endOfTrackEvent 100) < 200.
Proof.
  refine (playTo_skips_channel_events noPortChange (loaded smallFile false) 0
            200 (endOfTrackEvent 100) 0 _).
  vm_compute. tauto.
Defined.

Lemma playTo_sends_one_way_witness :
  Forall
    (fun o =>
       match o with
       | SynthResetAllControllers | SynthControllerChange _ _ _
       | SynthPitchWheel _ _ _ => False
       | _ => True
       end)
    (tl (replayOutputs (loaded smallFile true) 50)).
Proof.
  exact (proj1 (proj2 (playTo_sends_one_way noPortChange
                         (loaded smallFile true) 0 50)) eq_refl).
Defined.

Lemma playTo_throws_only_without_event_witness :
  fst (fst (_playTo noPortChange (loaded [[]] false) 0 (Some 10))) = TypeError.
Proof.
  refine (proj2 (proj2 (playTo_throws_only_without_event noPortChange
                          (loaded [[]] false) 0 10)) _).
  intros track H. simpl in H. destruct H as [<-|[]]. reflexivity.
Defined.

Lemma playTo_keeps_the_file_witness :
  (3 <= length (hd [] smallFile))%nat.
Proof.
  refine (proj2 (proj2 (proj2 (proj2
            (playTo_keeps_the_file noPortChange (loaded smallFile false) 0 8))))
            0%nat (hd [] smallFile) 3%nat eq_refl _).
  vm_compute. reflexivity.
Defined.

Lemma seek_past_the_end_witness :
  fst (fst (setTimeTicks noPortChange (loaded volumeOnly false) 200))
  = Returned false
  /\ ~ In Play (seekOutputs (loaded volumeOnly false) 200).
Proof.
  refine (let H := seek_past_the_end noPortChange (loaded volumeOnly false) 200
                     _ _ in
          conj (proj1 H) (proj1 (proj2 H))).
  - vm_compute. discriminate.
  - intros track event Ht He. simpl in Ht. destruct Ht as [<-|[]].
    simpl in He. destruct He as [<-|[<-|[]]]; vm_compute; reflexivity.
Defined.

Lemma seek_before_the_first_event_witness :
  replayOutputs (loaded smallFile false) 0
  = SynthResetAllControllers
    :: map (fun ch => SynthPitchWheel (Z.of_nat ch) 64 0) (seq 0 16).
Proof.
  refine (proj1 (proj2 (seek_before_the_first_event noPortChange
                          (loaded smallFile false) 0 0
                          (controllerEvent 0 0 7 50) eq_refl eq_refl _))).
  vm_compute. discriminate.
Defined.

Lemma restoreToMIDI_compares_with_one_default_witness :
  exists controllerChanges,
    restoreToMIDI
      (fst (replayEvent noPortChange (startOfReplay (loaded smallFile true))
              (pitchBendEvent 5 3 5 70) 0))
      3
    = Some (SendMIDIMessage [0xE3; 5; 70] :: controllerChanges)
    /\ forall o,
         In o controllerChanges
         <-> exists index value,
               arrayGet (arrayFrom defaultControllerArray) index = Some value
               /\ differsFromDefault 3 value = true
               /\ o = SendMIDIMessage
                        [Z.lor messageTypes.controllerChange (Z.of_nat 3);
                         Z.of_nat index; value].
Proof.
  exact (restoreToMIDI_compares_with_one_default
           (fst (replayEvent noPortChange
                   (startOfReplay (loaded smallFile true))
                   (pitchBendEvent 5 3 5 70) 0))
           3 (arrayFrom defaultControllerArray) eq_refl).
Defined.

Lemma deferred_controller_round_trip_witness :
  In (SynthControllerChange 0 7 50)
     (restoreToSynth
        (fst (replayEvent noPortChange
                (startOfReplay (loaded volumeOnly false))
                (controllerEvent 0 0 7 50) 0))
        0).
Proof.
  refine (proj2 (proj1 (proj2 (proj2
            (deferred_controller_round_trip noPortChange
               (startOfReplay (loaded volumeOnly false)) 0 0 7 50 0 _ eq_refl))))
            eq_refl).
  lia.
Defined.

Lemma midiPort_event_grows_the_tables_witness :
  length
    (savedControllers
       (fst (replayEvent noPortChange (mkReplay (loaded volumeOnly false) [] [])
               (mkMessage 0 messageTypes.midiPort [1]) 0)))
  = Nat.max 0 16.
Proof.
  exact (proj1 (proj2 (proj2
           (midiPort_event_grows_the_tables noPortChange
              (mkReplay (loaded volumeOnly false) [] [])
              (mkMessage 0 messageTypes.midiPort [1]) 0 eq_refl)))).
Defined.

Lemma pitch_bend_ignores_the_port_witness :
  restoreToSynth
    (fst (replayEvent noPortChange
            (startOfReplay
               (set_playback (mkPlayback 0 [1] (fun _ => Some 16%nat) 32)
                  (loaded volumeOnly false)))
            (pitchBendEvent 0 3 5 70) 0))
    19
  = restoreToSynth
      (startOfReplay
         (set_playback (mkPlayback 0 [1] (fun _ => Some 16%nat) 32)
            (loaded volumeOnly false)))
      19.
Proof.
  refine (proj2 (proj2
            (pitch_bend_ignores_the_port noPortChange
               (startOfReplay
                  (set_playback (mkPlayback 0 [1] (fun _ => Some 16%nat) 32)
                     (loaded volumeOnly false)))
               0 3 5 70 0 _ _)));
    vm_compute; [lia|discriminate].
Defined.

Lemma immediate_controller_ignores_the_port_witness :
  snd (replayEvent noPortChange
         (startOfReplay
            (set_playback (mkPlayback 0 [1] (fun _ => Some 16%nat) 32)
               (loaded volumeOnly false)))
         (controllerEvent 0 3 6 12) 0)
  = [SynthControllerChange 3 6 12].
Proof.
  refine (proj1 (proj2
            (immediate_controller_ignores_the_port noPortChange
               (startOfReplay
                  (set_playback (mkPlayback 0 [1] (fun _ => Some 16%nat) 32)
                     (loaded volumeOnly false)))
               0 3 6 12 0 _ eq_refl)) eq_refl).
  vm_compute. lia.
Defined.

Lemma playTo_restores_sixteen_pitch_wheels_witness :
  0 <= 3 < 16
  /\ sendMIDIMessages (loaded smallFile false) = false
  /\ fst (fst (_playTo noPortChange (loaded smallFile false) 0 (Some 50)))
     = Returned true.
Proof.
  refine (playTo_restores_sixteen_pitch_wheels noPortChange
            (loaded smallFile false) 0 50 3 70 5 _).
  vm_compute. tauto.
Defined.

Lemma playTo_returns_true_when_an_event_is_left_witness :
  fst (fst (_playTo noPortChange (loaded smallFile false) 0 (Some 50)))
  = Returned true
  /\ fst (fst (setTimeTicks noPortChange (loaded smallFile false) 50))
     = Returned true
  /\ In Play (seekOutputs (loaded smallFile false) 50).
Proof.
  refine (playTo_returns_true_when_an_event_is_left noPortChange
            (loaded smallFile false) 0 50 _).
  exists (hd [] smallFile), (endOfTrackEvent 100).
  vm_compute. intuition discriminate.
Defined.

(** C8, the claim as stated fails.  Two pitch bends on channel 3, at ticks
    0 and 10.  A seek to tick 50 meets both: the second overwrites the
    first, whose value (MSB 70, LSB 5) is not delivered.  A seek to tick
    150, past the end of the file, meets both and delivers no pitch wheel
    at all. *)
Lemma earlier_pitch_bend_is_not_delivered :
  let s := loaded twoPitchBends false in
  let seek := _playTo noPortChange s 0%Q (Some 50) in
  let past := _playTo noPortChange s 0%Q (Some 150) in
  In (pitchBendEvent 0 3 5 70) (replayed s 50)
  /\ fst (fst seek) = Returned true
  /\ snd seek
     = SynthResetAllControllers
       :: map (fun ch =>
                 if Nat.eqb ch 3 then SynthPitchWheel 3 2 1
                 else SynthPitchWheel (Z.of_nat ch) 64 0)
              (seq 0 16)
  /\ ~ In (SynthPitchWheel 3 70 5) (snd seek)
  /\ In (pitchBendEvent 10 3 1 2) (replayed s 150)
  /\ fst (fst past) = Returned false
  /\ snd past
     = [SynthResetAllControllers; ProcessEvent (endOfTrackEvent 100) 0; Stop].
Proof.
  vm_compute. repeat split; try reflexivity; try tauto.
  intros H. repeat (destruct H as [H|H]; [discriminate H|]). exact H.
Qed.

Lemma pitch_wheel_round_trip_witness :
  In (SynthPitchWheel 3 2 1)
     (snd (_playTo noPortChange (loaded twoPitchBends false) 0 (Some 50))).
Proof.
  refine (proj1
            (proj1 (proj2 (proj2 (proj2
               (pitch_wheel_round_trip noPortChange
                  (loaded twoPitchBends false) 0 50 3 _ _ _ _))))
               eq_refl) _).
  - vm_compute. reflexivity.
  - lia.
  - change (0 <= 1 < 128). lia.
  - change (0 <= 2 < 128). lia.
  - change (3 < 16)%nat. lia.
Defined.
